(** * Brandes-Koepf coordinate assignment ([lib/position/bk.js])

    A shallow embedding of the module's five exported functions
    ([collectType1Conflicts], [addType1Conflict], [hasType1Conflict],
    [verticalAlignment], [horizontalCompaction]) and of their private
    helpers, followed by the properties the specification states about them.

    Modelling conventions.
    - Node ids are JavaScript strings (they are used as object keys); the
      comparison [v > w] of the source is the code-unit lexicographic order,
      here [String.ltb w v].
    - Objects used as maps ([conflicts], [sink], [shift], the options object,
      the graph's label table) are [gmap]s keyed by strings.
    - The node labels are mutable objects reached through [g.getNode]; they
      live in a store that every function threads (monad [M]).
    - Reading a property of [undefined] raises a [TypeError]; this is the
      outcome [Err TypeError].
    - Numbers are exact rationals ([Q]) instead of IEEE doubles;
      [Number.POSITIVE_INFINITY] is a separate constructor.  A computation
      that would produce [NaN] in the source stops with [Err NotANumber].
    - The recursion of [placeBlock] and its do-while loop need not terminate
      on arbitrary labels; they are given fuel, and running out of it is the
      outcome [Err OutOfFuel]. *)

From Stdlib Require Import ZArith QArith Qminmax Lia.
From stdpp Require Import base option list strings gmap.

Local Open Scope Z_scope.

(** ** Outcomes and the store monad *)

Inductive Error := TypeError | NotANumber | OutOfFuel.

Inductive Res (A : Type) : Type :=
| Ok (a : A)
| Err (e : Error).
Arguments Ok {A} a.
Arguments Err {A} e.

(** The label object of a node.  [rank], [order], [dummy] and [width] are
    written by earlier phases of the layout; [root], [align] and [x] are the
    slots this module fills, [None] standing for [undefined]. *)
Record Label := mkLabel {
  rank : Z;
  order : Z;
  dummy : bool;
  width : Q;
  root : option string;
  align : option string;
  x : option Q
}.

Definition set_root (r : option string) (l : Label) : Label :=
  mkLabel (rank l) (order l) (dummy l) (width l) r (align l) (x l).
Definition set_align (a : option string) (l : Label) : Label :=
  mkLabel (rank l) (order l) (dummy l) (width l) (root l) a (x l).
Definition set_x (q : option Q) (l : Label) : Label :=
  mkLabel (rank l) (order l) (dummy l) (width l) (root l) (align l) q.

(** The immutable part of the graph object: the node ids in the iteration
    order of [g.nodeIds()] / [g.nodes()], and [g.predecessors]. *)
Record Graph := mkGraph {
  nodeIds : list string;
  predecessors : string -> list string
}.

(** Ghost events, appended when the source performs the corresponding
    action; no function of the module reads them. *)
Inductive Event :=
| EvConflict (u scanNode : string) (uPos k0 k1 : Z)
| EvMerge (v w : string) (prevIdx : Z) (before : gmap string Label).

Record Heap := mkHeap {
  labels : gmap string Label;
  trace : list Event
}.

Definition M (A : Type) : Type := Heap -> Res (A * Heap).

Definition ret {A} (a : A) : M A := fun h => Ok (a, h).
Definition bind {A B} (m : M A) (f : A -> M B) : M B :=
  fun h => match m h with
           | Ok (a, h') => f a h'
           | Err e => Err e
           end.
Definition throw {A} (e : Error) : M A := fun _ => Err e.

Declare Scope m_scope.
Delimit Scope m_scope with M.
Notation "'let*' x ':=' m 'in' k" := (bind m (fun x => k))
  (at level 10, x pattern, m at level 100, k at level 200) : m_scope.
Notation "m ';;' k" := (bind m (fun _ => k))
  (at level 100, k at level 200, right associativity) : m_scope.
Local Open Scope m_scope.

(** [g.getNode(v).f]: a [TypeError] when the node has no label. *)
Definition getNode (v : string) : M Label :=
  fun h => match labels h !! v with
           | Some l => Ok (l, h)
           | None => Err TypeError
           end.

(** [g.getNode(v).f = e] for a field updater [upd]. *)
Definition modifyNode (v : string) (upd : Label -> Label) : M unit :=
  fun h => match labels h !! v with
           | Some l => Ok (tt, mkHeap (<[v := upd l]> (labels h)) (trace h))
           | None => Err TypeError
           end.

Definition emit (e : Event) : M unit :=
  fun h => Ok (tt, mkHeap (labels h) (trace h ++ [e])).

Definition getLabels : M (gmap string Label) :=
  fun h => Ok (labels h, h).

(** [_.each(xs, f)] *)
Fixpoint forEach {A} (xs : list A) (f : A -> M unit) : M unit :=
  match xs with
  | [] => ret tt
  | a :: xs' => f a ;; forEach xs' f
  end.

(** A loop that carries local variables [S] of the enclosing function. *)
Fixpoint foldM {A S} (f : S -> A -> M S) (s : S) (xs : list A) : M S :=
  match xs with
  | [] => ret s
  | a :: xs' => let* s' := f s a in foldM f s' xs'
  end.

(** [_.find(xs, p)] *)
Fixpoint findM {A} (p : A -> M bool) (xs : list A) : M (option A) :=
  match xs with
  | [] => ret None
  | a :: xs' => let* b := p a in if b then ret (Some a) else findM p xs'
  end.

(** ** The conflict set *)

Abbreviation Conflicts := (gmap string (gset string)).

(** [v > w] on ids *)
Definition id_gt (v w : string) : bool := String.ltb w v.

Definition addType1Conflict (conflicts : Conflicts) (v w : string) : Conflicts :=
  let '(v, w) := if id_gt v w then (w, v) else (v, w) in
  let conflictsV := default ∅ (conflicts !! v) in
  <[v := {[w]} ∪ conflictsV]> conflicts.

Definition hasType1Conflict (conflicts : Conflicts) (v w : string) : bool :=
  let '(v, w) := if id_gt v w then (w, v) else (v, w) in
  match conflicts !! v with
  | Some conflictsV => bool_decide (w ∈ conflictsV)
  | None => false
  end.

(** The conflict set after a sequence of [addType1Conflict] calls on [{}]. *)
Definition buildConflicts (calls : list (string * string)) : Conflicts :=
  foldl (fun c p => addType1Conflict c p.1 p.2) ∅ calls.

(** The canonical form of a pair: smaller id first. *)
Definition canon (v w : string) : string * string :=
  if id_gt v w then (w, v) else (v, w).

(** ** Conflict detection *)

(** In [w ? a : b] and [w || c] the result of [_.find] is tested for
    truthiness: [undefined] and the empty string are falsy. *)
Definition truthy (w : option string) : option string :=
  match w with
  | Some s => if String.eqb s "" then None else Some s
  | None => None
  end.

Definition findOtherInnerSegmentNode (g : Graph) (v : string) : M (option string) :=
  let* vLabel := getNode v in
  if dummy vLabel then
    findM (fun u => let* uLabel := getNode u in ret (dummy uLabel))
          (predecessors g v)
  else ret None.

(** [layer.slice(from, to)] for [0 <= from]. *)
Definition slice {A} (from to : nat) (l : list A) : list A :=
  take (to - from) (drop from l).

(** The body of the innermost [_.each], for one predecessor [u] of
    [scanNode]; [conflicts] is the object the enclosing function mutates. *)
Definition scanPredecessor (k0 k1 : Z) (scanNode : string)
    (conflicts : Conflicts) (u : string) : M Conflicts :=
  let* uLabel := getNode u in
  let uPos := order uLabel in
  if (uPos <? k0) || (k1 <? uPos) then
    let* inner :=
      (if dummy uLabel
       then let* sLabel := getNode scanNode in ret (dummy sLabel)
       else ret false) in
    if inner then ret conflicts
    else emit (EvConflict u scanNode uPos k0 k1) ;;
         ret (addType1Conflict conflicts u scanNode)
  else ret conflicts.

Definition scanNodes (g : Graph) (k0 k1 : Z) (conflicts : Conflicts)
    (nodes : list string) : M Conflicts :=
  foldM (fun c scanNode =>
           foldM (scanPredecessor k0 k1 scanNode) c (predecessors g scanNode))
        conflicts nodes.

(** The local variables of [visitLayer] that its loop updates, together with
    the [conflicts] object. *)
Record ScanState := mkScan {
  st_k0 : Z;
  st_scanPos : nat;
  st_conflicts : Conflicts
}.

(** [k1] as computed at the head of the loop body. *)
Definition windowEnd (prevLayerLength : Z) (w : option string) : M Z :=
  match truthy w with
  | Some w' => let* wLabel := getNode w' in ret (order wLabel)
  | None => ret prevLayerLength
  end.

(** One iteration of [_.each(layer, function(v, i) ...)]. *)
Definition visitNode (g : Graph) (prevLayerLength : Z) (layer : list string)
    (st : ScanState) (iv : nat * string) : M ScanState :=
  let '(i, v) := iv in
  let* w := findOtherInnerSegmentNode g v in
  let* k1 := windowEnd prevLayerLength w in
  if bool_decide (is_Some (truthy w)) || bool_decide (Some v = last layer) then
    let* c := scanNodes g (st_k0 st) k1 (st_conflicts st)
                        (slice (st_scanPos st) (i + 1) layer) in
    ret (mkScan k1 (i + 1)%nat c)
  else ret st.

Definition indexed {A} (l : list A) : list (nat * A) := imap pair l.

Definition visitLayer (g : Graph) (conflicts : Conflicts)
    (prevLayer layer : list string) : M Conflicts :=
  let prevLayerLength := Z.of_nat (length prevLayer) in
  let* st := foldM (visitNode g prevLayerLength layer)
                   (mkScan 0 0%nat conflicts) (indexed layer) in
  ret (st_conflicts st).

(** [_.reduce(layering, visitLayer)] has no initial accumulator: the first
    layer is the first [prevLayer], and [visitLayer] returns [layer]. *)
Definition collectType1Conflicts (g : Graph) (layering : list (list string))
    : M Conflicts :=
  match layering with
  | [] => ret ∅
  | first :: rest =>
      let* r := foldM (fun (acc : list string * Conflicts) layer =>
                         let* c := visitLayer g acc.2 acc.1 layer in
                         ret (layer, c))
                      (first, ∅) rest in
      ret r.2
  end.

(** ** Vertical alignment *)

(** The first loop of [verticalAlignment]: every node becomes a singleton
    block. *)
Definition initBlocks (g : Graph) : M unit :=
  forEach (nodeIds g)
          (fun v => modifyNode v (fun label => set_align (Some v) (set_root (Some v) label))).

(** The indices [Math.floor(mp) .. Math.ceil(mp)] for
    [mp = (len - 1) / 2] and [len >= 1]: [floor mp = (len - 1) div 2] and
    [ceil mp = len div 2]. *)
Definition medianIndices (len : nat) : list nat :=
  let lo := ((len - 1) / 2)%nat in
  let hi := (len / 2)%nat in
  seq lo (hi + 1 - lo).

(** The body of the [for] loop, for the candidate [ws[i]]; the result is
    the new value of [prevIdx].  The three conjuncts of the guard are
    evaluated left to right, as [&&] does. *)
Definition alignCandidate (conflicts : Conflicts) (v : string) (ws : list string)
    (prevIdx : Z) (i : nat) : M Z :=
  let* vLab := getNode v in
  if bool_decide (align vLab = Some v) then
    match ws !! i with
    | None => throw TypeError
    | Some w =>
        let* wLab := getNode w in
        if (prevIdx <? order wLab) && negb (hasType1Conflict conflicts v w) then
          let* before := getLabels in
          emit (EvMerge v w prevIdx before) ;;
          modifyNode w (set_align (Some v)) ;;
          modifyNode v (fun l => set_align (root wLab) (set_root (root wLab) l)) ;;
          ret (order wLab)
        else ret prevIdx
    end
  else ret prevIdx.

(** The body of [_.each(layer, function(v) ...)]. *)
Definition alignNode (conflicts : Conflicts) (neighborFn : string -> list string)
    (prevIdx : Z) (v : string) : M Z :=
  let ws := neighborFn v in
  if (0 <? length ws)%nat then
    foldM (alignCandidate conflicts v ws) prevIdx (medianIndices (length ws))
  else ret prevIdx.

Definition alignLayer (conflicts : Conflicts) (neighborFn : string -> list string)
    (layer : list string) : M unit :=
  foldM (alignNode conflicts neighborFn) (-1) layer ;; ret tt.

Definition verticalAlignment (g : Graph) (layering : list (list string))
    (conflicts : Conflicts) (neighborFn : string -> list string) : M unit :=
  initBlocks g ;;
  forEach layering (alignLayer conflicts neighborFn).

(** ** Horizontal compaction *)

Local Open Scope Q_scope.

(** The options object: keys to numbers. *)
Abbreviation Options := (gmap string Q).

(** [_.defaults(options, { nodesep: 50, edgesep: 10 })]: a key of the
    second object is copied when the first does not have it. *)
Definition defaultOptions : Options :=
  <["nodesep" := 50]> (<["edgesep" := 10]> ∅).
Definition defaults (options : Options) : Options := options ∪ defaultOptions.

(** A value of the [shift] table. *)
Inductive Shift :=
| Finite (q : Q)
| PosInf.

(** The two local tables of [horizontalCompaction]. *)
Record Tables := mkTables {
  shift : gmap string Shift;
  sink : gmap string string
}.

(** [options.key] used as a number. *)
Definition optionNum (options : Options) (key : string) : M Q :=
  match options !! key with
  | Some q => ret q
  | None => throw NotANumber
  end.

Definition sep (options : Options) (v u : string) : M Q :=
  let* vLabel := getNode v in
  let* uLabel := getNode u in
  let* nodesep := optionNum options "nodesep" in
  let* edgesep := optionNum options "edgesep" in
  let nodeSep := nodesep / 2 in
  let edgeSep := edgesep / 2 in
  ret (width uLabel / 2 +
       (if dummy uLabel then edgeSep else nodeSep) +
       (if dummy vLabel then edgeSep else nodeSep) +
       width vLabel / 2).

Definition getX (v : string) : M (option Q) :=
  let* l := getNode v in ret (x l).

(** [x(g, v)] where the source goes on to compute with it. *)
Definition getXNum (v : string) : M Q :=
  let* l := getNode v in
  match x l with
  | Some q => ret q
  | None => throw NotANumber
  end.

Definition pos (v : string) : M Z :=
  let* l := getNode v in ret (order l).

(** [root(g, v)] and [align(g, v)]; the result is at once used as a node
    id, so [undefined] ends in a [TypeError]. *)
Definition getRoot (v : string) : M string :=
  let* l := getNode v in
  match root l with
  | Some r => ret r
  | None => throw TypeError
  end.

Definition getAlign (v : string) : M (option string) :=
  let* l := getNode v in ret (align l).

(** [pred(g, layering, v)]; an index outside the array gives [undefined],
    whose use as an array or as a node id is a [TypeError]. *)
Definition pred (layering : list (list string)) (v : string) : M string :=
  let* vLabel := getNode v in
  if (rank vLabel <? 0)%Z || (order vLabel - 1 <? 0)%Z then throw TypeError
  else
    match layering !! Z.to_nat (rank vLabel) with
    | None => throw TypeError
    | Some layer =>
        match layer !! Z.to_nat (order vLabel - 1) with
        | None => throw TypeError
        | Some u => ret u
        end
    end.

(** [Math.min(s, q)] for a value [s] of the shift table. *)
Definition minShift (s : Shift) (q : Q) : Shift :=
  match s with
  | Finite a => Finite (Qmin a q)
  | PosInf => Finite q
  end.

(** [sink[v] = sink[u]] *)
Definition copySink (sink : gmap string string) (v u : string) : gmap string string :=
  match sink !! u with
  | Some s => <[v := s]> sink
  | None => delete v sink
  end.

(** [placeBlock] and the do-while loop inside it ([walkBlock], with [w] the
    loop variable).  Every call and every iteration uses one unit of fuel. *)
Fixpoint placeBlock (fuel : nat) (layering : list (list string)) (options : Options)
    (tb : Tables) (v : string) : M Tables :=
  match fuel with
  | O => throw OutOfFuel
  | S fuel' =>
      let* vLabel := getNode v in
      match x vLabel with
      | Some _ => ret tb
      | None =>
          modifyNode v (set_x (Some 0)) ;;
          walkBlock fuel' layering options tb v v
      end
  end
with walkBlock (fuel : nat) (layering : list (list string)) (options : Options)
    (tb : Tables) (v w : string) : M Tables :=
  match fuel with
  | O => throw OutOfFuel
  | S fuel' =>
      let* p := pos w in
      let* tb' :=
        (if (0 <? p)%Z then
           let* pw := pred layering w in
           let* u := getRoot pw in
           let* tb1 := placeBlock fuel' layering options tb u in
           let sink1 :=
             if bool_decide (sink tb1 !! v = Some v)
             then copySink (sink tb1) v u else sink tb1 in
           let* delta := sep options w u in
           let* xv := getXNum v in
           let* xu := getXNum u in
           if bool_decide (sink1 !! v <> sink1 !! u) then
             match sink1 !! u with
             | None => throw NotANumber
             | Some su =>
                 match shift tb1 !! su with
                 | None => throw NotANumber
                 | Some s =>
                     ret (mkTables (<[su := minShift s (xv - xu - delta)]> (shift tb1)) sink1)
                 end
             end
           else
             modifyNode v (set_x (Some (Qmax xv (xu + delta)))) ;;
             ret (mkTables (shift tb1) sink1)
         else ret tb) in
      let* w' := getAlign w in
      if bool_decide (w' = Some v) then ret tb'
      else
        match w' with
        | Some w'' => walkBlock fuel' layering options tb' v w''
        | None => throw TypeError
        end
  end.

(** The first loop of [horizontalCompaction]. *)
Definition initTables (g : Graph) : Tables :=
  foldl (fun tb v => mkTables (<[v := PosInf]> (shift tb)) (<[v := v]> (sink tb)))
        (mkTables ∅ ∅) (nodeIds g).

(** The second loop: place every block, starting at its root. *)
Definition placeBlocks (fuel : nat) (g : Graph) (layering : list (list string))
    (options : Options) (tb : Tables) : M Tables :=
  foldM (fun tb v =>
           let* label := getNode v in
           if bool_decide (root label = Some v)
           then placeBlock fuel layering options tb v
           else ret tb)
        tb (nodeIds g).

(** The body of the third loop. *)
Definition assignX (tb : Tables) (v : string) : M unit :=
  let* r := getRoot v in
  let* xr := getX r in
  modifyNode v (set_x xr) ;;
  match sink tb !! r with
  | None => ret tt
  | Some s =>
      match shift tb !! s with
      | Some (Finite d) =>
          let* xv := getXNum v in
          modifyNode v (set_x (Some (xv + d)))
      | _ => ret tt
      end
  end.

(** [horizontalCompaction]; [options] is [None] when the caller passes no
    object.  The result is the caller's options object as the call leaves
    it ([_.defaults] writes into it). *)
Definition horizontalCompaction (fuel : nat) (g : Graph) (layering : list (list string))
    (options : option Options) : M (option Options) :=
  let options' := defaults (default ∅ options) in
  let tb := initTables g in
  let* tb' := placeBlocks fuel g layering options' tb in
  forEach (nodeIds g) (assignX tb') ;;
  ret (match options with
       | Some _ => Some options'
       | None => None
       end).

Local Close Scope Q_scope.

(** ** Replaying the merges of a trace *)

(** The two writes of a successful merge of [v] with its neighbour [w]:
    [wLab.align = v; vLab.align = vLab.root = wLab.root]. *)
Definition applyMerge (L : gmap string Label) (v w : string) : gmap string Label :=
  match L !! w with
  | Some wLab =>
      let L1 := <[w := set_align (Some v) wLab]> L in
      match L1 !! v with
      | Some vLab => <[v := set_align (root wLab) (set_root (root wLab) vLab)]> L1
      | None => L1
      end
  | None => L
  end.

(** [Replay L0 evs L]: [evs] is a sequence of merges, each logged with the
    labels it found, that leads from the labels [L0] to the labels [L]. *)
Inductive Replay (L0 : gmap string Label) : list Event -> gmap string Label -> Prop :=
| Replay_nil : Replay L0 [] L0
| Replay_snoc evs L v w prevIdx :
    Replay L0 evs L ->
    Replay L0 (evs ++ [EvMerge v w prevIdx L]) (applyMerge L v w).

(** What the guard of [verticalAlignment] has established when it merges. *)
Definition mergeEventOk (conflicts : Conflicts) (e : Event) : Prop :=
  match e with
  | EvMerge v w prevIdx before =>
      hasType1Conflict conflicts v w = false /\
      (exists vLab, before !! v = Some vLab /\ align vLab = Some v) /\
      (exists wLab, before !! w = Some wLab /\ prevIdx < order wLab)
  | EvConflict _ _ _ _ _ => False
  end.

(** ** Blocks *)

(** [align] followed [n] times from [v]. *)
Fixpoint alignIter (L : gmap string Label) (n : nat) (v : string) : option string :=
  match n with
  | O => Some v
  | S n' =>
      match L !! v with
      | Some l =>
          match align l with
          | Some a => alignIter L n' a
          | None => None
          end
      | None => None
      end
  end.

Definition rootOf (L : gmap string Label) (v : string) : option string :=
  match L !! v with
  | Some l => root l
  | None => None
  end.

Definition alignOf (L : gmap string Label) (v : string) : option string :=
  match L !! v with
  | Some l => align l
  | None => None
  end.

(** The members of [v]'s block: the nodes with the same [root] as [v]. *)
Definition blockMembers (g : Graph) (L : gmap string Label) (v : string) : list string :=
  filter (fun u => rootOf L u = rootOf L v) (nodeIds g).

(** The block of [v] is one cycle of [align]: [v] comes back to itself
    after exactly as many steps as the block has members and not before,
    the cycle stays among the nodes with [v]'s root [r], passes through
    every one of them, and [r] is its own root. *)
Definition blockCycle (g : Graph) (L : gmap string Label) (v : string) : Prop :=
  exists r,
    rootOf L v = Some r /\ rootOf L r = Some r /\
    let n := length (blockMembers g L v) in
    alignIter L n v = Some v /\
    (forall j, (0 < j < n)%nat -> alignIter L j v <> Some v) /\
    (forall j u, alignIter L j v = Some u -> rootOf L u = Some r) /\
    (exists j, (j < n)%nat /\ alignIter L j v = Some r) /\
    (forall u, u ∈ blockMembers g L v ->
               exists j, (j < n)%nat /\ alignIter L j v = Some u).

(** The nodes that take part in a logged merge. *)
Definition mergedNodes (evs : list Event) : list string :=
  flat_map (fun e => match e with
                     | EvMerge v w _ _ => [v; w]
                     | EvConflict _ _ _ _ _ => []
                     end) evs.

(** The layering is well formed for a neighbour function when the
    neighbours of every node lie in the layer that is scanned just before
    the node's own layer ([prev] for the first layer of [layers]). *)
Fixpoint neighborsOk (neighborFn : string -> list string) (prev : list string)
    (layers : list (list string)) : Prop :=
  match layers with
  | [] => True
  | layer :: rest =>
      Forall (fun v => Forall (fun w => w ∈ prev) (neighborFn v)) layer /\
      neighborsOk neighborFn layer rest
  end.

#[global] Instance neighborsOk_dec neighborFn prev layers :
  Decision (neighborsOk neighborFn prev layers).
Proof.
  revert prev. induction layers as [|layer rest IH]; intros prev; simpl; apply _.
Defined.

(** Blocks as lists: [B] maps every root to the members of its block, in
    the order of the [align] chain. *)
Record BlocksOk (B : gmap string (list string)) (L : gmap string Label) : Prop := {
  bo_head : forall r b, B !! r = Some b -> head b = Some r;
  bo_nodup : forall r b, B !! r = Some b -> NoDup b;
  bo_member : forall r b j u, B !! r = Some b -> b !! j = Some u ->
    exists l, L !! u = Some l /\ root l = Some r /\
              align l = b !! ((j + 1) mod length b)%nat;
  bo_cover : forall u l, L !! u = Some l ->
    exists r b, root l = Some r /\ B !! r = Some b /\ u ∈ b
}.

Definition singletonAt (L : gmap string Label) (n : string) : Prop :=
  exists l, L !! n = Some l /\ root l = Some n /\ align l = Some n.

(** [n] is the last node of its block's chain. *)
Definition tailAt (L : gmap string Label) (n : string) : Prop :=
  exists l, L !! n = Some l /\ align l = root l.

Definition passedAt (L : gmap string Label) (p : Z) (n : string) : Prop :=
  exists l, L !! n = Some l /\ (align l = root l \/ order l <= p).

(** ** Compaction: the separation formula and the cleared graph *)

(** The separation between a node with label [wLabel] and its left
    neighbour with label [uLabel], as the specification words it. *)
Definition sepFormula (nodesep edgesep : Q) (wLabel uLabel : Label) : Q :=
  (width uLabel / 2 +
   (if dummy uLabel then edgesep / 2 else nodesep / 2) +
   (if dummy wLabel then edgesep / 2 else nodesep / 2) +
   width wLabel / 2)%Q.

(** The labels with every [x] cleared. *)
Definition clearX (L : gmap string Label) : gmap string Label :=
  set_x None <$> L.

Definition xOf (L : gmap string Label) (v : string) : option Q :=
  match L !! v with
  | Some l => x l
  | None => None
  end.

(** The state a call leaves, without the value it returns. *)
Definition finalHeap {A} (r : Res (A * Heap)) : Res Heap :=
  match r with
  | Ok (_, h) => Ok h
  | Err e => Err e
  end.

(** ** Concrete graphs *)

Definition node (r o : Z) (d : bool) (w : Q) : Label :=
  mkLabel r o d w None None None.

(** Two layers [[p, q]] and [[a, d]] with the edges [q -> a] and [p -> d];
    [p] and [d] are dummy nodes, so [p -> d] is an inner segment, which the
    edge [q -> a] crosses. *)
Module Crossing.
Definition nodes : gmap string Label :=
  list_to_map [("p", node 0 0 true 0); ("q", node 0 1 false 40);
               ("a", node 1 0 false 40); ("d", node 1 1 true 0)].
Definition preds (v : string) : list string :=
  if String.eqb v "a" then ["q"]
  else if String.eqb v "d" then ["p"]
  else [].
Definition g : Graph := mkGraph ["p"; "q"; "a"; "d"] preds.
Definition layering : list (list string) := [["p"; "q"]; ["a"; "d"]].
Definition heap : Heap := mkHeap nodes [].
End Crossing.

(** Three layers [[t, v1]], [[s, v2]], [[s2, y]] with the edges [v1 -> v2],
    [s -> s2] and [s -> y]; no dummy nodes; [t] is 100 wide, the others have
    width 0. *)
Module Staircase.
Definition nodes : gmap string Label :=
  list_to_map [("t", node 0 0 false 100); ("v1", node 0 1 false 0);
               ("s", node 1 0 false 0); ("v2", node 1 1 false 0);
               ("s2", node 2 0 false 0); ("y", node 2 1 false 0)].
Definition preds (v : string) : list string :=
  if String.eqb v "v2" then ["v1"]
  else if String.eqb v "s2" then ["s"]
  else if String.eqb v "y" then ["s"]
  else [].
Definition g : Graph := mkGraph ["t"; "v1"; "s"; "v2"; "s2"; "y"] preds.
Definition layering : list (list string) :=
  [["t"; "v1"]; ["s"; "v2"]; ["s2"; "y"]].
Definition heap : Heap := mkHeap nodes [].
(** The labels after [verticalAlignment] with the predecessors as
    neighbours: the blocks are [t], [v1 - v2], [s - s2] and [y]. *)
Definition alignedNodes : gmap string Label :=
  list_to_map
    [("t", mkLabel 0 0 false 100 (Some "t") (Some "t") None);
     ("v1", mkLabel 0 1 false 0 (Some "v1") (Some "v2") None);
     ("s", mkLabel 1 0 false 0 (Some "s") (Some "s2") None);
     ("v2", mkLabel 1 1 false 0 (Some "v1") (Some "v1") None);
     ("s2", mkLabel 2 0 false 0 (Some "s") (Some "s") None);
     ("y", mkLabel 2 1 false 0 (Some "y") (Some "y") None)].
Definition aligned : Heap := mkHeap alignedNodes [].
(** A ranking of the blocks: [v1 - v2] and [y] have left neighbours in the
    blocks [t] and [s - s2]. *)
Definition rk (v : string) : nat :=
  if String.eqb v "v1" then 1%nat
  else if String.eqb v "y" then 1%nat
  else 0%nat.
End Staircase.

(** Three layers [[r, a1]], [[t, v1, a2]], [[s, v2]] with the edges
    [a1 -> a2] and [v1 -> v2]; no dummy nodes, every width 0.  The node
    order of the graph lists the lower node of each edge before the upper
    one. *)
Module Cascade.
Definition nodes : gmap string Label :=
  list_to_map [("r", node 0 0 false 0); ("a1", node 0 1 false 0);
               ("t", node 1 0 false 0); ("v1", node 1 1 false 0);
               ("a2", node 1 2 false 0);
               ("s", node 2 0 false 0); ("v2", node 2 1 false 0)].
Definition preds (v : string) : list string :=
  if String.eqb v "a2" then ["a1"]
  else if String.eqb v "v2" then ["v1"]
  else [].
Definition g : Graph := mkGraph ["a2"; "v2"; "r"; "a1"; "t"; "v1"; "s"] preds.
Definition layering : list (list string) :=
  [["r"; "a1"]; ["t"; "v1"; "a2"]; ["s"; "v2"]].
Definition heap : Heap := mkHeap nodes [].
(** The labels after [verticalAlignment] with the predecessors as
    neighbours: the blocks are [r], [a1 - a2], [t], [v1 - v2] and [s]. *)
Definition alignedNodes : gmap string Label :=
  list_to_map
    [("r", mkLabel 0 0 false 0 (Some "r") (Some "r") None);
     ("a1", mkLabel 0 1 false 0 (Some "a1") (Some "a2") None);
     ("t", mkLabel 1 0 false 0 (Some "t") (Some "t") None);
     ("v1", mkLabel 1 1 false 0 (Some "v1") (Some "v2") None);
     ("a2", mkLabel 1 2 false 0 (Some "a1") (Some "a1") None);
     ("s", mkLabel 2 0 false 0 (Some "s") (Some "s") None);
     ("v2", mkLabel 2 1 false 0 (Some "v1") (Some "v1") None)].
Definition aligned : Heap := mkHeap alignedNodes [].
(** A ranking of the blocks: a block is ranked above the blocks of the left
    neighbours of its nodes. *)
Definition rk (v : string) : nat :=
  if String.eqb v "a1" then 2%nat
  else if String.eqb v "v1" then 1%nat
  else 0%nat.
End Cascade.

(** ** Compaction: what is claimed about the coordinates *)

(** The left neighbour of a node with label [l] in its layer:
    [layering[rank][order - 1]]. *)
Definition predOf (layering : list (list string)) (l : Label) : option string :=
  if (rank l <? 0) || (order l - 1 <? 0) then None
  else
    match layering !! Z.to_nat (rank l) with
    | Some layer => layer !! Z.to_nat (order l - 1)
    | None => None
    end.

(** The value of [sep(g, options, v, u)]. *)
Definition sepOf (options : Options) (L : gmap string Label) (v u : string) : option Q :=
  match L !! v, L !! u, options !! "nodesep", options !! "edgesep" with
  | Some vLabel, Some uLabel, Some nodesep, Some edgesep =>
      Some (sepFormula nodesep edgesep vLabel uLabel)
  | _, _, _, _ => None
  end.

(** Valid blocks: the block of every node is a cycle of [align]. *)
Definition validBlocks (g : Graph) (L : gmap string Label) : Prop :=
  forall v, v ∈ nodeIds g -> blockCycle g L v.

(** The blocks can be ranked so that the block of a node is ranked above
    the block of its left neighbour: no block is, through a chain of left
    neighbours, to the left of itself. *)
Definition blocksRanked (rk : string -> nat) (layering : list (list string))
    (L : gmap string Label) : Prop :=
  map_Forall (fun _ wl =>
    0 < order wl ->
    match predOf layering wl with
    | Some p =>
        match rootOf L p, root wl with
        | Some u, Some v => (rk u < rk v)%nat
        | _, _ => True
        end
    | None => True
    end) L.

(** Every node is at least the separation to the right of its left
    neighbour. *)
Definition separated (layering : list (list string)) (options : Options)
    (L : gmap string Label) : Prop :=
  forall w wl u, L !! w = Some wl -> 0 < order wl ->
    predOf layering wl = Some u ->
    exists xw xu d, xOf L w = Some xw /\ xOf L u = Some xu /\
                    sepOf options L w u = Some d /\ (xu + d <= xw)%Q.

(** Separation after the whole of [horizontalCompaction], for valid
    blocks, whether the two blocks have the same sink or not. *)
Definition compactionSeparates_claim : Prop :=
  forall fuel g layering (options : option Options) h r h',
    dom (labels h) = list_to_set (nodeIds g) ->
    map_Forall (fun _ l => x l = None) (labels h) ->
    validBlocks g (labels h) ->
    horizontalCompaction fuel g layering options h = Ok (r, h') ->
    separated layering (defaults (default ∅ options)) (labels h').

(** ** Vocabulary of the placement invariant *)

(** [L] differs from [L0] in [x] fields only. *)
Definition sameStatic (L0 L : gmap string Label) : Prop :=
  clearX L = clearX L0.

(** [w] is reached from [v] by following [align]. *)
Definition onWalk (L0 : gmap string Label) (v w : string) : Prop :=
  exists j, alignIter L0 j v = Some w.

(** How the set [C] of completely placed blocks and the state evolve
    during a call: [C] grows, the roots that join it were not placed
    before (but for the root [v] being walked, if any), a root that is
    placed afterwards was placed before or has joined [C], and the [x] and
    [sink] of the other roots are as before. *)
Definition grows (v : option string)
    (C : gset string) (tb : Tables) (L : gmap string Label)
    (C' : gset string) (tb' : Tables) (L' : gmap string Label) : Prop :=
  C ⊆ C' /\
  (forall r, r ∈ C' -> r ∉ C -> Some r = v \/ xOf L r = None) /\
  (forall r, is_Some (xOf L' r) -> is_Some (xOf L r) \/ r ∈ C') /\
  (forall r, Some r <> v -> r ∈ C \/ r ∉ C' ->
             xOf L' r = xOf L r /\ sink tb' !! r = sink tb !! r).

(** The [sink] of a root that is not placed yet is the root itself. *)
Definition sinkFresh (tb : Tables) (L : gmap string Label) : Prop :=
  forall r s, xOf L r = None -> sink tb !! r = Some s -> s = r.

Section PlacementVocabulary.
Variable layering : list (list string).
Variable options : Options.
Variable L0 : gmap string Label.
Variable rk : string -> nat.

(** The constraint that the node [w] of the block with root [v] puts on
    the block: the block [u] of [w]'s left neighbour is completely placed,
    and when both have the same sink, [v] is at least the separation to the
    right of [u]. *)
Definition constr (C : gset string) (tb : Tables) (L : gmap string Label)
    (v w : string) : Prop :=
  forall wl p u, L0 !! w = Some wl -> 0 < order wl ->
    predOf layering wl = Some p -> rootOf L0 p = Some u ->
    u ∈ C /\
    (sink tb !! v = sink tb !! u ->
     exists xv xu d, xOf L v = Some xv /\ xOf L u = Some xu /\
                     sepOf options L0 w u = Some d /\ (xu + d <= xv)%Q).

(** The blocks in [C] are completely placed. *)
Record PlacedInv (C : gset string) (tb : Tables) (L : gmap string Label) : Prop := {
  pi_x : forall r, r ∈ C -> is_Some (xOf L r);
  pi_done : forall r w, r ∈ C -> onWalk L0 r w -> constr C tb L r w;
  pi_sink : forall r s, r ∈ C -> sink tb !! r = Some s -> s ∈ C
}.

(** The state inside the do-while loop of [placeBlock(v)], after the nodes
    [Wd] of the block have been handled. *)
Record WalkState (v : string) (C : gset string) (tb : Tables)
    (L : gmap string Label) (Wd : list string) : Prop := {
  ws_static : sameStatic L0 L;
  ws_inv : PlacedInv C tb L;
  ws_notin : v ∉ C;
  ws_placed : is_Some (xOf L v);
  ws_low : forall r, is_Some (xOf L r) -> r ∈ C \/ r = v \/ (rk v < rk r)%nat;
  ws_fresh : sinkFresh tb L;
  ws_constr : forall w, w ∈ Wd -> constr C tb L v w;
  ws_sink :
    (sink tb !! v = Some v /\
     forall w wl, w ∈ Wd -> L0 !! w = Some wl -> order wl <= 0) \/
    (forall s, sink tb !! v = Some s -> s ∈ C)
}.
(** What a sound [placeBlock] does: called on a root [v] whose placed
    blocks are all complete or ranked above [v], it leaves [v] completely
    placed. *)
Definition placesSoundly (place : Tables -> string -> M Tables) : Prop :=
  forall tb v h tb' h' C,
    sameStatic L0 (labels h) -> PlacedInv C tb (labels h) ->
    sinkFresh tb (labels h) -> rootOf L0 v = Some v ->
    (forall r, is_Some (xOf (labels h) r) -> r ∈ C \/ (rk v < rk r)%nat) ->
    place tb v h = Ok (tb', h') ->
    exists C', grows None C tb (labels h) C' tb' (labels h') /\ v ∈ C' /\
               PlacedInv C' tb' (labels h') /\ sameStatic L0 (labels h').

(** What a sound do-while loop does, entered at the node [w] of the block
    of [v] after the nodes [Wd]. *)
Definition walksSoundly (walk : Tables -> string -> string -> M Tables) : Prop :=
  forall tb v w h tb' h' C Wd,
    WalkState v C tb (labels h) Wd -> rootOf L0 v = Some v -> onWalk L0 v w ->
    (forall w', w' ∈ Wd -> exists a, alignOf L0 w' = Some a /\ (a ∈ Wd \/ a = w)) ->
    (v ∈ Wd \/ v = w) ->
    walk tb v w h = Ok (tb', h') ->
    exists C', grows (Some v) C tb (labels h) C' tb' (labels h') /\ v ∈ C' /\
               PlacedInv C' tb' (labels h') /\ sameStatic L0 (labels h').
End PlacementVocabulary.

(** ** Vocabulary of the proofs *)

(** Partial correctness: when [m] returns from a state satisfying [P], the
    result and the final state satisfy [Q]. *)
Definition hoare {A} (P : Heap -> Prop) (m : M A) (Q : A -> Heap -> Prop) : Prop :=
  forall h a h', P h -> m h = Ok (a, h') -> Q a h'.

(** The calls [addType1Conflict(conflicts, u, scanNode)] in a trace. *)
Definition conflictCalls (evs : list Event) : list (string * string) :=
  omap (fun e => match e with
                 | EvConflict u s _ _ _ => Some (u, s)
                 | EvMerge _ _ _ _ => None
                 end) evs.

(** What the guard of the innermost loop has established when a conflict
    is recorded, in terms of the labels [L]. *)
Definition conflictEventOk (g : Graph) (L : gmap string Label) (e : Event) : Prop :=
  match e with
  | EvConflict u scanNode uPos k0 k1 =>
      u ∈ predecessors g scanNode /\
      exists uLabel, L !! u = Some uLabel /\ order uLabel = uPos /\
        (uPos < k0 \/ k1 < uPos) /\
        (dummy uLabel = true ->
         exists sLabel, L !! scanNode = Some sLabel /\ dummy sLabel = false)
  | EvMerge _ _ _ _ => False
  end.

(** The loop invariant of conflict detection: the labels are the initial
    ones, and the conflict object is the initial one extended by the calls
    logged so far, all of which satisfy the guard. *)
Definition scanInv (g : Graph) (h0 : Heap) (c0 : Conflicts) (c : Conflicts) (h : Heap) : Prop :=
  labels h = labels h0 /\
  exists evs, trace h = trace h0 ++ evs /\
    Forall (conflictEventOk g (labels h0)) evs /\
    c = foldl (fun c p => addType1Conflict c p.1 p.2) c0 (conflictCalls evs).

(** A computation that only reads. *)
Definition readOnly {A} (m : M A) : Prop :=
  forall h a h', m h = Ok (a, h') -> h' = h.


Definition alignInv (conflicts : Conflicts) (h0 : Heap) (h : Heap) : Prop :=
  exists evs, trace h = trace h0 ++ evs /\
    Forall (mergeEventOk conflicts) evs /\
    Replay (labels h0) evs (labels h).

(** The labels after the two writes of a merge. *)
Definition mergedLabels (L : gmap string Label) (v w : string) (vl wl : Label)
    : gmap string Label :=
  <[v := set_align (root wl) (set_root (root wl) vl)]>
    (<[w := set_align (Some v) wl]> L).

(** Total correctness: from a state satisfying [P] the computation returns,
    with [Q]. *)
Definition total {A} (P : Heap -> Prop) (m : M A) (Q : A -> Heap -> Prop) : Prop :=
  forall h, P h -> exists a h', m h = Ok (a, h') /\ Q a h'.

(** The state of the scan inside a layer: [prev] is the previous layer,
    [seen] the nodes of the current layer already visited, [rest] the nodes
    still to visit (in this layer and in the later ones), [p] the value of
    [prevIdx], [D] the set of node ids. *)
Record LayerInv (D : gset string) (prev seen rest : list string) (p : Z)
    (L : gmap string Label) : Prop := {
  li_blocks : exists B, BlocksOk B L;
  li_rest : forall n, n ∈ rest -> singletonAt L n;
  li_done : forall n, n ∈ seen -> tailAt L n;
  li_prev : forall n, n ∈ prev -> passedAt L p n;
  li_dom : dom L = D
}.

(** The node [v] being visited: not merged yet, or merged and last of its
    chain. *)
Definition visiting (L : gmap string Label) (v : string) : Prop :=
  singletonAt L v \/ (tailAt L v /\ alignOf L v <> Some v).

(** A computation that leaves the trace and every field but [x] alone. *)
Definition xOnly {A} (m : M A) : Prop :=
  forall h a h', m h = Ok (a, h') ->
    clearX (labels h') = clearX (labels h) /\ trace h' = trace h.

(** ** Vocabulary of the further properties *)

(** [u] is a labelled node that is not a dummy node. *)
Definition notDummyAt (L : gmap string Label) (u : string) : Prop :=
  exists l, L !! u = Some l /\ dummy l = false.

(** The first dummy node of a list of labelled nodes: [r] is [Some u] when
    [u] is the first node of [us] that is a dummy node, and [None] when no
    node of [us] is one. *)
Definition firstDummy (L : gmap string Label) (us : list string)
    (r : option string) : Prop :=
  match r with
  | Some u =>
      exists pre post ul, us = pre ++ u :: post /\
        Forall (notDummyAt L) pre /\ L !! u = Some ul /\ dummy ul = true
  | None => Forall (notDummyAt L) us
  end.

(** The nodes of [layer] and their predecessors have labels. *)
Definition scanReady (g : Graph) (L : gmap string Label) (layer : list string) : Prop :=
  Forall (fun v => is_Some (L !! v) /\
                   Forall (fun u => is_Some (L !! u)) (predecessors g v)) layer.

(** The order of [u], when [u] has a label, is an index into a layer of
    length [n]. *)
Definition orderWithin (L : gmap string Label) (n : nat) (u : string) : Prop :=
  match L !! u with
  | Some ul => 0 <= order ul < Z.of_nat n
  | None => True
  end.

#[global] Instance orderWithin_dec L n u : Decision (orderWithin L n u).
Proof. unfold orderWithin. destruct (L !! u); apply _. Defined.

(** The predecessors of the nodes of every layer of [layers] have their
    order inside the layer before it ([prev] for the first one). *)
Fixpoint predsIndexed (g : Graph) (L : gmap string Label) (prev : list string)
    (layers : list (list string)) : Prop :=
  match layers with
  | [] => True
  | layer :: rest =>
      Forall (fun v => Forall (orderWithin L (length prev)) (predecessors g v)) layer /\
      predsIndexed g L layer rest
  end.

#[global] Instance predsIndexed_dec g L prev layers :
  Decision (predsIndexed g L prev layers).
Proof.
  revert prev. induction layers as [|layer rest IH]; intros prev; simpl; apply _.
Defined.

(** The labels with every [root] and [align] cleared. *)
Definition clearBlocks (L : gmap string Label) : gmap string Label :=
  (fun l => set_root None (set_align None l)) <$> L.

(** A computation that leaves every field but [root] and [align] alone. *)
Definition blocksOnly {A} (m : M A) : Prop :=
  forall h a h', m h = Ok (a, h') -> clearBlocks (labels h') = clearBlocks (labels h).

(** A logged merge joins [v] with the neighbour at one of the two median
    positions of [neighborFn(v)]. *)
Definition medianMerge (neighborFn : string -> list string) (e : Event) : Prop :=
  match e with
  | EvMerge v w _ _ =>
      let ws := neighborFn v in
      ws !! ((length ws - 1) / 2)%nat = Some w \/ ws !! (length ws / 2)%nat = Some w
  | EvConflict _ _ _ _ _ => False
  end.

Definition medianInv (neighborFn : string -> list string) (h0 h : Heap) : Prop :=
  exists evs, trace h = trace h0 ++ evs /\ Forall (medianMerge neighborFn) evs.

(** The labels after the first loop of [verticalAlignment], when every id
    of [ids] has a label. *)
Definition resetBlocks (ids : list string) (L : gmap string Label)
    : gmap string Label :=
  foldl (fun L v =>
           match L !! v with
           | Some l => <[v := set_align (Some v) (set_root (Some v) l)]> L
           | None => L
           end) L ids.

(** A computation that never takes a defined [x] away. *)
Definition xGrows {A} (m : M A) : Prop :=
  forall h a h', m h = Ok (a, h') ->
    forall n, is_Some (xOf (labels h) n) -> is_Some (xOf (labels h') n).

(** The root of every node of the graph is a node of the graph that is its
    own root. *)
Definition rootsInGraph (g : Graph) (L : gmap string Label) : Prop :=
  forall v, v ∈ nodeIds g ->
    exists r, rootOf L v = Some r /\ r ∈ nodeIds g /\ rootOf L r = Some r.

(** The state of the last loop of [horizontalCompaction]: the roots are
    those of [L0], and the nodes of the graph that are their own root have
    an [x]. *)
Definition rootsPlaced (g : Graph) (L0 : gmap string Label) (h : Heap) : Prop :=
  (forall n, rootOf (labels h) n = rootOf L0 n) /\
  (forall r, r ∈ nodeIds g -> rootOf L0 r = Some r -> is_Some (xOf (labels h) r)).

(** The state of the last loop of [horizontalCompaction] when no block was
    placed: the roots are those of [L0], and a node that is its own root
    has the [x] it had in [L0]. *)
Definition rootsKept (L0 : gmap string Label) (h : Heap) : Prop :=
  (forall n, rootOf (labels h) n = rootOf L0 n) /\
  (forall r, rootOf L0 r = Some r -> xOf (labels h) r = xOf L0 r).

(** No entry of the [shift] table is a finite number. *)
Definition noShift (tb : Tables) : Prop :=
  forall s d, shift tb !! s <> Some (Finite d).

(** * Properties *)

(** *** Facts about the order on ids *)

Lemma id_gt_irrefl v : id_gt v v = false.
Proof.
  unfold id_gt, String.ltb.
  pose proof (String.compare_antisym v v) as H.
  by destruct (String.compare v v).
Qed.

Lemma id_gt_asym v w : id_gt v w = true -> id_gt w v = false.
Proof.
  unfold id_gt, String.ltb. rewrite (String.compare_antisym v w).
  by destruct (String.compare w v).
Qed.

Lemma id_gt_total v w : id_gt v w = false -> id_gt w v = false -> v = w.
Proof.
  unfold id_gt, String.ltb. rewrite (String.compare_antisym v w).
  destruct (String.compare w v) eqn:E; try done.
  intros _ _. symmetry. by apply String.compare_eq_iff.
Qed.

Lemma canon_sym v w : canon v w = canon w v.
Proof.
  unfold canon. destruct (id_gt v w) eqn:E1.
  - by rewrite (id_gt_asym _ _ E1).
  - destruct (id_gt w v) eqn:E2; [done|].
    by rewrite (id_gt_total _ _ E1 E2).
Qed.

Lemma hasType1Conflict_canon c v w :
  hasType1Conflict c v w =
  match c !! (canon v w).1 with
  | Some s => bool_decide ((canon v w).2 ∈ s)
  | None => false
  end.
Proof. unfold hasType1Conflict, canon. by destruct (id_gt v w). Qed.

Lemma addType1Conflict_canon c v w :
  addType1Conflict c v w =
  <[(canon v w).1 := {[(canon v w).2]} ∪ default ∅ (c !! (canon v w).1)]> c.
Proof. unfold addType1Conflict, canon. by destruct (id_gt v w). Qed.

(** ** C4 *)

(** C4: for every conflict set built by a sequence of [addType1Conflict]
    calls and every pair of ids, the lookup gives the same answer for
    [(v, w)] and for [(w, v)]. *)
Theorem C4_conflict_lookup_symmetric (calls : list (string * string)) (v w : string) :
  hasType1Conflict (buildConflicts calls) v w =
  hasType1Conflict (buildConflicts calls) w v.
Proof.
  rewrite !hasType1Conflict_canon. by rewrite (canon_sym v w).
Qed.

(** ** Reasoning about the monad *)

Lemma bind_Ok {A B} (m : M A) (f : A -> M B) h b h' :
  bind m f h = Ok (b, h') ->
  exists a h1, m h = Ok (a, h1) /\ f a h1 = Ok (b, h').
Proof.
  unfold bind. destruct (m h) as [[a h1]|e]; [|done]. eauto.
Qed.

Lemma bind_eq {A B} (m : M A) (f : A -> M B) h a h1 :
  m h = Ok (a, h1) -> bind m f h = f a h1.
Proof. unfold bind. by intros ->. Qed.

Lemma hoare_ret {A} (P : Heap -> Prop) (a : A) (Q : A -> Heap -> Prop) :
  (forall h, P h -> Q a h) -> hoare P (ret a) Q.
Proof. intros H h a' h' HP [= <- <-]. auto. Qed.

Lemma hoare_bind {A B} (P : Heap -> Prop) (m : M A) (R : A -> Heap -> Prop)
    (f : A -> M B) (Q : B -> Heap -> Prop) :
  hoare P m R -> (forall a, hoare (R a) (f a) Q) -> hoare P (bind m f) Q.
Proof.
  intros Hm Hf h b h' HP Hb.
  apply bind_Ok in Hb as (a & h1 & H1 & H2).
  eapply Hf; [|done]. by eapply Hm.
Qed.

Lemma hoare_conseq {A} (P P' : Heap -> Prop) (m : M A) (Q Q' : A -> Heap -> Prop) :
  hoare P' m Q' -> (forall h, P h -> P' h) -> (forall a h, Q' a h -> Q a h) ->
  hoare P m Q.
Proof. intros H HP HQ h a h' Hh Hm. eapply HQ, H; eauto. Qed.

Lemma hoare_throw {A} (P : Heap -> Prop) e (Q : A -> Heap -> Prop) :
  hoare P (throw e) Q.
Proof. by intros h a h' _. Qed.

Lemma hoare_getNode (P : Heap -> Prop) v :
  hoare P (getNode v) (fun l h => P h /\ labels h !! v = Some l).
Proof.
  intros h l h' HP. unfold getNode.
  destruct (labels h !! v) eqn:E; [|done]. by intros [= <- <-].
Qed.

Lemma hoare_foldM {A S} (I : S -> Heap -> Prop) (f : S -> A -> M S) (xs : list A) :
  (forall s a, a ∈ xs -> hoare (I s) (f s a) I) ->
  forall s, hoare (I s) (foldM f s xs) I.
Proof.
  induction xs as [|a xs IH]; intros Hf s; simpl.
  - by apply hoare_ret.
  - eapply hoare_bind.
    + apply Hf. by left.
    + intros s'. apply IH. intros s'' a' Hin. apply Hf. by right.
Qed.

Lemma hoare_findM {A} (P : Heap -> Prop) (p : A -> M bool) (xs : list A) :
  (forall a, hoare P (p a) (fun _ => P)) ->
  hoare P (findM p xs) (fun _ => P).
Proof.
  intros Hp. induction xs as [|a xs IH]; simpl.
  - by apply hoare_ret.
  - eapply hoare_bind; [apply Hp|].
    intros [|]; [by apply hoare_ret | apply IH].
Qed.

Lemma foldM_app {A S} (f : S -> A -> M S) (s : S) (xs ys : list A) h :
  foldM f s (xs ++ ys) h = bind (foldM f s xs) (fun s' => foldM f s' ys) h.
Proof.
  revert s h. induction xs as [|a xs IH]; intros s h; simpl.
  - reflexivity.
  - unfold bind in *. destruct (f s a h) as [[s' h1]|e]; [|reflexivity].
    apply IH.
Qed.

(** ** Conflict detection reads the labels and never writes them *)

Lemma scanInv_refl g h0 c0 : scanInv g h0 c0 c0 h0.
Proof.
  split; [done|]. exists []. by rewrite app_nil_r.
Qed.

Lemma conflictCalls_app evs1 evs2 :
  conflictCalls (evs1 ++ evs2) = conflictCalls evs1 ++ conflictCalls evs2.
Proof. apply omap_app. Qed.

Lemma scanPredecessor_inv g h0 c0 k0 k1 scanNode c u :
  u ∈ predecessors g scanNode ->
  hoare (scanInv g h0 c0 c) (scanPredecessor k0 k1 scanNode c u) (scanInv g h0 c0).
Proof.
  intros Hu h c' h' HI. unfold scanPredecessor. intros H.
  apply bind_Ok in H as (uLabel & h1 & Hget & H).
  unfold getNode in Hget. destruct (labels h !! u) as [l|] eqn:Eu; [|done].
  injection Hget as <- <-.
  destruct ((order l <? k0) || (k1 <? order l)) eqn:Ewin;
    [|by injection H as <- <-].
  apply bind_Ok in H as (inner & h2 & Hinner & H).
  assert (h2 = h /\ (inner = false ->
            dummy l = true ->
            exists sLabel, labels h !! scanNode = Some sLabel /\ dummy sLabel = false))
    as [-> Hdummy].
  { destruct (dummy l) eqn:Ed.
    - apply bind_Ok in Hinner as (sl & h3 & Hget & Hr).
      unfold getNode in Hget. destruct (labels h !! scanNode) as [sl'|] eqn:Es; [|done].
      injection Hget as <- <-. injection Hr as <- <-.
      split; [done|]. intros Hi _. eauto.
    - injection Hinner as <- <-. split; [done|]. done. }
  destruct inner; [by injection H as <- <-|].
  injection H as <- <-. destruct HI as (HL & evs & Htr & Hok & Hc).
  split; [done|]. exists (evs ++ [EvConflict u scanNode (order l) k0 k1]).
  simpl. split; [by rewrite Htr, app_assoc|]. split.
  - apply Forall_app. split; [done|]. constructor; [|done].
    simpl. split; [done|]. exists l. rewrite <- HL. split; [done|].
    split; [done|]. split; [|by auto].
    apply orb_true_iff in Ewin. lia.
  - rewrite conflictCalls_app, foldl_app. simpl. by rewrite <- Hc.
Qed.

Lemma scanNodes_inv g h0 c0 k0 k1 c nodes :
  hoare (scanInv g h0 c0 c) (scanNodes g k0 k1 c nodes) (scanInv g h0 c0).
Proof.
  unfold scanNodes. apply (hoare_foldM (scanInv g h0 c0)).
  intros c1 scanNode _.
  apply (hoare_foldM (scanInv g h0 c0)).
  intros c2 u Hu. by apply scanPredecessor_inv.
Qed.

Lemma readOnly_getNode v : readOnly (getNode v).
Proof.
  intros h a h'. unfold getNode. destruct (labels h !! v); [|done].
  by intros [= _ <-].
Qed.

Lemma readOnly_ret {A} (a : A) : readOnly (ret a).
Proof. by intros h a' h' [= _ <-]. Qed.

Lemma readOnly_bind {A B} (m : M A) (f : A -> M B) :
  readOnly m -> (forall a, readOnly (f a)) -> readOnly (bind m f).
Proof.
  intros Hm Hf h b h' H. apply bind_Ok in H as (a & h1 & H1 & H2).
  apply Hm in H1 as ->. by apply Hf in H2.
Qed.

Lemma readOnly_findM {A} (p : A -> M bool) xs :
  (forall a, readOnly (p a)) -> readOnly (findM p xs).
Proof.
  intros Hp. induction xs as [|a xs IH]; simpl; [apply readOnly_ret|].
  apply readOnly_bind; [done|]. intros [|]; [apply readOnly_ret | done].
Qed.

Lemma readOnly_findOtherInnerSegmentNode g v :
  readOnly (findOtherInnerSegmentNode g v).
Proof.
  unfold findOtherInnerSegmentNode.
  apply readOnly_bind; [apply readOnly_getNode|]. intros l.
  destruct (dummy l); [|apply readOnly_ret].
  apply readOnly_findM. intros u.
  apply readOnly_bind; [apply readOnly_getNode|]. intros; apply readOnly_ret.
Qed.

Lemma readOnly_windowEnd n w : readOnly (windowEnd n w).
Proof.
  unfold windowEnd. destruct (truthy w); [|apply readOnly_ret].
  apply readOnly_bind; [apply readOnly_getNode|]. intros; apply readOnly_ret.
Qed.

Lemma hoare_readOnly {A} (P : Heap -> Prop) (m : M A) :
  readOnly m -> hoare P m (fun _ => P).
Proof. intros Hm h a h' HP H. by apply Hm in H as ->. Qed.

Lemma visitNode_inv g h0 c0 n layer st iv :
  hoare (scanInv g h0 c0 (st_conflicts st)) (visitNode g n layer st iv)
        (fun st' => scanInv g h0 c0 (st_conflicts st')).
Proof.
  destruct iv as [i v]. unfold visitNode.
  eapply hoare_bind;
    [apply hoare_readOnly, readOnly_findOtherInnerSegmentNode|].
  intros w. eapply hoare_bind; [apply hoare_readOnly, readOnly_windowEnd|].
  intros k1. destruct (_ || _); [|by apply hoare_ret].
  eapply hoare_bind; [apply scanNodes_inv|].
  intros c. by apply hoare_ret.
Qed.

Lemma visitLayer_inv g h0 c0 c prevLayer layer :
  hoare (scanInv g h0 c0 c) (visitLayer g c prevLayer layer) (scanInv g h0 c0).
Proof.
  unfold visitLayer. eapply hoare_bind.
  - apply (hoare_foldM (fun st => scanInv g h0 c0 (st_conflicts st))
             _ _ (fun st iv _ => visitNode_inv g h0 c0 _ layer st iv)
             (mkScan 0 0%nat c)).
  - intros st. by apply hoare_ret.
Qed.

Lemma collectType1Conflicts_inv g layering h0 :
  hoare (fun h => h = h0) (collectType1Conflicts g layering) (scanInv g h0 ∅).
Proof.
  unfold collectType1Conflicts. destruct layering as [|first rest].
  - apply hoare_ret. intros h ->. apply scanInv_refl.
  - eapply hoare_bind.
    + eapply hoare_conseq;
        [apply (hoare_foldM (fun acc : list string * Conflicts => scanInv g h0 ∅ acc.2))
        | intros h ->; apply scanInv_refl
        | intros a h H; exact H].
      intros acc layer _. eapply hoare_bind; [apply visitLayer_inv|].
      intros c. by apply hoare_ret.
    + intros r. by apply hoare_ret.
Qed.

(** *** Lookups in a conflict set built by calls *)

Lemma canon_eq_cases a b u s :
  canon a b = canon u s -> (a = u /\ b = s) \/ (a = s /\ b = u).
Proof.
  unfold canon. destruct (id_gt a b), (id_gt u s); intros [= -> ->]; auto.
Qed.

Lemma hasType1Conflict_add c u s a b :
  hasType1Conflict (addType1Conflict c u s) a b = true ->
  hasType1Conflict c a b = true \/ canon a b = canon u s.
Proof.
  rewrite !hasType1Conflict_canon, addType1Conflict_canon.
  destruct (canon a b) as [a1 b1], (canon u s) as [u1 s1]; simpl.
  destruct (decide (u1 = a1)) as [->|Hne].
  - rewrite lookup_insert_eq. intros H%bool_decide_eq_true.
    apply elem_of_union in H as [H%elem_of_singleton|H]; [right; by subst|].
    left. destruct (c !! a1); simpl in *; [by apply bool_decide_eq_true|].
    by apply not_elem_of_empty in H.
  - rewrite lookup_insert_ne by done. auto.
Qed.

Lemma hasType1Conflict_foldl calls c0 a b :
  hasType1Conflict (foldl (fun c p => addType1Conflict c p.1 p.2) c0 calls) a b = true ->
  hasType1Conflict c0 a b = true \/
  exists p, p ∈ calls /\ canon a b = canon p.1 p.2.
Proof.
  revert c0. induction calls as [|p calls IH]; intros c0; simpl; [auto|].
  intros H. apply IH in H as [H|(q & Hq & Hc)].
  - apply hasType1Conflict_add in H as [H|H]; [auto|].
    right. exists p. split; [by left|done].
  - right. exists q. split; [by right|done].
Qed.

Lemma hasType1Conflict_empty a b : hasType1Conflict ∅ a b = false.
Proof. rewrite hasType1Conflict_canon. by rewrite lookup_empty. Qed.

Lemma elem_of_conflictCalls u s evs :
  (u, s) ∈ conflictCalls evs ->
  exists uPos k0 k1, EvConflict u s uPos k0 k1 ∈ evs.
Proof.
  unfold conflictCalls. intros H. apply list_elem_of_omap in H as (e & He & Hs).
  destruct e as [u' s' uPos k0 k1|]; [|done]. injection Hs as -> ->. eauto.
Qed.

(** ** C9 *)

(** C9: a call of [collectType1Conflicts] that returns leaves every label
    of the graph as it was: all the fields [rank], [order], [dummy], [width],
    [root], [align] and [x] of every node are unchanged. *)
Theorem C9_collectType1Conflicts_preserves_labels
    (g : Graph) (layering : list (list string)) (h h' : Heap) (c : Conflicts) :
  collectType1Conflicts g layering h = Ok (c, h') ->
  labels h' = labels h.
Proof.
  intros H.
  by destruct (collectType1Conflicts_inv g layering h h c h' eq_refl H) as [HL _].
Qed.

(** ** C5 *)

(** C5: the conflict set returned by [collectType1Conflicts] is the result
    of the logged [addType1Conflict(conflicts, u, scanNode)] calls; at each
    of them [u] is a predecessor of [scanNode] whose order lies strictly
    outside the window [[k0, k1]] then in force, and [u] and [scanNode] are
    not both dummy nodes.  Hence no pair of dummy nodes is in conflict in
    the returned set. *)
Theorem C5_no_inner_segment_conflict
    (g : Graph) (layering : list (list string)) (h h' : Heap) (c : Conflicts) :
  collectType1Conflicts g layering h = Ok (c, h') ->
  exists evs,
    trace h' = trace h ++ evs /\
    c = buildConflicts (conflictCalls evs) /\
    Forall (conflictEventOk g (labels h)) evs /\
    forall a b la lb,
      hasType1Conflict c a b = true ->
      labels h !! a = Some la -> labels h !! b = Some lb ->
      dummy la && dummy lb = false.
Proof.
  intros H.
  destruct (collectType1Conflicts_inv g layering h h c h' eq_refl H)
    as (_ & evs & Htr & Hok & ->).
  exists evs. repeat split; [done..|].
  intros a b la lb Hhas Ha Hb.
  apply hasType1Conflict_foldl in Hhas as [Hhas|([u s] & Hin & Hc)];
    [by rewrite hasType1Conflict_empty in Hhas|].
  apply elem_of_conflictCalls in Hin as (uPos & k0 & k1 & Hin).
  rewrite Forall_forall in Hok. apply Hok in Hin as (_ & ul & Hu & _ & _ & Hd).
  simpl in Hc. apply canon_eq_cases in Hc as [[-> ->]|[-> ->]].
  - assert (la = ul) as -> by congruence.
    destruct (dummy ul); [|done].
    destruct Hd as (sl & Hs & Hds); [done|].
    assert (lb = sl) as -> by congruence. by rewrite Hds.
  - assert (lb = ul) as -> by congruence.
    destruct (dummy ul); [|by rewrite andb_false_r].
    destruct Hd as (sl & Hs & Hds); [done|].
    assert (la = sl) as -> by congruence. by rewrite Hds.
Qed.

Lemma C9_witness :
  match collectType1Conflicts Crossing.g Crossing.layering Crossing.heap with
  | Ok (_, h') => labels h' = labels Crossing.heap
  | Err _ => False
  end.
Proof.
  destruct (collectType1Conflicts Crossing.g Crossing.layering Crossing.heap)
    as [[c h']|e] eqn:E.
  - exact (C9_collectType1Conflicts_preserves_labels _ _ _ _ _ E).
  - vm_compute in E. discriminate E.
Defined.

Lemma C5_witness :
  match collectType1Conflicts Crossing.g Crossing.layering Crossing.heap with
  | Ok (c, h') =>
      exists evs,
        trace h' = trace Crossing.heap ++ evs /\
        c = buildConflicts (conflictCalls evs) /\
        Forall (conflictEventOk Crossing.g (labels Crossing.heap)) evs /\
        forall a b la lb,
          hasType1Conflict c a b = true ->
          labels Crossing.heap !! a = Some la ->
          labels Crossing.heap !! b = Some lb ->
          dummy la && dummy lb = false
  | Err _ => False
  end.
Proof.
  destruct (collectType1Conflicts Crossing.g Crossing.layering Crossing.heap)
    as [[c h']|e] eqn:E.
  - exact (C5_no_inner_segment_conflict _ _ _ _ _ E).
  - vm_compute in E. discriminate E.
Defined.

(** On the crossing example the edge [q -> a] is recorded, and nothing
    else. *)
Example collect_crossing :
  exists c h',
    collectType1Conflicts Crossing.g Crossing.layering Crossing.heap = Ok (c, h') /\
    trace h' = [EvConflict "q" "a" 1 0 0] /\
    hasType1Conflict c "a" "q" = true /\
    hasType1Conflict c "p" "d" = false.
Proof.
  destruct (collectType1Conflicts Crossing.g Crossing.layering Crossing.heap)
    as [[c h']|e] eqn:E; vm_compute in E; [|discriminate E].
  injection E as <- <-. eexists _, _. split; [reflexivity|].
  split; [reflexivity|]. split; vm_compute; reflexivity.
Qed.

(** ** C6 *)



(** The other case: a last node that ends an inner segment is re-scanned
    with the order of its dummy predecessor as [k1]. *)
Lemma rescan_at_inner_segment
    (g : Graph) (n : Z) (layer : list string) (st : ScanState) (i : nat)
    (v : string) (h h1 : Heap) (w : option string) (w' : string) (wLabel : Label) :
  findOtherInnerSegmentNode g v h = Ok (w, h1) -> truthy w = Some w' ->
  labels h !! w' = Some wLabel ->
  visitNode g n layer st (i, v) h =
  bind (scanNodes g (st_k0 st) (order wLabel) (st_conflicts st)
                  (slice (st_scanPos st) (i + 1) layer))
       (fun c => ret (mkScan (order wLabel) (i + 1)%nat c)) h.
Proof.
  intros Hfind Hw Hl. unfold visitNode.
  rewrite (bind_eq _ _ _ _ _ Hfind).
  apply readOnly_findOtherInnerSegmentNode in Hfind as ->.
  unfold windowEnd. rewrite Hw.
  assert (getNode w' h = Ok (wLabel, h)) as Hg by (unfold getNode; by rewrite Hl).
  rewrite (bind_eq (bind _ _) _ h (order wLabel) h)
    by (by rewrite (bind_eq _ _ _ _ _ Hg)).
  rewrite (bool_decide_eq_true_2 (is_Some (Some w'))) by eauto.
  done.
Qed.


(** ** Vertical alignment: the merges it performs *)

Lemma getNode_Ok v h l h' :
  getNode v h = Ok (l, h') -> h' = h /\ labels h !! v = Some l.
Proof.
  unfold getNode. destruct (labels h !! v); [|done]. by intros [= <- <-].
Qed.

Lemma modifyNode_Ok v upd h u h' :
  modifyNode v upd h = Ok (u, h') ->
  exists l, labels h !! v = Some l /\
            h' = mkHeap (<[v := upd l]> (labels h)) (trace h).
Proof.
  unfold modifyNode. destruct (labels h !! v) as [l|]; [|done].
  intros [= <- <-]. eauto.
Qed.

Lemma alignInv_refl conflicts h0 : alignInv conflicts h0 h0.
Proof. exists []. rewrite app_nil_r. repeat split; [done|constructor]. Qed.

Lemma alignCandidate_inv conflicts h0 v ws prevIdx i :
  hoare (alignInv conflicts h0) (alignCandidate conflicts v ws prevIdx i)
        (fun _ => alignInv conflicts h0).
Proof.
  intros h p' h' HI H. unfold alignCandidate in H.
  apply bind_Ok in H as (vLab & h1 & Hv & H).
  apply getNode_Ok in Hv as [-> Hv].
  destruct (bool_decide (align vLab = Some v)) eqn:Eal; [|by injection H as <- <-].
  apply bool_decide_eq_true in Eal.
  destruct (ws !! i) as [w|]; [|done].
  apply bind_Ok in H as (wLab & h1 & Hw & H).
  apply getNode_Ok in Hw as [-> Hw].
  destruct ((prevIdx <? order wLab) && negb (hasType1Conflict conflicts v w)) eqn:Eg;
    [|by injection H as <- <-].
  apply andb_true_iff in Eg as [Elt Ecf].
  apply negb_true_iff in Ecf. apply Z.ltb_lt in Elt.
  apply bind_Ok in H as (before & h1 & Hb & H). injection Hb as <- <-.
  apply bind_Ok in H as ([] & h1 & He & H). injection He as <-.
  apply bind_Ok in H as ([] & h2 & Hm1 & H).
  apply modifyNode_Ok in Hm1 as (wl & Hwl & ->). simpl in Hwl.
  apply bind_Ok in H as ([] & h3 & Hm2 & H).
  apply modifyNode_Ok in Hm2 as (vl & Hvl & ->). simpl in Hvl.
  injection H as <- <-. simpl.
  destruct HI as (evs & Htr & Hok & Hrep).
  exists (evs ++ [EvMerge v w prevIdx (labels h)]). simpl.
  split; [by rewrite Htr, app_assoc|]. split.
  - apply Forall_app. split; [done|]. constructor; [|done]. simpl. eauto 10.
  - assert (wl = wLab) as -> by congruence.
    replace (<[v:=_]> _) with (applyMerge (labels h) v w);
      [by constructor|].
    unfold applyMerge. rewrite Hw. simpl. by rewrite Hvl.
Qed.

Lemma alignNode_inv conflicts h0 neighborFn prevIdx v :
  hoare (alignInv conflicts h0) (alignNode conflicts neighborFn prevIdx v)
        (fun _ => alignInv conflicts h0).
Proof.
  unfold alignNode. destruct (0 <? _)%nat; [|by apply hoare_ret].
  apply (hoare_foldM (fun _ => alignInv conflicts h0)).
  intros p i _. apply alignCandidate_inv.
Qed.

Lemma hoare_forEach {A} (I : Heap -> Prop) (f : A -> M unit) (xs : list A) :
  (forall a, a ∈ xs -> hoare I (f a) (fun _ => I)) ->
  hoare I (forEach xs f) (fun _ => I).
Proof.
  induction xs as [|a xs IH]; intros Hf; simpl.
  - by apply hoare_ret.
  - eapply hoare_bind.
    + apply Hf. by left.
    + intros u. apply IH. intros a' Hin. apply Hf. by right.
Qed.

Lemma alignLayer_inv conflicts h0 neighborFn layer :
  hoare (alignInv conflicts h0) (alignLayer conflicts neighborFn layer)
        (fun _ => alignInv conflicts h0).
Proof.
  unfold alignLayer. eapply hoare_bind.
  - apply (hoare_foldM (fun _ => alignInv conflicts h0)).
    intros p v _. apply alignNode_inv.
  - intros p. by apply hoare_ret.
Qed.

Lemma initBlocks_trace g :
  forall h h', initBlocks g h = Ok (tt, h') -> trace h' = trace h.
Proof.
  unfold initBlocks. induction (nodeIds g) as [|v ids IH]; intros h h' H; simpl in H.
  - by injection H as <-.
  - apply bind_Ok in H as ([] & h1 & Hm & H).
    apply modifyNode_Ok in Hm as (l & _ & ->). by apply IH in H.
Qed.

(** ** C3 *)

(** C3: the block structure that [verticalAlignment] leaves is the result
    of replaying its logged merges on the singleton blocks of its first
    loop, and at every merge of [v] with [w] the pair had no type-1
    conflict, [v.align] was still [v], and [w]'s order was strictly greater
    than [prevIdx]. *)
Theorem C3_no_merge_across_conflict
    (g : Graph) (layering : list (list string)) (conflicts : Conflicts)
    (neighborFn : string -> list string) (h h' : Heap) :
  verticalAlignment g layering conflicts neighborFn h = Ok (tt, h') ->
  exists h1 evs,
    initBlocks g h = Ok (tt, h1) /\
    trace h' = trace h ++ evs /\
    Replay (labels h1) evs (labels h') /\
    Forall (mergeEventOk conflicts) evs.
Proof.
  intros H. unfold verticalAlignment in H.
  apply bind_Ok in H as ([] & h1 & Hinit & H).
  pose proof (hoare_forEach (alignInv conflicts h1)
                (alignLayer conflicts neighborFn) layering
                (fun layer _ => alignLayer_inv conflicts h1 neighborFn layer)
                h1 tt h' (alignInv_refl conflicts h1) H)
    as (evs & Htr & Hok & Hrep).
  exists h1, evs. rewrite <- (initBlocks_trace g h h1 Hinit). done.
Qed.

Lemma C3_witness :
  match verticalAlignment Staircase.g Staircase.layering ∅ Staircase.preds
                          Staircase.heap with
  | Ok (_, h') =>
      exists h1 evs,
        initBlocks Staircase.g Staircase.heap = Ok (tt, h1) /\
        trace h' = trace Staircase.heap ++ evs /\
        Replay (labels h1) evs (labels h') /\
        Forall (mergeEventOk ∅) evs
  | Err _ => False
  end.
Proof.
  destruct (verticalAlignment Staircase.g Staircase.layering ∅ Staircase.preds
                              Staircase.heap) as [[[] h']|e] eqn:E.
  - exact (C3_no_merge_across_conflict _ _ _ _ _ _ E).
  - vm_compute in E. discriminate E.
Defined.

(** ** Blocks as chains *)

Lemma BlocksOk_index B L r b u :
  BlocksOk B L -> B !! r = Some b -> u ∈ b ->
  exists j, b !! j = Some u /\ (j < length b)%nat.
Proof.
  intros _ _ Hu. apply list_elem_of_lookup in Hu as [j Hj].
  exists j. split; [done|]. by eapply lookup_lt_Some.
Qed.

Lemma BlocksOk_root B L r b u l :
  BlocksOk B L -> B !! r = Some b -> u ∈ b -> L !! u = Some l -> root l = Some r.
Proof.
  intros HB Hb Hu Hl. apply list_elem_of_lookup in Hu as [j Hj].
  destruct (bo_member B L HB r b j u Hb Hj) as (l' & Hl' & Hr & _). congruence.
Qed.

Lemma BlocksOk_head_lookup B L r b :
  BlocksOk B L -> B !! r = Some b -> b !! 0%nat = Some r.
Proof.
  intros HB Hb. pose proof (bo_head B L HB r b Hb) as Hh.
  by destruct b; simplify_eq/=.
Qed.

(** A node whose [align] is its [root] is the last of its chain. *)
Lemma BlocksOk_tail B L r b j w wl :
  BlocksOk B L -> B !! r = Some b -> b !! j = Some w ->
  L !! w = Some wl -> align wl = root wl -> (j + 1 = length b)%nat.
Proof.
  intros HB Hb Hj Hw Hal.
  destruct (bo_member B L HB r b j w Hb Hj) as (l & Hl & Hr & Ha).
  assert (l = wl) as -> by congruence.
  pose proof (BlocksOk_head_lookup B L r b HB Hb) as H0.
  pose proof (lookup_lt_Some _ _ _ Hj) as Hlt.
  rewrite Hal, Hr in Ha.
  destruct (decide (j + 1 = length b)%nat) as [|Hne]; [done|].
  rewrite Nat.mod_small in Ha by lia.
  symmetry in Ha. pose proof (bo_nodup B L HB r b Hb) as Hnd.
  pose proof (NoDup_lookup _ _ _ _ Hnd Ha H0). lia.
Qed.

(** A node with [root = align = self] is alone in its block. *)
Lemma BlocksOk_singleton B L v :
  BlocksOk B L -> singletonAt L v -> B !! v = Some [v].
Proof.
  intros HB (l & Hl & Hr & Ha).
  destruct (bo_cover B L HB v l Hl) as (r & b & Hr' & Hb & Hin).
  assert (r = v) as -> by congruence.
  pose proof (BlocksOk_head_lookup B L v b HB Hb) as H0.
  assert (0 + 1 = length b)%nat as Hlen.
  { eapply BlocksOk_tail; eauto. congruence. }
  rewrite Hb. f_equal. destruct b as [|x [|y b]]; simpl in *; try lia.
  congruence.
Qed.

(** Appending a singleton [v] to the chain that ends in [w] gives blocks
    again. *)
Lemma merge_blocks B L v w vl wl :
  BlocksOk B L ->
  L !! v = Some vl -> root vl = Some v -> align vl = Some v ->
  L !! w = Some wl -> align wl = root wl -> v <> w ->
  exists B', BlocksOk B' (mergedLabels L v w vl wl).
Proof.
  intros HB Hv Hvr Hva Hw Hwa Hne.
  destruct (bo_cover B L HB w wl Hw) as (rw & b & Hrw & Hb & Hwin).
  assert (B !! v = Some [v]) as Hsing.
  { apply (BlocksOk_singleton B L v HB). exists vl. done. }
  assert (rw <> v) as Hrv.
  { intros ->. rewrite Hsing in Hb. injection Hb as <-.
    apply list_elem_of_singleton in Hwin. congruence. }
  apply list_elem_of_lookup in Hwin as [jw Hjw].
  pose proof (BlocksOk_tail B L rw b jw w wl HB Hb Hjw Hw Hwa) as Hlast.
  assert (v ∉ b) as Hvb.
  { intros Hin. pose proof (BlocksOk_root B L rw b v vl HB Hb Hin Hv). congruence. }
  pose proof (BlocksOk_head_lookup B L rw b HB Hb) as Hb0.
  pose proof (bo_nodup B L HB rw b Hb) as Hnd.
  exists (<[rw := b ++ [v]]> (delete v B)). unfold mergedLabels. split.
  - intros r b1 H. destruct (decide (r = rw)) as [->|Hr].
    + rewrite lookup_insert_eq in H. injection H as <-.
      destruct b; simplify_eq/=. done.
    + rewrite lookup_insert_ne in H by done.
      apply lookup_delete_Some in H as [_ H]. by eapply bo_head.
  - intros r b1 H. destruct (decide (r = rw)) as [->|Hr].
    + rewrite lookup_insert_eq in H. injection H as <-.
      apply NoDup_app. split; [done|]. split; [|apply NoDup_singleton].
      intros y Hy Hy'. apply list_elem_of_singleton in Hy'. by subst.
    + rewrite lookup_insert_ne in H by done.
      apply lookup_delete_Some in H as [_ H]. by eapply bo_nodup.
  - intros r b1 j u H Hu. destruct (decide (r = rw)) as [->|Hr].
    + rewrite lookup_insert_eq in H. injection H as <-.
      rewrite length_app. simpl.
      destruct (decide (j < length b)%nat) as [Hj|Hj].
      * rewrite lookup_app_l in Hu by done.
        destruct (decide (j = jw)) as [->|Hjjw].
        -- assert (u = w) as -> by congruence.
           rewrite lookup_insert_ne by done. rewrite lookup_insert_eq.
           eexists. split; [done|]. simpl. split; [done|].
           rewrite Nat.mod_small by lia.
           rewrite lookup_app_r by lia.
           by replace (jw + 1 - length b)%nat with 0%nat by lia.
        -- assert (u <> v) as Huv.
           { intros ->. apply Hvb. by eapply list_elem_of_lookup_2. }
           assert (u <> w) as Huw.
           { intros ->. apply Hjjw. by eapply NoDup_lookup. }
           rewrite !lookup_insert_ne by done.
           destruct (bo_member B L HB rw b j u Hb Hu) as (l & Hl & Hlr & Hla).
           exists l. split; [done|]. split; [done|].
           assert (j + 1 < length b)%nat as Hlt.
           { apply lookup_lt_Some in Hjw. lia. }
           rewrite Nat.mod_small in Hla by lia.
           rewrite Nat.mod_small by lia.
           by rewrite lookup_app_l by lia.
      * assert (j = length b) as ->.
        { apply lookup_lt_Some in Hu. rewrite length_app in Hu. simpl in Hu. lia. }
        rewrite lookup_app_r in Hu by lia.
        replace (length b - length b)%nat with 0%nat in Hu by lia.
        injection Hu as <-. rewrite lookup_insert_eq.
        eexists. split; [done|]. simpl. split; [done|].
        rewrite Nat.Div0.mod_same.
        rewrite lookup_app_l by (apply lookup_lt_Some in Hb0; lia).
        congruence.
    + rewrite lookup_insert_ne in H by done.
      apply lookup_delete_Some in H as [Hrv' H].
      assert (u ∈ b1) as Hin by (by eapply list_elem_of_lookup_2).
      assert (u <> v) as Huv.
      { intros ->. pose proof (BlocksOk_root B L r b1 v vl HB H Hin Hv). congruence. }
      assert (u <> w) as Huw.
      { intros ->. pose proof (BlocksOk_root B L r b1 w wl HB H Hin Hw). congruence. }
      rewrite !lookup_insert_ne by done. by eapply bo_member.
  - intros u l Hl. destruct (decide (u = v)) as [->|Huv].
    + rewrite lookup_insert_eq in Hl. injection Hl as <-. simpl.
      exists rw, (b ++ [v]). split; [done|]. rewrite lookup_insert_eq.
      split; [done|]. apply elem_of_app. right. by apply list_elem_of_singleton.
    + rewrite lookup_insert_ne in Hl by done.
      destruct (decide (u = w)) as [->|Huw].
      * rewrite lookup_insert_eq in Hl. injection Hl as <-. simpl.
        exists rw, (b ++ [v]). split; [done|]. rewrite lookup_insert_eq.
        split; [done|]. apply elem_of_app. left. by eapply list_elem_of_lookup_2.
      * rewrite lookup_insert_ne in Hl by done.
        destruct (bo_cover B L HB u l Hl) as (r & b1 & Hr & Hb1 & Hin).
        destruct (decide (r = rw)) as [->|Hrrw].
        -- exists rw, (b ++ [v]). split; [done|]. rewrite lookup_insert_eq.
           split; [done|]. apply elem_of_app. left. congruence.
        -- exists r, b1. split; [done|]. rewrite lookup_insert_ne by done.
           split; [|done]. apply lookup_delete_Some. split; [|done].
           intros <-. rewrite Hsing in Hb1. injection Hb1 as <-.
           apply list_elem_of_singleton in Hin. done.
Qed.

Lemma total_foldM {A S} (I : S -> Heap -> Prop) (f : S -> A -> M S) (xs : list A) :
  (forall s a, a ∈ xs -> total (I s) (f s a) I) ->
  forall s, total (I s) (foldM f s xs) I.
Proof.
  induction xs as [|a xs IH]; intros Hf s h HI; simpl.
  - by exists s, h.
  - destruct (Hf s a (list_elem_of_here _ _) h HI) as (s1 & h1 & H1 & HI1).
    destruct (IH (fun s' a' Hin => Hf s' a' (list_elem_of_further _ _ _ Hin)) s1 h1 HI1)
      as (s2 & h2 & H2 & HI2).
    exists s2, h2. by rewrite (bind_eq _ _ _ _ _ H1).
Qed.

Lemma singletonAt_insert_ne L n v l :
  n <> v -> singletonAt L n -> singletonAt (<[v := l]> L) n.
Proof.
  intros Hne (l' & Hl & Hr & Ha). exists l'. by rewrite lookup_insert_ne.
Qed.

(** The first loop makes every node a singleton block. *)
Lemma initBlocks_total ids : forall h,
  (forall v, v ∈ ids -> is_Some (labels h !! v)) ->
  exists h',
    forEach ids (fun v => modifyNode v (fun label =>
                   set_align (Some v) (set_root (Some v) label))) h = Ok (tt, h') /\
    dom (labels h') = dom (labels h) /\
    (forall n, n ∈ ids \/ singletonAt (labels h) n -> singletonAt (labels h') n).
Proof.
  induction ids as [|v ids IH]; intros h Hdom; simpl.
  - exists h. split; [done|]. split; [done|]. intros n [Hn|Hn]; [|done].
    by apply not_elem_of_nil in Hn.
  - destruct (Hdom v (list_elem_of_here _ _)) as [l Hl].
    set (l' := set_align (Some v) (set_root (Some v) l)).
    set (h1 := mkHeap (<[v := l']> (labels h)) (trace h)).
    assert (modifyNode v (fun label => set_align (Some v) (set_root (Some v) label)) h
            = Ok (tt, h1)) as Hm by (unfold modifyNode; by rewrite Hl).
    destruct (IH h1) as (h' & Hrun & Hd & Hs).
    { intros n Hn. simpl. destruct (decide (n = v)) as [->|Hne].
      - rewrite lookup_insert_eq. eauto.
      - rewrite lookup_insert_ne by done. apply Hdom. by right. }
    exists h'. rewrite (bind_eq _ _ _ _ _ Hm). split; [done|]. split.
    + rewrite Hd. simpl. rewrite dom_insert_L.
      apply elem_of_dom_2 in Hl. apply subseteq_union_1_L.
      by apply singleton_subseteq_l.
    + intros n Hn. apply Hs. destruct (decide (n = v)) as [->|Hne].
      * right. exists l'. simpl. by rewrite lookup_insert_eq.
      * destruct Hn as [Hn|Hn].
        -- left. apply elem_of_cons in Hn as [?|?]; [done|done].
        -- right. by apply singletonAt_insert_ne.
Qed.

(** Singleton blocks are blocks. *)
Lemma BlocksOk_singletons L :
  (forall n, is_Some (L !! n) -> singletonAt L n) ->
  BlocksOk (map_imap (fun v _ => Some [v]) L) L.
Proof.
  intros Hs.
  assert (forall r b, map_imap (fun v (_ : Label) => Some [v]) L !! r = Some b ->
                      b = [r] /\ is_Some (L !! r)) as Hlk.
  { intros r b H. rewrite map_lookup_imap in H.
    destruct (L !! r) as [l|] eqn:E; simpl in H; [|done].
    injection H as <-. eauto. }
  split.
  - intros r b H. by apply Hlk in H as [-> _].
  - intros r b H. apply Hlk in H as [-> _]. apply NoDup_singleton.
  - intros r b j u H Hu. apply Hlk in H as [-> Hr].
    destruct j; simpl in Hu; [|done]. injection Hu as <-.
    destruct (Hs r Hr) as (l & Hl & Hro & Hal). exists l. by simpl.
  - intros u l Hl. destruct (Hs u (mk_is_Some _ _ Hl)) as (l' & Hl' & Hr & _).
    assert (l' = l) as -> by congruence.
    exists u, [u]. split; [done|]. split; [|by apply list_elem_of_singleton].
    rewrite map_lookup_imap, Hl. done.
Qed.

(** ** Vertical alignment on a layered graph *)

Lemma BlocksOk_root_singleton B L v w wl :
  BlocksOk B L -> singletonAt L v -> L !! w = Some wl -> root wl = Some v -> w = v.
Proof.
  intros HB Hs Hw Hr.
  pose proof (BlocksOk_singleton B L v HB Hs) as Hsing.
  destruct (bo_cover B L HB w wl Hw) as (r & b & Hr' & Hb & Hin).
  assert (r = v) as -> by congruence.
  rewrite Hsing in Hb. injection Hb as <-. by apply list_elem_of_singleton in Hin.
Qed.

Lemma mergedLabels_other L v w vl wl n :
  n <> v -> n <> w -> mergedLabels L v w vl wl !! n = L !! n.
Proof. intros Hv Hw. unfold mergedLabels. by rewrite !lookup_insert_ne. Qed.

Lemma mergedLabels_dom L v w vl wl :
  L !! v = Some vl -> L !! w = Some wl -> dom (mergedLabels L v w vl wl) = dom L.
Proof.
  intros Hv Hw. unfold mergedLabels. rewrite !dom_insert_L.
  apply elem_of_dom_2 in Hv, Hw.
  rewrite (subseteq_union_1_L {[w]}) by (by apply singleton_subseteq_l).
  apply subseteq_union_1_L. by apply singleton_subseteq_l.
Qed.

Section Layered.
Variable conflicts : Conflicts.
Variable D : gset string.

(** One median candidate. *)
Lemma alignCandidate_total prev seen rest v ws p i w :
  NoDup (prev ++ seen ++ v :: rest) ->
  ws !! i = Some w -> w ∈ prev ->
  total (fun h => LayerInv D prev seen rest p (labels h) /\ visiting (labels h) v)
        (alignCandidate conflicts v ws p i)
        (fun p' h' => LayerInv D prev seen rest p' (labels h') /\
                      visiting (labels h') v).
Proof.
  intros Hnd Hi Hwp h [HI Hv].
  assert (v <> w) as Hvw.
  { intros ->. apply NoDup_app in Hnd as (_ & Hdis & _).
    apply (Hdis w Hwp). apply elem_of_app. right. by left. }
  assert (exists vl, labels h !! v = Some vl) as [vl Hvl].
  { destruct Hv as [(l & Hl & _)|[(l & Hl & _) _]]; eauto. }
  unfold alignCandidate. unfold bind at 1. unfold getNode at 1. rewrite Hvl.
  destruct (bool_decide (align vl = Some v)) eqn:Eal;
    [|by exists p, h].
  apply bool_decide_eq_true in Eal.
  assert (singletonAt (labels h) v) as Hsing.
  { destruct Hv as [Hs|[_ Hna]]; [done|].
    unfold alignOf in Hna. by rewrite Hvl in Hna. }
  rewrite Hi.
  destruct (li_prev _ _ _ _ _ _ HI w Hwp) as (wl & Hwl & Hpass).
  unfold bind at 1. unfold getNode at 1. rewrite Hwl.
  destruct ((p <? order wl) && negb (hasType1Conflict conflicts v w)) eqn:Eg;
    [|by exists p, h].
  apply andb_true_iff in Eg as [Elt _]. apply Z.ltb_lt in Elt.
  destruct Hpass as [Htail|Hle]; [|lia].
  unfold bind, getLabels, emit, modifyNode, ret. simpl.
  rewrite Hwl. simpl. rewrite lookup_insert_ne by done. rewrite Hvl.
  eexists _, _. split; [reflexivity|]. simpl.
  fold (mergedLabels (labels h) v w vl wl).
  destruct Hsing as (vl' & Hvl' & Hvr & Hva).
  assert (vl' = vl) as -> by congruence.
  destruct (li_blocks _ _ _ _ _ _ HI) as [B HB].
  assert (forall n, n ∈ seen ++ rest -> n <> v /\ n <> w) as Hother.
  { intros n Hn. split.
    - intros ->. apply NoDup_app in Hnd as (_ & _ & Hnd).
      apply NoDup_app in Hnd as (_ & Hdis & Hnd').
      apply NoDup_cons in Hnd' as [Hnv _].
      apply elem_of_app in Hn as [Hn|Hn]; [|done].
      apply (Hdis v Hn). by left.
    - intros ->. apply NoDup_app in Hnd as (_ & Hdis & _).
      apply (Hdis w Hwp). apply elem_of_app in Hn as [Hn|Hn].
      + apply elem_of_app. by left.
      + apply elem_of_app. right. by right. }
  split; [split|].
  - eapply merge_blocks; eauto.
  - intros n Hn. destruct (Hother n) as [? ?]; [apply elem_of_app; by right|].
    destruct (li_rest _ _ _ _ _ _ HI n Hn) as (l & Hl & ?).
    exists l. by rewrite mergedLabels_other.
  - intros n Hn. destruct (Hother n) as [? ?]; [apply elem_of_app; by left|].
    destruct (li_done _ _ _ _ _ _ HI n Hn) as (l & Hl & ?).
    exists l. by rewrite mergedLabels_other.
  - intros n Hn. destruct (decide (n = w)) as [->|Hnw].
    + exists (set_align (Some v) wl). unfold mergedLabels.
      rewrite lookup_insert_ne by done. rewrite lookup_insert_eq.
      split; [done|]. right. simpl. lia.
    + assert (n <> v) as Hnv.
      { intros ->. apply NoDup_app in Hnd as (_ & Hdis & _).
        apply (Hdis v Hn). apply elem_of_app. right. by left. }
      destruct (li_prev _ _ _ _ _ _ HI n Hn) as (l & Hl & Hp).
      exists l. rewrite mergedLabels_other by done. split; [done|].
      destruct Hp; [by left|right; lia].
  - rewrite mergedLabels_dom by done. by eapply li_dom.
  - right. unfold tailAt, alignOf, mergedLabels. rewrite lookup_insert_eq.
    split; [by eexists|]. simpl. intros Hr.
    apply Hvw. symmetry. eapply (BlocksOk_root_singleton B (labels h) v w wl); eauto.
    by exists vl.
Qed.

Variable neighborFn : string -> list string.

Lemma medianIndices_lt n i :
  (0 < n)%nat -> i ∈ medianIndices n -> (i < n)%nat.
Proof.
  intros Hn Hi. unfold medianIndices in Hi. apply elem_of_seq in Hi.
  pose proof (Nat.Div0.div_le_mono (n - 1) n 2 ltac:(lia)).
  pose proof (Nat.div_lt n 2 Hn ltac:(lia)). lia.
Qed.

Lemma LayerInv_visit prev seen rest v p L :
  LayerInv D prev seen (v :: rest) p L ->
  LayerInv D prev seen rest p L /\ visiting L v.
Proof.
  intros [HB Hr Hd Hp Hdom]. split; [split; try done|].
  - intros n Hn. apply Hr. by right.
  - left. apply Hr. by left.
Qed.

Lemma LayerInv_visited prev seen rest v p L :
  LayerInv D prev seen rest p L -> visiting L v ->
  LayerInv D prev (seen ++ [v]) rest p L.
Proof.
  intros [HB Hr Hd Hp Hdom] Hv. split; try done.
  intros n Hn. apply elem_of_app in Hn as [Hn|Hn]; [by apply Hd|].
  apply list_elem_of_singleton in Hn as ->.
  destruct Hv as [(l & Hl & Hro & Hal)|[Ht _]]; [|done].
  exists l. split; [done|]. congruence.
Qed.

(** The visit of one node of the layer. *)
Lemma alignNode_total prev seen rest v p :
  NoDup (prev ++ seen ++ v :: rest) ->
  (forall w, w ∈ neighborFn v -> w ∈ prev) ->
  total (fun h => LayerInv D prev seen (v :: rest) p (labels h))
        (alignNode conflicts neighborFn p v)
        (fun p' h' => LayerInv D prev (seen ++ [v]) rest p' (labels h')).
Proof.
  intros Hnd Hnb h HI. apply LayerInv_visit in HI as [HI Hv].
  unfold alignNode. destruct (0 <? length (neighborFn v))%nat eqn:Elen.
  - apply Nat.ltb_lt in Elen.
    destruct (total_foldM
                (fun p h => LayerInv D prev seen rest p (labels h) /\
                            visiting (labels h) v)
                (alignCandidate conflicts v (neighborFn v))
                (medianIndices (length (neighborFn v)))) with (s := p) (h := h)
      as (p' & h' & Hrun & HI' & Hv'); [|done|].
    + intros p0 i Hi. apply medianIndices_lt in Hi; [|done].
      destruct (lookup_lt_is_Some_2 _ _ Hi) as [w Hw].
      eapply alignCandidate_total; eauto.
      apply Hnb. by eapply list_elem_of_lookup_2.
    + exists p', h'. split; [done|]. by apply LayerInv_visited.
  - exists p, h. split; [done|]. by apply LayerInv_visited.
Qed.

(** The scan of a layer, from any point inside it. *)
Lemma alignNodes_total prev later : forall cur seen p,
  NoDup (prev ++ seen ++ cur ++ later) ->
  (forall v w, v ∈ cur -> w ∈ neighborFn v -> w ∈ prev) ->
  total (fun h => LayerInv D prev seen (cur ++ later) p (labels h))
        (foldM (alignNode conflicts neighborFn) p cur)
        (fun p' h' => LayerInv D prev (seen ++ cur) later p' (labels h')).
Proof.
  induction cur as [|v cur IH]; intros seen p Hnd Hnb h HI; simpl.
  - exists p, h. by rewrite app_nil_r.
  - destruct (alignNode_total prev seen (cur ++ later) v p Hnd) with (h := h)
      as (p1 & h1 & Hrun1 & HI1); [|done|].
    { intros w. apply Hnb. by left. }
    destruct (IH (seen ++ [v]) p1) with (h := h1) as (p2 & h2 & Hrun2 & HI2);
      [| |done|].
    { by rewrite <- (app_assoc seen [v]). }
    { intros v' w Hv'. apply Hnb. by right. }
    exists p2, h2. rewrite (bind_eq _ _ _ _ _ Hrun1). split; [done|].
    by rewrite <- (app_assoc seen [v]) in HI2.
Qed.

(** The scan of the layers, from any layer on. *)
Lemma alignLayers_total : forall layers prev,
  NoDup (prev ++ concat layers) ->
  neighborsOk neighborFn prev layers ->
  total (fun h => (exists B, BlocksOk B (labels h)) /\
                  (forall n, n ∈ concat layers -> singletonAt (labels h) n) /\
                  (forall n, n ∈ prev -> tailAt (labels h) n) /\
                  dom (labels h) = D)
        (forEach layers (alignLayer conflicts neighborFn))
        (fun _ h' => (exists B, BlocksOk B (labels h')) /\ dom (labels h') = D).
Proof.
  induction layers as [|layer layers IH]; intros prev Hnd Hnb h (HB & Hs & Ht & Hd);
    simpl.
  - by exists tt, h.
  - simpl in Hnd, Hnb. destruct Hnb as [Hnb Hnb'].
    assert (forall v w, v ∈ layer -> w ∈ neighborFn v -> w ∈ prev) as Hnb0.
    { intros v w Hv Hw. rewrite Forall_forall in Hnb.
      specialize (Hnb v Hv). rewrite Forall_forall in Hnb. by apply Hnb. }
    clear Hnb.
    destruct (alignNodes_total prev (concat layers) layer [] (-1)) with (h := h)
      as (p1 & h1 & Hrun1 & HI1); [done|done| |].
    { split; try done. intros n Hn. by apply not_elem_of_nil in Hn.
      intros n Hn. destruct (Ht n Hn) as (l & Hl & Hal). exists l. auto. }
    destruct HI1 as [HB1 Hr1 Hd1 Hp1 Hdom1]. simpl in Hd1.
    destruct (IH layer) with (h := h1) as ([] & h2 & Hrun2 & HQ); [|done| |].
    { by apply NoDup_app in Hnd as (_ & _ & Hnd). }
    { by repeat split. }
    exists tt, h2. split; [|done].
    unfold alignLayer at 1. unfold bind at 1 2. rewrite Hrun1. simpl. exact Hrun2.
Qed.
End Layered.

(** ** From chains to cycles *)

Lemma alignIter_chain B L r b :
  BlocksOk B L -> B !! r = Some b ->
  forall n j u, b !! j = Some u ->
                alignIter L n u = b !! ((j + n) mod length b)%nat.
Proof.
  intros HB Hb. induction n as [|n IH]; intros j u Hj; simpl.
  - pose proof (lookup_lt_Some _ _ _ Hj).
    rewrite Nat.add_0_r, Nat.mod_small by done. done.
  - destruct (bo_member B L HB r b j u Hb Hj) as (l & Hl & _ & Hal).
    rewrite Hl, Hal.
    pose proof (lookup_lt_Some _ _ _ Hj) as Hlt.
    assert ((j + 1) mod length b < length b)%nat as Hlt'
      by (apply Nat.mod_upper_bound; lia).
    destruct (lookup_lt_is_Some_2 _ _ Hlt') as [a Ha]. rewrite Ha.
    rewrite (IH _ a Ha). f_equal.
    rewrite Nat.Div0.add_mod_idemp_l. f_equal. lia.
Qed.

Lemma blockMembers_chain g B L r b v :
  NoDup (nodeIds g) -> (forall n, n ∈ nodeIds g <-> is_Some (L !! n)) ->
  BlocksOk B L -> B !! r = Some b -> v ∈ b ->
  (forall u, u ∈ blockMembers g L v <-> u ∈ b) /\
  length (blockMembers g L v) = length b.
Proof.
  intros Hnd Hdom HB Hb Hv.
  assert (forall u, u ∈ b -> rootOf L u = Some r) as Hroot.
  { intros u Hu. apply list_elem_of_lookup in Hu as [j Hj].
    destruct (bo_member B L HB r b j u Hb Hj) as (l & Hl & Hr & _).
    unfold rootOf. by rewrite Hl. }
  assert (forall u, u ∈ blockMembers g L v <-> u ∈ b) as Hiff.
  { intros u. unfold blockMembers. rewrite list_elem_of_filter.
    rewrite (Hroot v Hv). split.
    - intros [Hr Hu]. unfold rootOf in Hr.
      destruct (L !! u) as [l|] eqn:Hl; [|done].
      destruct (bo_cover B L HB u l Hl) as (r' & b' & Hr' & Hb' & Hin).
      assert (r' = r) as -> by congruence. congruence.
    - intros Hu. split; [by apply Hroot|]. apply Hdom.
      apply list_elem_of_lookup in Hu as [j Hj].
      destruct (bo_member B L HB r b j u Hb Hj) as (l & Hl & _). eauto. }
  split; [done|]. apply Permutation_length, NoDup_Permutation; [|by eapply bo_nodup|done].
  unfold blockMembers. by apply NoDup_filter.
Qed.

Lemma BlocksOk_blockCycle g B L v :
  NoDup (nodeIds g) -> (forall n, n ∈ nodeIds g <-> is_Some (L !! n)) ->
  BlocksOk B L -> v ∈ nodeIds g -> blockCycle g L v.
Proof.
  intros Hnd Hdom HB Hv. apply Hdom in Hv as [l Hl].
  destruct (bo_cover B L HB v l Hl) as (r & b & Hr & Hb & Hin).
  destruct (blockMembers_chain g B L r b v Hnd Hdom HB Hb Hin) as [Hiff Hlen].
  apply list_elem_of_lookup in Hin as [j0 Hj0].
  pose proof (lookup_lt_Some _ _ _ Hj0) as Hlt0.
  pose proof (alignIter_chain B L r b HB Hb) as Hiter.
  pose proof (bo_nodup B L HB r b Hb) as Hndb.
  assert (forall u, u ∈ b -> rootOf L u = Some r) as Hroot.
  { intros u Hu. apply list_elem_of_lookup in Hu as [j Hj].
    destruct (bo_member B L HB r b j u Hb Hj) as (l' & Hl' & Hr' & _).
    unfold rootOf. by rewrite Hl'. }
  exists r. split; [unfold rootOf; by rewrite Hl|]. split.
  { apply Hroot. eapply list_elem_of_lookup_2, BlocksOk_head_lookup; eauto. }
  assert (forall ju u, b !! ju = Some u ->
            exists j, (j < length b)%nat /\ alignIter L j v = Some u) as Hreach.
  { intros ju u Hju. pose proof (lookup_lt_Some _ _ _ Hju) as Hltu.
    destruct (decide (j0 <= ju)%nat) as [Hle|Hgt].
    - exists (ju - j0)%nat. split; [lia|]. rewrite (Hiter _ j0 v Hj0).
      replace (j0 + (ju - j0))%nat with ju by lia.
      by rewrite Nat.mod_small.
    - exists (ju + length b - j0)%nat. split; [lia|]. rewrite (Hiter _ j0 v Hj0).
      replace (j0 + (ju + length b - j0))%nat with (ju + 1 * length b)%nat by lia.
      by rewrite Nat.Div0.mod_add, Nat.mod_small. }
  simpl. rewrite Hlen. split; [|split; [|split; [|split]]].
  - rewrite (Hiter _ j0 v Hj0).
    replace (j0 + length b)%nat with (j0 + 1 * length b)%nat by lia.
    rewrite Nat.Div0.mod_add, Nat.mod_small by done. done.
  - intros j Hj Hback. rewrite (Hiter _ j0 v Hj0) in Hback.
    pose proof (NoDup_lookup _ _ _ _ Hndb Hback Hj0) as Heq.
    destruct (decide (j0 + j < length b)%nat) as [Hsmall|Hbig].
    + rewrite Nat.mod_small in Heq by done. lia.
    + replace (j0 + j)%nat with ((j0 + j - length b) + 1 * length b)%nat in Heq by lia.
      rewrite Nat.Div0.mod_add, Nat.mod_small in Heq by lia. lia.
  - intros j u Hu. rewrite (Hiter _ j0 v Hj0) in Hu.
    apply Hroot. by eapply list_elem_of_lookup_2.
  - apply (Hreach 0%nat). by eapply BlocksOk_head_lookup.
  - intros u Hu. apply Hiff in Hu. apply list_elem_of_lookup in Hu as [ju Hju].
    by apply (Hreach ju).
Qed.

(** A node outside every logged merge keeps its label. *)
Lemma applyMerge_other L v w n :
  n <> v -> n <> w -> applyMerge L v w !! n = L !! n.
Proof.
  intros Hv Hw. unfold applyMerge. destruct (L !! w) as [wl|]; [|done].
  destruct (<[w:=set_align (Some v) wl]> L !! v);
    by rewrite ?lookup_insert_ne.
Qed.

Lemma mergedNodes_app evs1 evs2 :
  mergedNodes (evs1 ++ evs2) = mergedNodes evs1 ++ mergedNodes evs2.
Proof. unfold mergedNodes. by rewrite !flat_map_app. Qed.

Lemma Replay_unmerged L0 evs L n :
  Replay L0 evs L -> n ∉ mergedNodes evs -> L !! n = L0 !! n.
Proof.
  induction 1 as [|evs L v w p Hrep IH]; intros Hn; [done|].
  rewrite mergedNodes_app in Hn. simpl in Hn.
  rewrite applyMerge_other.
  - apply IH. intros Hin. apply Hn. apply elem_of_app. by left.
  - intros ->. apply Hn. apply elem_of_app. right. by left.
  - intros ->. apply Hn. apply elem_of_app. right. right. by left.
Qed.

(** ** Alignment on a layered graph gives cycles *)

Lemma verticalAlignment_layered
    (g : Graph) (layering : list (list string)) (conflicts : Conflicts)
    (neighborFn : string -> list string) (h : Heap) :
  NoDup (nodeIds g) ->
  dom (labels h) = list_to_set (nodeIds g) ->
  NoDup (concat layering) ->
  Forall (fun v => v ∈ nodeIds g) (concat layering) ->
  neighborsOk neighborFn [] layering ->
  exists h' evs,
    verticalAlignment g layering conflicts neighborFn h = Ok (tt, h') /\
    trace h' = trace h ++ evs /\
    forall v, v ∈ nodeIds g ->
      blockCycle g (labels h') v /\
      (v ∉ mergedNodes evs -> singletonAt (labels h') v).
Proof.
  intros Hnd Hdomeq Hndl Hsub Hnb.
  assert (forall v, v ∈ nodeIds g <-> is_Some (labels h !! v)) as Hdom.
  { intros v. by rewrite <- elem_of_dom, Hdomeq, elem_of_list_to_set. }
  rewrite Forall_forall in Hsub.
  destruct (initBlocks_total (nodeIds g) h) as (h1 & Hinit & Hd1 & Hs1).
  { intros v Hv. by apply Hdom. }
  assert (forall n, is_Some (labels h1 !! n) -> singletonAt (labels h1) n) as Hall.
  { intros n Hn. apply Hs1. left. apply Hdom.
    apply elem_of_dom. rewrite <- Hd1. by apply elem_of_dom. }
  destruct (alignLayers_total conflicts (dom (labels h)) neighborFn layering [])
    with (h := h1) as ([] & h' & Hrun & [B HB] & Hd'); [done|done| |].
  { split; [eexists; by apply BlocksOk_singletons|]. split; [|split; [|done]].
    - intros n Hn. apply Hs1. left. by apply Hsub.
    - intros n Hn. by apply not_elem_of_nil in Hn. }
  assert (verticalAlignment g layering conflicts neighborFn h = Ok (tt, h')) as Hva.
  { unfold verticalAlignment, initBlocks. by rewrite (bind_eq _ _ _ _ _ Hinit). }
  pose proof (hoare_forEach (alignInv conflicts h1)
                (alignLayer conflicts neighborFn) layering
                (fun layer _ => alignLayer_inv conflicts h1 neighborFn layer)
                h1 tt h' (alignInv_refl conflicts h1) Hrun)
    as (evs & Htr & _ & Hrep).
  exists h', evs. split; [done|]. split.
  { by rewrite <- (initBlocks_trace g h h1 Hinit). }
  intros v Hv. split.
  - apply (BlocksOk_blockCycle g B); try done.
    intros n. rewrite Hdom, <- !elem_of_dom. by rewrite Hd'.
  - intros Hnm. destruct (Hs1 v (or_introl Hv)) as (l & Hl & Hr & Ha).
    exists l. by rewrite (Replay_unmerged _ _ _ v Hrep Hnm).
Qed.

(** ** C2 *)

(** C2: on a layered graph (every node of the layering is a node of the
    graph and occurs in it once, and the neighbours of a node lie in the
    layer scanned just before its own) [verticalAlignment] returns, and then
    the block of every node is one cycle of [align]: following [align] from
    the node comes back to it after exactly as many steps as there are nodes
    with the same [root], the cycle consists of those nodes, and their
    common [root] is one of them and is its own root; a node that took part
    in no merge has [root = align = self]. *)
Theorem C2_alignment_blocks_are_cycles
    (g : Graph) (layering : list (list string)) (conflicts : Conflicts)
    (neighborFn : string -> list string) (h : Heap) :
  NoDup (nodeIds g) ->
  dom (labels h) = list_to_set (nodeIds g) ->
  NoDup (concat layering) ->
  Forall (fun v => v ∈ nodeIds g) (concat layering) ->
  neighborsOk neighborFn [] layering ->
  exists h' evs,
    verticalAlignment g layering conflicts neighborFn h = Ok (tt, h') /\
    trace h' = trace h ++ evs /\
    forall v, v ∈ nodeIds g ->
      blockCycle g (labels h') v /\
      (v ∉ mergedNodes evs -> singletonAt (labels h') v).
Proof. apply verticalAlignment_layered. Qed.

Lemma C2_witness :
  exists h' evs,
    verticalAlignment Staircase.g Staircase.layering ∅ Staircase.preds Staircase.heap
      = Ok (tt, h') /\
    trace h' = trace Staircase.heap ++ evs /\
    forall v, v ∈ nodeIds Staircase.g ->
      blockCycle Staircase.g (labels h') v /\
      (v ∉ mergedNodes evs -> singletonAt (labels h') v).
Proof.
  apply (C2_alignment_blocks_are_cycles Staircase.g Staircase.layering ∅
           Staircase.preds Staircase.heap).
  - apply (bool_decide_unpack _). vm_compute. exact I.
  - vm_compute. reflexivity.
  - apply (bool_decide_unpack _). vm_compute. exact I.
  - apply (bool_decide_unpack _). vm_compute. exact I.
  - apply (bool_decide_unpack _). vm_compute. exact I.
Defined.

(** ** Options and the separation *)

Lemma defaults_idemp (o : Options) : defaults (defaults o) = defaults o.
Proof.
  unfold defaults. rewrite <- (assoc_L (∪)). by rewrite (idemp_L (∪)).
Qed.

Lemma defaults_lookup_present (o : Options) k q :
  o !! k = Some q -> defaults o !! k = Some q.
Proof. intros H. unfold defaults. by apply lookup_union_Some_l. Qed.

Lemma defaults_nodesep (o : Options) :
  defaults o !! "nodesep" = Some (default 50%Q (o !! "nodesep")).
Proof.
  unfold defaults. destruct (o !! "nodesep") as [q|] eqn:E; simpl.
  - by apply lookup_union_Some_l.
  - rewrite lookup_union_r by done. reflexivity.
Qed.

Lemma defaults_edgesep (o : Options) :
  defaults o !! "edgesep" = Some (default 10%Q (o !! "edgesep")).
Proof.
  unfold defaults. destruct (o !! "edgesep") as [q|] eqn:E; simpl.
  - by apply lookup_union_Some_l.
  - rewrite lookup_union_r by done. reflexivity.
Qed.

Lemma horizontalCompaction_filled fuel g layering (options : option Options) h :
  finalHeap (horizontalCompaction fuel g layering options h) =
  finalHeap (horizontalCompaction fuel g layering
               (Some (defaults (default ∅ options))) h).
Proof.
  unfold horizontalCompaction. simpl. rewrite defaults_idemp.
  unfold bind.
  destruct (placeBlocks fuel g layering _ _ h) as [[tb h1]|e]; [|done].
  by destruct (forEach (nodeIds g) (assignX tb) h1) as [[[] h2]|e].
Qed.

(** ** C7 *)



(** ** C10 *)

(** C10: a call of [horizontalCompaction] that returns leaves the caller's
    options object with [nodesep = 50] if it had no [nodesep], with
    [edgesep = 10] if it had no [edgesep], and with every key it had at its
    original value. *)
Theorem C10_options_filled_in_place
    (fuel : nat) (g : Graph) (layering : list (list string)) (options : Options)
    (h h' : Heap) (r : option Options) :
  horizontalCompaction fuel g layering (Some options) h = Ok (r, h') ->
  exists options', r = Some options' /\
    (options !! "nodesep" = None -> options' !! "nodesep" = Some 50%Q) /\
    (options !! "edgesep" = None -> options' !! "edgesep" = Some 10%Q) /\
    (forall k q, options !! k = Some q -> options' !! k = Some q).
Proof.
  intros H. unfold horizontalCompaction in H.
  apply bind_Ok in H as (tb & h1 & _ & H).
  apply bind_Ok in H as ([] & h2 & _ & H).
  injection H as <- <-. simpl. eexists. split; [done|].
  split; [|split].
  - intros E. by rewrite defaults_nodesep, E.
  - intros E. by rewrite defaults_edgesep, E.
  - intros k q. apply defaults_lookup_present.
Qed.

Lemma C10_witness :
  match horizontalCompaction 100 Staircase.g Staircase.layering
          (Some {["edgesep" := 4%Q]}) Staircase.aligned with
  | Ok (r, _) =>
      exists options', r = Some options' /\
        (({["edgesep" := 4%Q]} : Options) !! "nodesep" = None ->
         options' !! "nodesep" = Some 50%Q) /\
        (({["edgesep" := 4%Q]} : Options) !! "edgesep" = None ->
         options' !! "edgesep" = Some 10%Q) /\
        (forall k q, ({["edgesep" := 4%Q]} : Options) !! k = Some q ->
                     options' !! k = Some q)
  | Err _ => False
  end.
Proof.
  destruct (horizontalCompaction 100 Staircase.g Staircase.layering
              (Some {["edgesep" := 4%Q]}) Staircase.aligned) as [[r h']|e] eqn:E.
  - exact (C10_options_filled_in_place _ _ _ _ _ _ _ E).
  - vm_compute in E. discriminate E.
Defined.

(** On the staircase graph alignment produces the labels [alignedNodes]. *)
Example verticalAlignment_staircase :
  match bind (collectType1Conflicts Staircase.g Staircase.layering)
             (fun c => verticalAlignment Staircase.g Staircase.layering c
                                         Staircase.preds) Staircase.heap with
  | Ok (_, h') =>
      labels h' = Staircase.alignedNodes /\
      mergedNodes (trace h') = ["v2"; "v1"; "s2"; "s"]
  | Err _ => False
  end.
Proof. vm_compute. split; reflexivity. Qed.

(** ** Compaction writes only [x] *)

Lemma xOnly_readOnly {A} (m : M A) : readOnly m -> xOnly m.
Proof. intros Hm h a h' H. by apply Hm in H as ->. Qed.

Lemma xOnly_ret {A} (a : A) : xOnly (ret a).
Proof. apply xOnly_readOnly, readOnly_ret. Qed.

Lemma xOnly_throw {A} e : xOnly (@throw A e).
Proof. by intros h a h'. Qed.

Lemma xOnly_getNode v : xOnly (getNode v).
Proof. apply xOnly_readOnly, readOnly_getNode. Qed.

Lemma xOnly_bind {A B} (m : M A) (f : A -> M B) :
  xOnly m -> (forall a, xOnly (f a)) -> xOnly (bind m f).
Proof.
  intros Hm Hf h b h' H. apply bind_Ok in H as (a & h1 & H1 & H2).
  apply Hm in H1 as [E1 E2]. apply Hf in H2 as [E3 E4].
  split; congruence.
Qed.

Lemma xOnly_modifyNode v q : xOnly (modifyNode v (set_x q)).
Proof.
  intros h a h' H. apply modifyNode_Ok in H as (l & Hl & ->). simpl.
  split; [|done]. unfold clearX. rewrite fmap_insert.
  apply insert_id. rewrite lookup_fmap, Hl. done.
Qed.

Lemma xOnly_foldM {A S} (f : S -> A -> M S) (xs : list A) :
  (forall s a, xOnly (f s a)) -> forall s, xOnly (foldM f s xs).
Proof.
  intros Hf. induction xs as [|a xs IH]; intros s; simpl.
  - apply xOnly_ret.
  - apply xOnly_bind; [apply Hf|]. intros s'. apply IH.
Qed.

Lemma xOnly_forEach {A} (f : A -> M unit) (xs : list A) :
  (forall a, xOnly (f a)) -> xOnly (forEach xs f).
Proof.
  intros Hf. induction xs as [|a xs IH]; simpl.
  - apply xOnly_ret.
  - apply xOnly_bind; [apply Hf|]. intros _. apply IH.
Qed.

Create HintDb xonly.
#[local] Hint Resolve xOnly_ret xOnly_throw xOnly_getNode xOnly_modifyNode : xonly.

Ltac xonly :=
  repeat first
    [ progress auto with xonly
    | apply xOnly_bind; [|intros ?]
    | match goal with
      | |- xOnly (if ?b then _ else _) => destruct b
      | |- xOnly (match ?o with Some _ => _ | None => _ end) => destruct o
      | |- xOnly (match ?s with Finite _ => _ | PosInf => _ end) => destruct s
      end ].

Lemma xOnly_sep options v u : xOnly (sep options v u).
Proof. unfold sep, optionNum. xonly. Qed.

Lemma xOnly_getXNum v : xOnly (getXNum v).
Proof. unfold getXNum. xonly. Qed.

Lemma xOnly_getX v : xOnly (getX v).
Proof. unfold getX. xonly. Qed.

Lemma xOnly_getRoot v : xOnly (getRoot v).
Proof. unfold getRoot. xonly. Qed.

Lemma xOnly_pred layering v : xOnly (pred layering v).
Proof. unfold pred. xonly. Qed.

#[local] Hint Resolve xOnly_sep xOnly_getXNum xOnly_getX xOnly_getRoot xOnly_pred : xonly.

Lemma xOnly_placeBlock layering options : forall fuel,
  (forall tb v, xOnly (placeBlock fuel layering options tb v)) /\
  (forall tb v w, xOnly (walkBlock fuel layering options tb v w)).
Proof.
  induction fuel as [|fuel [IHp IHw]]; (split; [intros tb v|intros tb v w]); simpl;
    try apply xOnly_throw.
  - xonly.
  - unfold pos, getAlign. xonly.
Qed.

Lemma xOnly_assignX tb v : xOnly (assignX tb v).
Proof. unfold assignX. xonly. Qed.

Lemma xOnly_horizontalCompaction fuel g layering options :
  xOnly (horizontalCompaction fuel g layering options).
Proof.
  unfold horizontalCompaction. apply xOnly_bind.
  - unfold placeBlocks. apply xOnly_foldM. intros tb v.
    apply xOnly_bind; [apply xOnly_getNode|]. intros l.
    destruct (bool_decide _); [apply xOnly_placeBlock | apply xOnly_ret].
  - intros tb. apply xOnly_bind; [|intros; apply xOnly_ret].
    apply xOnly_forEach. apply xOnly_assignX.
Qed.

Lemma clearX_undefined L :
  (forall v l, L !! v = Some l -> x l = None) -> clearX L = L.
Proof.
  intros Hx. apply map_eq. intros v. unfold clearX. rewrite lookup_fmap.
  destruct (L !! v) as [l|] eqn:E; [|done]. simpl. f_equal.
  specialize (Hx v l E). destruct l; simpl in *. by subst.
Qed.

(** ** C8 *)

(** C8: take a graph whose [x] fields are undefined and a call of
    [horizontalCompaction] on it that returns.  Clearing every [x] in the
    result, with [root], [align] and the other fields as they are, and
    calling [horizontalCompaction] again with the same layering and the same
    options object returns as well and gives every node the [x] of the
    first call. *)
Theorem C8_compaction_repeatable
    (fuel : nat) (g : Graph) (layering : list (list string))
    (options r1 : option Options) (h h1 : Heap) :
  map_Forall (fun _ l => x l = None) (labels h) ->
  horizontalCompaction fuel g layering options h = Ok (r1, h1) ->
  exists r2 h2,
    horizontalCompaction fuel g layering r1 (mkHeap (clearX (labels h1)) (trace h1))
      = Ok (r2, h2) /\
    forall v, xOf (labels h2) v = xOf (labels h1) v.
Proof.
  intros Hx Hrun.
  destruct (xOnly_horizontalCompaction fuel g layering options h r1 h1 Hrun)
    as [Hc Ht].
  assert (mkHeap (clearX (labels h1)) (trace h1) = h) as ->.
  { rewrite Hc, Ht, (clearX_undefined _ Hx). by destruct h. }
  assert (r1 = match options with
               | Some _ => Some (defaults (default ∅ options))
               | None => None
               end) as ->.
  { unfold horizontalCompaction in Hrun.
    apply bind_Ok in Hrun as (tb & h' & _ & Hrun).
    apply bind_Ok in Hrun as ([] & h'' & _ & Hrun). by injection Hrun as <- _. }
  destruct options as [o|].
  - pose proof (horizontalCompaction_filled fuel g layering (Some o) h) as Hf.
    rewrite Hrun in Hf. simpl in Hf. simpl.
    destruct (horizontalCompaction fuel g layering (Some (defaults o)) h)
      as [[r2 h2]|e]; [|done].
    injection Hf as <-. by exists r2, h1.
  - by exists None, h1.
Qed.

Lemma C8_witness :
  match horizontalCompaction 100 Staircase.g Staircase.layering None
          Staircase.aligned with
  | Ok (r1, h1) =>
      exists r2 h2,
        horizontalCompaction 100 Staircase.g Staircase.layering r1
          (mkHeap (clearX (labels h1)) (trace h1)) = Ok (r2, h2) /\
        forall v, xOf (labels h2) v = xOf (labels h1) v
  | Err _ => False
  end.
Proof.
  destruct (horizontalCompaction 100 Staircase.g Staircase.layering None
              Staircase.aligned) as [[r1 h1]|e] eqn:E.
  - apply (C8_compaction_repeatable 100 Staircase.g Staircase.layering None r1
             Staircase.aligned h1); [|exact E].
    apply (bool_decide_unpack _). vm_compute. exact I.
  - vm_compute in E. discriminate E.
Defined.

(** ** C1 *)

(** C1 fails on the staircase graph.  Its blocks are [t], [v1 - v2],
    [s - s2] and [y].  After the placement of the blocks, [y] and the block
    of its left neighbour [s2] have the same sink [s], whose shift is 50.
    The last loop adds the shift to [s.x] and then reads the shifted [s.x]
    again for [s2], which comes later in [g.nodes()]: [s2] ends at 100, its
    root [s] at 50, and [y] at 100, on top of [s2] instead of 50 to its
    right. *)
Theorem C1_same_sink_overlap :
  exists tb h1 h2 sh xs0 xy0 xs xs2 xy d,
    placeBlocks 100 Staircase.g Staircase.layering (defaults ∅)
                (initTables Staircase.g) Staircase.aligned = Ok (tb, h1) /\
    sink tb !! "y" = Some "s" /\ sink tb !! "s" = Some "s" /\
    shift tb !! "s" = Some (Finite sh) /\
    pred Staircase.layering "y" h1 = Ok ("s2", h1) /\
    xOf (labels h1) "s" = Some xs0 /\ xOf (labels h1) "y" = Some xy0 /\
    horizontalCompaction 100 Staircase.g Staircase.layering None Staircase.aligned
      = Ok (None, h2) /\
    xOf (labels h2) "s" = Some xs /\ xOf (labels h2) "s2" = Some xs2 /\
    xOf (labels h2) "y" = Some xy /\
    sep (defaults ∅) "y" "s2" h2 = Ok (d, h2) /\
    (sh == 50 /\ xs0 == 0 /\ xy0 == 50 /\
     xs == 50 /\ xs2 == 100 /\ xy == 100 /\ d == 50 /\ xy < xs2 + d)%Q.
Proof.
  destruct (placeBlocks 100 Staircase.g Staircase.layering (defaults ∅)
              (initTables Staircase.g) Staircase.aligned) as [[tb h1]|e] eqn:E1;
    vm_compute in E1; [|discriminate E1].
  injection E1 as <- <-.
  destruct (horizontalCompaction 100 Staircase.g Staircase.layering None
              Staircase.aligned) as [[r h2]|e] eqn:E2;
    vm_compute in E2; [|discriminate E2].
  injection E2 as <- <-.
  eexists _, _, _, _, _, _, _, _, _, _.
  repeat (split; [vm_compute; reflexivity|]).
  repeat split; vm_compute; reflexivity.
Qed.

(** ** Placement of the blocks *)

(** *** What the readers return *)

Lemma pos_Ok w h p h' :
  pos w h = Ok (p, h') ->
  h' = h /\ exists wl, labels h !! w = Some wl /\ p = order wl.
Proof.
  unfold pos. intros H. apply bind_Ok in H as (l & h1 & Hg & H).
  apply getNode_Ok in Hg as [-> Hl]. injection H as <- <-. eauto.
Qed.

Lemma pred_Ok layering w h p h' :
  pred layering w h = Ok (p, h') ->
  h' = h /\ exists wl, labels h !! w = Some wl /\ predOf layering wl = Some p.
Proof.
  unfold pred. intros H. apply bind_Ok in H as (l & h1 & Hg & H).
  apply getNode_Ok in Hg as [-> Hl].
  destruct ((rank l <? 0) || (order l - 1 <? 0)) eqn:E1; [done|].
  destruct (layering !! Z.to_nat (rank l)) as [layer|] eqn:E2; [|done].
  destruct (layer !! Z.to_nat (order l - 1)) as [u|] eqn:E3; [|done].
  injection H as <- <-. split; [done|]. exists l. split; [done|].
  unfold predOf. by rewrite E1, E2.
Qed.

Lemma getRoot_Ok v h r h' :
  getRoot v h = Ok (r, h') -> h' = h /\ rootOf (labels h) v = Some r.
Proof.
  unfold getRoot, rootOf. intros H. apply bind_Ok in H as (l & h1 & Hg & H).
  apply getNode_Ok in Hg as [-> Hl]. rewrite Hl.
  destruct (root l); [|done]. by injection H as <- <-.
Qed.

Lemma getAlign_Ok w h a h' :
  getAlign w h = Ok (a, h') ->
  h' = h /\ is_Some (labels h !! w) /\ alignOf (labels h) w = a.
Proof.
  unfold getAlign, alignOf. intros H. apply bind_Ok in H as (l & h1 & Hg & H).
  apply getNode_Ok in Hg as [-> Hl]. rewrite Hl. injection H as <- <-. eauto.
Qed.

Lemma getXNum_Ok v h q h' :
  getXNum v h = Ok (q, h') -> h' = h /\ xOf (labels h) v = Some q.
Proof.
  unfold getXNum, xOf. intros H. apply bind_Ok in H as (l & h1 & Hg & H).
  apply getNode_Ok in Hg as [-> Hl]. rewrite Hl.
  destruct (x l); [|done]. by injection H as <- <-.
Qed.

Lemma sep_Ok options v u h d h' :
  sep options v u h = Ok (d, h') ->
  h' = h /\ sepOf options (labels h) v u = Some d.
Proof.
  unfold sep, sepOf, optionNum. intros H.
  apply bind_Ok in H as (vl & h1 & Hg & H). apply getNode_Ok in Hg as [-> Hv].
  apply bind_Ok in H as (ul & h1 & Hg & H). apply getNode_Ok in Hg as [-> Hu].
  rewrite Hv, Hu.
  destruct (options !! "nodesep") as [ns|]; [|done].
  apply bind_Ok in H as (ns' & h1 & Hr & H). injection Hr as <- <-.
  destruct (options !! "edgesep") as [es|]; [|done].
  apply bind_Ok in H as (es' & h1 & Hr & H). injection Hr as <- <-.
  by injection H as <- <-.
Qed.

(** *** Labels that differ in [x] only *)

Lemma sameStatic_lookup L0 L v l :
  sameStatic L0 L -> L !! v = Some l ->
  exists l0, L0 !! v = Some l0 /\ set_x None l = set_x None l0.
Proof.
  unfold sameStatic, clearX. intros Hs Hl.
  assert ((set_x None <$> L) !! v = Some (set_x None l)) as H
    by (by rewrite lookup_fmap, Hl).
  rewrite Hs, lookup_fmap in H.
  destruct (L0 !! v) as [l0|]; simpl in H; [|discriminate H].
  exists l0. split; [done|]. congruence.
Qed.

Lemma sameStatic_sym L0 L : sameStatic L0 L -> sameStatic L L0.
Proof. unfold sameStatic. congruence. Qed.

Lemma sameStatic_trans L0 L1 L2 :
  sameStatic L0 L1 -> sameStatic L1 L2 -> sameStatic L0 L2.
Proof. unfold sameStatic. congruence. Qed.

Lemma set_x_None_fields l l0 :
  set_x None l = set_x None l0 ->
  rank l = rank l0 /\ order l = order l0 /\ dummy l = dummy l0 /\
  width l = width l0 /\ root l = root l0 /\ align l = align l0.
Proof. destruct l, l0. unfold set_x. simpl. intros [= -> -> -> -> -> ->]. done. Qed.

Lemma sameStatic_rootOf L0 L v :
  sameStatic L0 L -> rootOf L v = rootOf L0 v.
Proof.
  intros Hs. unfold rootOf. destruct (L !! v) as [l|] eqn:E.
  - destruct (sameStatic_lookup _ _ _ _ Hs E) as (l0 & -> & Heq).
    by apply set_x_None_fields in Heq as (_ & _ & _ & _ & ? & _).
  - destruct (L0 !! v) as [l0|] eqn:E0; [|done].
    destruct (sameStatic_lookup _ _ _ _ (sameStatic_sym _ _ Hs) E0) as (l & Hl & _).
    congruence.
Qed.

Lemma sameStatic_alignOf L0 L v :
  sameStatic L0 L -> alignOf L v = alignOf L0 v.
Proof.
  intros Hs. unfold alignOf. destruct (L !! v) as [l|] eqn:E.
  - destruct (sameStatic_lookup _ _ _ _ Hs E) as (l0 & -> & Heq).
    by apply set_x_None_fields in Heq as (_ & _ & _ & _ & _ & ?).
  - destruct (L0 !! v) as [l0|] eqn:E0; [|done].
    destruct (sameStatic_lookup _ _ _ _ (sameStatic_sym _ _ Hs) E0) as (l & Hl & _).
    congruence.
Qed.

Lemma predOf_static layering l l0 :
  set_x None l = set_x None l0 -> predOf layering l = predOf layering l0.
Proof.
  intros H. apply set_x_None_fields in H as (Hr & Ho & _).
  unfold predOf. by rewrite Hr, Ho.
Qed.

Lemma sepFormula_static ns es l l0 l' l0' :
  set_x None l = set_x None l0 -> set_x None l' = set_x None l0' ->
  sepFormula ns es l l' = sepFormula ns es l0 l0'.
Proof.
  intros H H'. apply set_x_None_fields in H as (_ & _ & Hd & Hw & _).
  apply set_x_None_fields in H' as (_ & _ & Hd' & Hw' & _).
  unfold sepFormula. by rewrite Hd, Hw, Hd', Hw'.
Qed.

Lemma sameStatic_sepOf options L0 L v u d :
  sameStatic L0 L -> sepOf options L v u = Some d -> sepOf options L0 v u = Some d.
Proof.
  intros Hs. unfold sepOf.
  destruct (L !! v) as [vl|] eqn:Ev; [|done].
  destruct (L !! u) as [ul|] eqn:Eu; [|done].
  destruct (sameStatic_lookup _ _ _ _ Hs Ev) as (vl0 & -> & Hv).
  destruct (sameStatic_lookup _ _ _ _ Hs Eu) as (ul0 & -> & Hu).
  destruct (options !! "nodesep"); [|done]. destruct (options !! "edgesep"); [|done].
  by rewrite (sepFormula_static _ _ _ _ _ _ Hv Hu).
Qed.

Lemma sameStatic_set_x L0 L v l q :
  sameStatic L0 L -> L !! v = Some l -> sameStatic L0 (<[v := set_x q l]> L).
Proof.
  unfold sameStatic, clearX. intros Hs Hl. rewrite fmap_insert, <- Hs.
  apply insert_id. by rewrite lookup_fmap, Hl.
Qed.

Lemma xOf_insert_ne L v l r : r <> v -> xOf (<[v := l]> L) r = xOf L r.
Proof. intros H. unfold xOf. by rewrite lookup_insert_ne. Qed.

Lemma xOf_insert_eq L v l : xOf (<[v := l]> L) v = x l.
Proof. unfold xOf. by rewrite lookup_insert_eq. Qed.

(** *** The growth of the set of placed blocks *)

Lemma grows_refl v C tb L : grows v C tb L C tb L.
Proof. repeat split; auto. intros r H1 H2. done. Qed.

Lemma grows_trans v C tb L C1 tb1 L1 C2 tb2 L2 :
  grows v C tb L C1 tb1 L1 -> grows v C1 tb1 L1 C2 tb2 L2 ->
  grows v C tb L C2 tb2 L2.
Proof.
  intros (Hs1 & Hn1 & Hp1 & Hf1) (Hs2 & Hn2 & Hp2 & Hf2).
  split; [by transitivity C1|]. split; [|split].
  - intros r Hr2 Hr. destruct (decide (r ∈ C1)) as [Hr1|Hr1]; [by apply Hn1|].
    destruct (Hn2 r Hr2 Hr1) as [?|Hx]; [by left|].
    destruct (decide (Some r = v)) as [?|Hne]; [by left|]. right.
    destruct (Hf1 r Hne (or_intror Hr1)) as [Hx1 _]. congruence.
  - intros r Hr. destruct (Hp2 r Hr) as [Hr1|?]; [|by right].
    destruct (Hp1 r Hr1) as [?|?]; [by left|right; by apply Hs2].
  - intros r Hne Hr.
    assert (r ∈ C \/ r ∉ C1) as H1.
    { destruct Hr as [?|Hr]; [by left|right]. intros ?. by apply Hr, Hs2. }
    assert (r ∈ C1 \/ r ∉ C2) as H2.
    { destruct Hr as [?|?]; [left; by apply Hs1|by right]. }
    destruct (Hf1 r Hne H1) as [<- <-]. by apply Hf2.
Qed.

Lemma grows_around v C tb L C' tb' L' :
  grows None C tb L C' tb' L' -> grows (Some v) C tb L C' tb' L'.
Proof.
  intros (Hs & Hn & Hp & Hf). split; [done|]. split; [|split; [done|]].
  - intros r H1 H2. destruct (Hn r H1 H2); [done|by right].
  - intros r _. by apply Hf.
Qed.

(** A step that touches the root being walked only. *)
Lemma grows_self v C tb L tb' L' :
  is_Some (xOf L v) ->
  (forall r, r <> v -> xOf L' r = xOf L r /\ sink tb' !! r = sink tb !! r) ->
  grows (Some v) C tb L C tb' L'.
Proof.
  intros Hv Hf. split; [done|]. split; [|split].
  - intros r H1 H2. done.
  - intros r Hr. left. destruct (decide (r = v)) as [->|Hne]; [done|].
    destruct (Hf r Hne) as [<- _]. done.
  - intros r Hne _. apply Hf. congruence.
Qed.

Section Placement.
Variable layering : list (list string).
Variable options : Options.
Variable L0 : gmap string Label.
Variable rk : string -> nat.

Local Abbreviation Constr := (constr layering options L0).
Local Abbreviation Placed := (PlacedInv layering options L0).
Local Abbreviation Walking := (WalkState layering options L0 rk).

(** A constraint survives when the set grows, the placed blocks stay as
    they are, and the root moves to the right only. *)
Lemma constr_raise C C' tb tb' L L' v w :
  Constr C tb L v w -> C ⊆ C' ->
  (forall r, r ∈ C -> xOf L' r = xOf L r /\ sink tb' !! r = sink tb !! r) ->
  sink tb' !! v = sink tb !! v ->
  (forall xv, xOf L v = Some xv -> exists xv', xOf L' v = Some xv' /\ (xv <= xv')%Q) ->
  Constr C' tb' L' v w.
Proof.
  intros Hc Hsub Hf Hsv Hxv wl p u Hw Hpos Hp Hu.
  destruct (Hc wl p u Hw Hpos Hp Hu) as [HuC Hsame]. split; [by apply Hsub|].
  destruct (Hf u HuC) as [Hxu Hsu]. rewrite Hsv, Hsu. intros Heq.
  destruct (Hsame Heq) as (xv & xu & d & Hv & Hxu' & Hd & Hle).
  destruct (Hxv xv Hv) as (xv' & Hv' & Hle').
  exists xv', xu, d. rewrite Hxu. repeat split; try done.
  by eapply Qle_trans.
Qed.

Lemma constr_frame C C' tb tb' L L' v w :
  Constr C tb L v w -> C ⊆ C' ->
  (forall r, r ∈ C -> xOf L' r = xOf L r /\ sink tb' !! r = sink tb !! r) ->
  sink tb' !! v = sink tb !! v -> xOf L' v = xOf L v ->
  Constr C' tb' L' v w.
Proof.
  intros Hc Hsub Hf Hsv Hxv. eapply constr_raise; eauto.
  intros xv Hv. exists xv. rewrite Hxv. split; [done|apply Qle_refl].
Qed.

Lemma PlacedInv_frame C tb tb' L L' :
  Placed C tb L ->
  (forall r, r ∈ C -> xOf L' r = xOf L r /\ sink tb' !! r = sink tb !! r) ->
  Placed C tb' L'.
Proof.
  intros [Hx Hd Hs] Hf. split.
  - intros r Hr. destruct (Hf r Hr) as [-> _]. by apply Hx.
  - intros r w Hr Hw. destruct (Hf r Hr) as [Hxr Hsr].
    by apply (constr_frame C C tb tb' L L' r w (Hd r w Hr Hw)).
  - intros r s Hr. destruct (Hf r Hr) as [_ ->]. by apply Hs.
Qed.

(** A root whose walk is over joins the placed blocks. *)
Lemma PlacedInv_add C tb L v :
  Placed C tb L -> is_Some (xOf L v) ->
  (forall w, onWalk L0 v w -> Constr C tb L v w) ->
  (forall s, sink tb !! v = Some s -> s = v \/ s ∈ C) ->
  Placed (C ∪ {[v]}) tb L.
Proof.
  intros [Hx Hd Hs] Hxv Hdv Hsv. split.
  - intros r Hr. apply elem_of_union in Hr as [Hr|Hr]; [by apply Hx|].
    by apply elem_of_singleton in Hr as ->.
  - intros r w Hr Hw. apply elem_of_union in Hr as [Hr|Hr].
    + apply (constr_frame C (C ∪ {[v]}) tb tb L L r w); auto.
      apply union_subseteq_l.
    + apply elem_of_singleton in Hr as ->.
      apply (constr_frame C (C ∪ {[v]}) tb tb L L v w); auto.
      apply union_subseteq_l.
  - intros r s Hr Hrs. apply elem_of_union in Hr as [Hr|Hr].
    + apply elem_of_union. left. by eapply Hs.
    + apply elem_of_singleton in Hr as ->.
      apply elem_of_union. destruct (Hsv s Hrs) as [->|?]; [right|by left].
      by apply elem_of_singleton.
Qed.

(** A set of nodes that contains [v] and is closed under [align] contains
    the whole walk from [v]. *)
Lemma onWalk_closed (W : list string) v w :
  v ∈ W -> (forall w', w' ∈ W -> exists a, alignOf L0 w' = Some a /\ a ∈ W) ->
  onWalk L0 v w -> w ∈ W.
Proof.
  intros Hv Hcl [j Hj]. revert v Hv Hj. induction j as [|j IH]; intros v Hv Hj.
  - simpl in Hj. by injection Hj as <-.
  - simpl in Hj. destruct (Hcl v Hv) as (a & Ha & HaW).
    unfold alignOf in Ha. destruct (L0 !! v) as [l|]; [|done].
    rewrite Ha in Hj. by apply (IH a).
Qed.

Lemma onWalk_refl v : onWalk L0 v v.
Proof. by exists 0%nat. Qed.

Lemma alignIter_snoc j v w a :
  alignIter L0 j v = Some w -> alignOf L0 w = Some a ->
  alignIter L0 (S j) v = Some a.
Proof.
  revert v. induction j as [|j IH]; intros v Hj Ha.
  - simpl in Hj. injection Hj as ->. simpl. unfold alignOf in Ha.
    destruct (L0 !! w) as [l|]; [|done]. by rewrite Ha.
  - simpl in Hj. change (alignIter L0 (S (S j)) v) with
      (match L0 !! v with
       | Some l => match align l with
                   | Some a' => alignIter L0 (S j) a'
                   | None => None
                   end
       | None => None
       end).
    destruct (L0 !! v) as [l|]; [|done]. destruct (align l) as [a'|]; [|done].
    by apply IH.
Qed.

Lemma onWalk_step v w a :
  onWalk L0 v w -> alignOf L0 w = Some a -> onWalk L0 v a.
Proof. intros [j Hj] Ha. exists (S j). by eapply alignIter_snoc. Qed.

Lemma sinkFresh_grows v C tb L C' tb' L' :
  sinkFresh tb L -> grows v C tb L C' tb' L' -> Placed C' tb' L' ->
  (forall r, Some r = v -> is_Some (xOf L' r)) ->
  sinkFresh tb' L'.
Proof.
  intros Hfr (_ & _ & _ & Hf) HP Hv r s Hx Hs.
  assert (r ∉ C') as Hr.
  { intros Hr. apply (pi_x _ _ _ _ _ _ HP) in Hr. rewrite Hx in Hr.
    by destruct Hr. }
  assert (Some r <> v) as Hne.
  { intros Heq. apply Hv in Heq. rewrite Hx in Heq. by destruct Heq. }
  destruct (Hf r Hne (or_intror Hr)) as [Hx' Hs']. apply (Hfr r s); congruence.
Qed.

Lemma placeBlock_S fuel tb v :
  placeBlock (S fuel) layering options tb v =
  (let* vLabel := getNode v in
   match x vLabel with
   | Some _ => ret tb
   | None =>
       modifyNode v (set_x (Some 0%Q)) ;;
       walkBlock fuel layering options tb v v
   end).
Proof. reflexivity. Qed.

Lemma walkBlock_S fuel tb v w :
  walkBlock (S fuel) layering options tb v w =
  (let* p := pos w in
   let* tb' :=
     (if (0 <? p)%Z then
        let* pw := pred layering w in
        let* u := getRoot pw in
        let* tb1 := placeBlock fuel layering options tb u in
        let sink1 :=
          if bool_decide (sink tb1 !! v = Some v)
          then copySink (sink tb1) v u else sink tb1 in
        let* delta := sep options w u in
        let* xv := getXNum v in
        let* xu := getXNum u in
        if bool_decide (sink1 !! v <> sink1 !! u) then
          match sink1 !! u with
          | None => throw NotANumber
          | Some su =>
              match shift tb1 !! su with
              | None => throw NotANumber
              | Some s =>
                  ret (mkTables (<[su := minShift s (xv - xu - delta)%Q]> (shift tb1)) sink1)
              end
          end
        else
          modifyNode v (set_x (Some (Qmax xv (xu + delta)%Q))) ;;
          ret (mkTables (shift tb1) sink1)
      else ret tb) in
   let* w' := getAlign w in
   if bool_decide (w' = Some v) then ret tb'
   else
     match w' with
     | Some w'' => walkBlock fuel layering options tb' v w''
     | None => throw TypeError
     end).
Proof. reflexivity. Qed.

Lemma copySink_other sk v u r : r <> v -> copySink sk v u !! r = sk !! r.
Proof.
  intros Hne. unfold copySink. destruct (sk !! u).
  - by rewrite lookup_insert_ne.
  - by rewrite lookup_delete_ne.
Qed.

Lemma copySink_self sk v u : copySink sk v u !! v = sk !! u.
Proof.
  unfold copySink. destruct (sk !! u) eqn:E.
  - by rewrite lookup_insert_eq.
  - by rewrite lookup_delete_eq.
Qed.

Hypothesis Hidem : forall p u, rootOf L0 p = Some u -> rootOf L0 u = Some u.
Hypothesis Hrank : forall v w wl p u,
  rootOf L0 v = Some v -> onWalk L0 v w -> L0 !! w = Some wl -> 0 < order wl ->
  predOf layering wl = Some p -> rootOf L0 p = Some u -> (rk u < rk v)%nat.

(** The state after the visit of [w], from the state after the recursive
    call: [tb2], [L2] differ from [tb1], [L1] at the root [v] only, whose
    sink is [sink1] and whose [x] has not decreased. *)
Lemma visit_done v w C C1 tb tb1 tb2 L L1 L2 Wd wl0 pw u delta xv xu :
  Walking v C tb L Wd -> rootOf L0 v = Some v ->
  L0 !! w = Some wl0 -> predOf layering wl0 = Some pw -> rootOf L0 pw = Some u ->
  grows None C tb L C1 tb1 L1 -> u ∈ C1 -> Placed C1 tb1 L1 ->
  sepOf options L0 w u = Some delta ->
  xOf L1 v = Some xv -> xOf L1 u = Some xu ->
  let sink1 := if bool_decide (sink tb1 !! v = Some v)
               then copySink (sink tb1) v u else sink tb1 in
  sink tb2 = sink1 ->
  (forall r, r <> v -> xOf L2 r = xOf L1 r) ->
  (exists xv2, xOf L2 v = Some xv2 /\ (xv <= xv2)%Q /\
               (sink1 !! v = sink1 !! u -> (xu + delta <= xv2)%Q)) ->
  sameStatic L0 L2 ->
  exists C1', grows (Some v) C tb L C1' tb2 L2 /\ Walking v C1' tb2 L2 (w :: Wd).
Proof.
  intros HW Hroot Hwl0 Hpw Hu Hg HuC1 HP1 Hd Hxv Hxu sink1 Hsk Hx2 (xv2 & Hxv2 & Hle & Hsame) Hst2.
  destruct HW as [Hst HP Hnotin Hplaced Hlow Hfresh Hconstr Hsink].
  pose proof Hg as (Hsub & Hnew & Hpl & Hfr).
  assert (v ∉ C1) as Hv1.
  { intros Hin. destruct (Hnew v Hin Hnotin) as [?|Hn]; [done|].
    rewrite Hn in Hplaced. by destruct Hplaced. }
  destruct (Hfr v ltac:(done) (or_intror Hv1)) as [Hxv1 Hsv1].
  assert (u <> v) as Huv by (intros ->; done).
  assert (forall r, r <> v -> sink1 !! r = sink tb1 !! r) as Hsk_other.
  { intros r Hr. unfold sink1. destruct (bool_decide _); [|done].
    by apply copySink_other. }
  assert (forall s, sink1 !! v = Some s -> s ∈ C1) as Hsk_v.
  { intros s Hs. unfold sink1 in Hs.
    destruct (bool_decide (sink tb1 !! v = Some v)) eqn:Eb.
    - rewrite copySink_self in Hs. by eapply (pi_sink _ _ _ _ _ _ HP1).
    - apply bool_decide_eq_false in Eb. rewrite Hsv1 in Hs, Eb.
      destruct Hsink as [[Hs' _]|Hs']; [done|]. apply Hsub. by apply Hs'. }
  assert (forall r, r ∈ C1 -> xOf L2 r = xOf L1 r /\ sink tb2 !! r = sink tb1 !! r)
    as Hframe1.
  { intros r Hr. assert (r <> v) by (intros ->; done).
    split; [by apply Hx2|]. rewrite Hsk. by apply Hsk_other. }
  exists C1. split.
  - apply (grows_trans _ _ _ _ C1 tb1 L1); [by apply grows_around|].
    apply grows_self; [rewrite Hxv; eauto|].
    intros r Hr. split; [by apply Hx2|]. rewrite Hsk. by apply Hsk_other.
  - split.
    + done.
    + by apply (PlacedInv_frame C1 tb1 tb2 L1 L2).
    + done.
    + rewrite Hxv2. eauto.
    + intros r Hr. destruct (decide (r = v)) as [->|Hne]; [auto|].
      rewrite (Hx2 r Hne) in Hr. destruct (Hpl r Hr) as [Hr'|?]; [|by left].
      destruct (Hlow r Hr') as [?|[?|?]]; auto.
    + intros r s Hxr Hsr. assert (r <> v) as Hne.
      { intros ->. rewrite Hxv2 in Hxr. done. }
      rewrite Hsk, (Hsk_other r Hne) in Hsr. rewrite (Hx2 r Hne) in Hxr.
      assert (sinkFresh tb1 L1) as Hfr1.
      { apply (sinkFresh_grows None C tb L C1 tb1 L1); try done. }
      by apply (Hfr1 r s).
    + intros w' Hw'. apply elem_of_cons in Hw' as [->|Hw'].
      * intros wl' p' u' Hwl' Hpos' Hp' Hu'.
        assert (wl' = wl0) as -> by congruence.
        assert (p' = pw) as -> by congruence.
        assert (u' = u) as -> by congruence.
        split; [done|]. rewrite Hsk. intros Heq.
        exists xv2, xu, delta. rewrite (Hx2 u Huv).
        repeat split; try done. by apply Hsame.
      * destruct (decide (sink tb1 !! v = Some v)) as [Hself|Hnself].
        -- (* the sink was still [v]: the earlier nodes have no left neighbour *)
           rewrite Hsv1 in Hself.
           destruct Hsink as [[_ Hvac]|Hs'].
           ++ intros wl' p' u' Hwl' Hpos'. specialize (Hvac w' wl' Hw' Hwl'). lia.
           ++ apply Hs' in Hself. done.
        -- apply (constr_raise C C1 tb tb2 L L2 v w' (Hconstr w' Hw') Hsub).
           ++ intros r Hr. destruct (Hfr r ltac:(done) (or_introl Hr)) as [<- <-].
              apply Hframe1. by apply Hsub.
           ++ rewrite Hsk. unfold sink1.
              rewrite bool_decide_eq_false_2 by done. done.
           ++ intros xv0 Hxv0. exists xv2. split; [done|].
              rewrite Hxv1, Hxv0 in Hxv. by injection Hxv as ->.
    + right. rewrite Hsk. exact Hsk_v.
Qed.

(** The visit of one node of the block: the body of the do-while loop up
    to [w = align(g, w)]. *)
Lemma visit_sound place tb v w h tb2 h2 C Wd wl :
  placesSoundly layering options L0 rk place ->
  Walking v C tb (labels h) Wd -> rootOf L0 v = Some v -> onWalk L0 v w ->
  labels h !! w = Some wl ->
  (if (0 <? order wl)%Z then
     let* pw := pred layering w in
     let* u := getRoot pw in
     let* tb1 := place tb u in
     let sink1 :=
       if bool_decide (sink tb1 !! v = Some v)
       then copySink (sink tb1) v u else sink tb1 in
     let* delta := sep options w u in
     let* xv := getXNum v in
     let* xu := getXNum u in
     if bool_decide (sink1 !! v <> sink1 !! u) then
       match sink1 !! u with
       | None => throw NotANumber
       | Some su =>
           match shift tb1 !! su with
           | None => throw NotANumber
           | Some s =>
               ret (mkTables (<[su := minShift s (xv - xu - delta)%Q]> (shift tb1)) sink1)
           end
       end
     else
       modifyNode v (set_x (Some (Qmax xv (xu + delta)%Q))) ;;
       ret (mkTables (shift tb1) sink1)
   else ret tb) h = Ok (tb2, h2) ->
  exists C1, grows (Some v) C tb (labels h) C1 tb2 (labels h2) /\
             Walking v C1 tb2 (labels h2) (w :: Wd).
Proof.
  intros Hplace HW Hroot Hwalk Hwl H.
  destruct (sameStatic_lookup L0 (labels h) w wl (ws_static _ _ _ _ _ _ _ _ _ HW) Hwl)
    as (wl0 & Hwl0 & Hst0).
  pose proof (set_x_None_fields _ _ Hst0) as (_ & Hord & _).
  destruct (0 <? order wl) eqn:Epos.
  2: { injection H as <- <-. exists C. split; [apply grows_refl|].
       apply Z.ltb_ge in Epos.
       destruct HW as [Hst HP Hnotin Hplaced Hlow Hfresh Hconstr Hsink].
       split; try done.
       - intros w' Hw'. apply elem_of_cons in Hw' as [->|Hw']; [|by apply Hconstr].
         intros wl' p u Hwl' Hpos'. assert (wl' = wl0) as -> by congruence. lia.
       - destruct Hsink as [[Hs Hvac]|Hs]; [left|by right]. split; [done|].
         intros w' wl' Hw' Hwl'. apply elem_of_cons in Hw' as [->|Hw'].
         + assert (wl' = wl0) as -> by congruence. lia.
         + by apply (Hvac w'). }
  apply Z.ltb_lt in Epos.
  apply bind_Ok in H as (pw & h0 & Hpred & H).
  apply pred_Ok in Hpred as (-> & wl' & Hwl' & Hpw).
  assert (wl' = wl) as -> by congruence.
  rewrite (predOf_static _ _ _ Hst0) in Hpw.
  apply bind_Ok in H as (u & h0 & Hgr & H).
  apply getRoot_Ok in Hgr as (-> & Hu).
  pose proof (ws_static _ _ _ _ _ _ _ _ _ HW) as Hst.
  rewrite (sameStatic_rootOf _ _ _ Hst) in Hu.
  assert (rk u < rk v)%nat as Hrk.
  { apply (Hrank v w wl0 pw u); try done. lia. }
  apply bind_Ok in H as (tb1 & h1 & Hpl & H).
  destruct (Hplace tb u h tb1 h1 C) as (C1 & Hg & HuC1 & HP1 & Hst1); try done.
  { by apply (ws_inv _ _ _ _ _ _ _ _ _ HW). }
  { by apply (ws_fresh _ _ _ _ _ _ _ _ _ HW). }
  { by apply (Hidem pw). }
  { intros r Hr. destruct (ws_low _ _ _ _ _ _ _ _ _ HW r Hr) as [?|[->|?]]; auto.
    right. lia. }
  cbv zeta in H.
  apply bind_Ok in H as (delta & h0 & Hsep & H).
  apply sep_Ok in Hsep as (-> & Hd).
  apply (sameStatic_sepOf _ _ _ _ _ _ Hst1) in Hd.
  apply bind_Ok in H as (xv & h0 & Hgx & H). apply getXNum_Ok in Hgx as (-> & Hxv).
  apply bind_Ok in H as (xu & h0 & Hgx & H). apply getXNum_Ok in Hgx as (-> & Hxu).
  destruct (bool_decide (_ <> _)) eqn:Ecross.
  - (* different sinks: the shift of the other sink is updated *)
    apply bool_decide_eq_true in Ecross.
    destruct (_ !! u) as [su|] eqn:Esu in H; [|done].
    destruct (shift tb1 !! su) as [s|]; [|done].
    injection H as <- <-.
    eapply (visit_done v w C C1 tb tb1 _ (labels h) (labels h1) (labels h1));
      eauto.
    exists xv. split; [done|]. split; [apply Qle_refl|]. intros Heq. done.
  - (* same sink: the block moves to the right *)
    apply bool_decide_eq_false in Ecross.
    apply bind_Ok in H as ([] & h2' & Hm & H).
    apply modifyNode_Ok in Hm as (vl & Hvl & ->). injection H as <- <-. simpl.
    eapply (visit_done v w C C1 tb tb1 _ (labels h) (labels h1)); eauto.
    + intros r Hr. by apply xOf_insert_ne.
    + eexists. rewrite xOf_insert_eq. simpl. split; [done|].
      split; [apply Q.le_max_l|]. intros _. apply Q.le_max_r.
    + by apply sameStatic_set_x.
Qed.

(** [placeBlock] and its loop are sound for every amount of fuel. *)
Lemma placement_sound fuel :
  placesSoundly layering options L0 rk (placeBlock fuel layering options) /\
  walksSoundly layering options L0 rk (walkBlock fuel layering options).
Proof.
  induction fuel as [|fuel [IHp IHw]].
  { split; [intros tb v h tb' h' C|intros tb v w h tb' h' C Wd]; intros; done. }
  split.
  - (* placeBlock *)
    intros tb v h tb' h' C Hst HP Hfresh Hroot Hlow H.
    rewrite placeBlock_S in H.
    apply bind_Ok in H as (vl & h0 & Hg & H).
    apply getNode_Ok in Hg as (-> & Hvl).
    destruct (x vl) as [q|] eqn:Ex.
    + (* already placed *)
      injection H as <- <-. exists C. split; [apply grows_refl|].
      split; [|done].
      destruct (Hlow v) as [?|?]; [|done|lia].
      unfold xOf. rewrite Hvl, Ex. eauto.
    + apply bind_Ok in H as ([] & h1 & Hm & H).
      apply modifyNode_Ok in Hm as (vl' & Hvl' & ->).
      assert (vl' = vl) as -> by congruence.
      assert (xOf (labels h) v = None) as Hxv by (unfold xOf; by rewrite Hvl).
      assert (v ∉ C) as Hnotin.
      { intros Hin. apply (pi_x _ _ _ _ _ _ HP) in Hin. rewrite Hxv in Hin.
        by destruct Hin. }
      destruct (IHw tb v v (mkHeap (<[v:=set_x (Some 0%Q) vl]> (labels h)) (trace h))
                    tb' h' C []) as (C' & Hg & HvC' & HP' & Hst'); try done.
      * simpl. split.
        -- by apply sameStatic_set_x.
        -- apply (PlacedInv_frame C tb tb (labels h)); [done|].
           intros r Hr. split; [|done]. apply xOf_insert_ne. by intros ->.
        -- done.
        -- rewrite xOf_insert_eq. simpl. eauto.
        -- intros r Hr. destruct (decide (r = v)) as [->|Hne]; [auto|].
           rewrite xOf_insert_ne in Hr by done.
           destruct (Hlow r Hr); auto.
        -- intros r s Hr Hs. destruct (decide (r = v)) as [->|Hne].
           ++ rewrite xOf_insert_eq in Hr. done.
           ++ rewrite xOf_insert_ne in Hr by done. by apply (Hfresh r s).
        -- intros w Hw. by apply not_elem_of_nil in Hw.
        -- destruct (sink tb !! v) as [s|] eqn:Es; [|by right].
           left. rewrite (Hfresh v s Hxv Es). split; [done|].
           intros w wl Hw. by apply not_elem_of_nil in Hw.
      * apply onWalk_refl.
      * intros w Hw. by apply not_elem_of_nil in Hw.
      * by right.
      * simpl in Hg, HP', Hst'. exists C'. split; [|done].
        destruct Hg as (Hsub & Hnew & Hpl & Hfr). split; [done|]. split; [|split].
        -- intros r H1 H2. right. destruct (Hnew r H1 H2) as [[= ->]|Hn]; [done|].
           destruct (decide (r = v)) as [->|Hne]; [done|].
           by rewrite xOf_insert_ne in Hn.
        -- intros r Hr. destruct (decide (r = v)) as [->|Hne]; [by right|].
           destruct (Hpl r Hr) as [Hr'|?]; [|by right].
           left. by rewrite xOf_insert_ne in Hr'.
        -- intros r _ Hr. assert (r <> v) as Hne.
           { intros ->. by destruct Hr. }
           destruct (Hfr r ltac:(congruence) Hr) as [-> ->].
           split; [|done]. by apply xOf_insert_ne.
  - (* the loop *)
    intros tb v w h tb' h' C Wd HW Hroot Hwalk Hclosed Hv H.
    rewrite walkBlock_S in H.
    apply bind_Ok in H as (p & h0 & Hp & H).
    apply pos_Ok in Hp as (-> & wl & Hwl & ->).
    apply bind_Ok in H as (tb2 & h2 & Hvisit & H).
    destruct (visit_sound _ tb v w h tb2 h2 C Wd wl IHp HW Hroot Hwalk Hwl Hvisit)
      as (C1 & Hg1 & HW1).
    apply bind_Ok in H as (a & h0 & Ha & H).
    apply getAlign_Ok in Ha as (-> & _ & Ha).
    rewrite (sameStatic_alignOf _ _ _ (ws_static _ _ _ _ _ _ _ _ _ HW1)) in Ha.
    destruct (bool_decide (a = Some v)) eqn:Eback.
    + (* back at [v]: the block is placed *)
      apply bool_decide_eq_true in Eback. subst a. injection H as <- <-.
      destruct HW1 as [Hst1 HP1 Hnotin1 Hplaced1 Hlow1 Hfresh1 Hconstr1 Hsink1].
      exists (C1 ∪ {[v]}). split; [|split; [|split; [|done]]].
      * destruct Hg1 as (Hsub & Hnew & Hpl & Hfr). split; [|split; [|split]].
        -- etrans; [done|apply union_subseteq_l].
        -- intros r H1 H2. apply elem_of_union in H1 as [H1|H1]; [by apply Hnew|].
           apply elem_of_singleton in H1 as ->. by left.
        -- intros r Hr. destruct (Hpl r Hr) as [?|?]; [by left|right].
           apply elem_of_union. by left.
        -- intros r Hne Hr. apply Hfr; [done|]. destruct Hr as [?|Hr]; [by left|right].
           intros ?. apply Hr. apply elem_of_union. by left.
      * apply elem_of_union. right. by apply elem_of_singleton.
      * apply PlacedInv_add; try done.
        -- intros w' Hw'. apply Hconstr1.
           apply (onWalk_closed (w :: Wd) v w'); [| |done].
           ++ destruct Hv as [? | ->]; [by right|by left].
           ++ intros w'' Hw''. apply elem_of_cons in Hw'' as [->|Hw''].
              ** exists v. split; [done|]. destruct Hv as [? | ->]; [by right|by left].
              ** destruct (Hclosed w'' Hw'') as (a & Ha' & [? | Heq]);
                   exists a; (split; [done|]); [by right|rewrite Heq; by left].
        -- intros s Hs. destruct Hsink1 as [[Hs' _]|Hs'].
           ++ left. congruence.
           ++ right. by apply Hs'.
    + apply bool_decide_eq_false in Eback.
      destruct a as [w2|]; [|done].
      destruct (IHw tb2 v w2 h2 tb' h' C1 (w :: Wd)) as (C' & Hg & HvC' & HP' & Hst');
        try done.
      * by apply (onWalk_step v w).
      * intros w'' Hw''. apply elem_of_cons in Hw'' as [->|Hw''].
        -- exists w2. split; [done|by right].
        -- destruct (Hclosed w'' Hw'') as (a & Ha' & [? | Heq]);
             exists a; (split; [done|]); left; [by right|rewrite Heq; by left].
      * left. destruct Hv as [? | ->]; [by right|by left].
      * exists C'. split; [|done]. by apply (grows_trans _ _ _ _ C1 tb2 (labels h2)).
Qed.

(** The second loop of [horizontalCompaction]. *)
Lemma placeBlocks_sound fuel : forall ids tb h tb' h' C,
  sameStatic L0 (labels h) -> Placed C tb (labels h) -> sinkFresh tb (labels h) ->
  (forall r, is_Some (xOf (labels h) r) -> r ∈ C) ->
  foldM (fun tb v =>
           let* label := getNode v in
           if bool_decide (root label = Some v)
           then placeBlock fuel layering options tb v
           else ret tb) tb ids h = Ok (tb', h') ->
  exists C', C ⊆ C' /\ Placed C' tb' (labels h') /\ sameStatic L0 (labels h') /\
    (forall v, v ∈ ids -> rootOf L0 v = Some v -> v ∈ C').
Proof.
  induction ids as [|v ids IH]; intros tb h tb' h' C Hst HP Hfresh Hall H; simpl in H.
  - injection H as <- <-. exists C. split; [done|]. split; [done|]. split; [done|].
    intros v Hv. by apply not_elem_of_nil in Hv.
  - apply bind_Ok in H as (tb1 & h1 & Hstep & H).
    apply bind_Ok in Hstep as (label & h0 & Hg & Hstep).
    apply getNode_Ok in Hg as (-> & Hl).
    assert (rootOf L0 v = root label) as Hrv.
    { rewrite <- (sameStatic_rootOf _ _ _ Hst). unfold rootOf. by rewrite Hl. }
    destruct (bool_decide (root label = Some v)) eqn:Eroot.
    + apply bool_decide_eq_true in Eroot.
      destruct (proj1 (placement_sound fuel) tb v h tb1 h1 C)
        as (C1 & Hg & HvC1 & HP1 & Hst1); try done.
      { congruence. }
      { intros r Hr. left. by apply Hall. }
      destruct (IH tb1 h1 tb' h' C1) as (C' & Hsub' & HP' & Hst' & Hids); try done.
      { apply (sinkFresh_grows None C tb (labels h) C1 tb1 (labels h1)); try done. }
      { intros r Hr. destruct Hg as (Hsub & _ & Hpl & _).
        destruct (Hpl r Hr) as [?|?]; [|done]. by apply Hsub, Hall. }
      exists C'. split; [|split; [done|split; [done|]]].
      * destruct Hg as (Hsub & _). by etrans.
      * intros v' Hv' Hr'. apply elem_of_cons in Hv' as [->|Hv']; [by apply Hsub'|].
        by apply Hids.
    + apply bool_decide_eq_false in Eroot. injection Hstep as <- <-.
      destruct (IH tb h tb' h' C) as (C' & Hsub' & HP' & Hst' & Hids); try done.
      exists C'. split; [done|]. split; [done|]. split; [done|].
      intros v' Hv' Hr'. apply elem_of_cons in Hv' as [->|Hv']; [|by apply Hids].
      congruence.
Qed.
End Placement.

Lemma initTables_sink g r s : sink (initTables g) !! r = Some s -> s = r.
Proof.
  unfold initTables.
  assert (forall ids tb, (forall r s, sink tb !! r = Some s -> s = r) ->
            forall r s,
              sink (foldl (fun tb v => mkTables (<[v := PosInf]> (shift tb))
                                              (<[v := v]> (sink tb))) tb ids) !! r
              = Some s -> s = r) as Hgen.
  { induction ids as [|v ids IH]; intros tb Htb r' s'; simpl; [by apply Htb|].
    apply IH. intros r'' s''. simpl. destruct (decide (v = r'')) as [->|Hne].
    - rewrite lookup_insert_eq. by intros [= ->].
    - rewrite lookup_insert_ne by done. apply Htb. }
  apply Hgen. intros r' s'. simpl. by rewrite lookup_empty.
Qed.

Lemma alignIter_add L a b v :
  alignIter L (a + b) v =
  match alignIter L a v with
  | Some w => alignIter L b w
  | None => None
  end.
Proof.
  revert v. induction a as [|a IH]; intros v; simpl; [done|].
  destruct (L !! v) as [l|]; [|done]. destruct (align l); [|done]. apply IH.
Qed.

Lemma sepOf_sep options v u h d :
  sepOf options (labels h) v u = Some d -> sep options v u h = Ok (d, h).
Proof.
  unfold sepOf, sep, bind, getNode, optionNum.
  destruct (labels h !! v) as [vl|]; [|done].
  destruct (labels h !! u) as [ul|]; [|done].
  destruct (options !! "nodesep") as [ns|]; [|done].
  destruct (options !! "edgesep") as [es|]; [|done].
  by intros [= <-].
Qed.

Lemma PlacedInv_empty layering options L0 tb L : PlacedInv layering options L0 ∅ tb L.
Proof.
  split.
  - intros r Hr. by apply not_elem_of_empty in Hr.
  - intros r w Hr. by apply not_elem_of_empty in Hr.
  - intros r s Hr. by apply not_elem_of_empty in Hr.
Qed.

(** The second loop leaves every block at least the separation to the right
    of the blocks of its left neighbours with the same sink. *)
Lemma placeBlocks_separates rk fuel g layering (options : Options) h tb h1 :
  dom (labels h) = list_to_set (nodeIds g) ->
  map_Forall (fun _ l => x l = None) (labels h) ->
  validBlocks g (labels h) ->
  blocksRanked rk layering (labels h) ->
  placeBlocks fuel g layering options (initTables g) h = Ok (tb, h1) ->
  forall w wl p u v,
    labels h1 !! w = Some wl -> 0 < order wl ->
    predOf layering wl = Some p -> rootOf (labels h1) p = Some u ->
    root wl = Some v ->
    sink tb !! v = sink tb !! u ->
    exists xv xu d,
      xOf (labels h1) v = Some xv /\ xOf (labels h1) u = Some xu /\
      sep options w u h1 = Ok (d, h1) /\ (xu + d <= xv)%Q.
Proof.
  intros Hdom Hx Hvalid Hranked Hrun w wl p u v Hwl Hpos Hp Hu Hv Hsink.
  set (L0 := labels h) in *.
  assert (forall n, is_Some (L0 !! n) -> n ∈ nodeIds g) as Hnodes.
  { intros n Hn. apply elem_of_dom in Hn. rewrite Hdom in Hn.
    by apply elem_of_list_to_set in Hn. }
  assert (forall n r, rootOf L0 n = Some r -> n ∈ nodeIds g) as Hrn.
  { intros n r Hr. apply Hnodes. unfold rootOf in Hr.
    destruct (L0 !! n); [eauto|done]. }
  assert (forall p u, rootOf L0 p = Some u -> rootOf L0 u = Some u) as Hidem.
  { intros p' u' Hr. destruct (Hvalid p' (Hrn _ _ Hr)) as (r & Hr1 & Hr2 & _).
    congruence. }
  assert (forall v w wl p u,
            rootOf L0 v = Some v -> onWalk L0 v w -> L0 !! w = Some wl ->
            0 < order wl -> predOf layering wl = Some p ->
            rootOf L0 p = Some u -> (rk u < rk v)%nat) as Hrank.
  { intros v' w' wl' p' u' Hrv [j Hj] Hwl' Hpos' Hp' Hu'.
    destruct (Hvalid v' (Hrn _ _ Hrv)) as (r & Hr1 & _ & _ & _ & Hroots & _).
    assert (r = v') as -> by congruence.
    specialize (Hroots j w' Hj). unfold rootOf in Hroots. rewrite Hwl' in Hroots.
    specialize (Hranked w' wl' Hwl' Hpos'). simpl in Hranked.
    fold L0 in Hranked. by rewrite Hp', Hu', Hroots in Hranked. }
  assert (sinkFresh (initTables g) (labels h)) as Hfr0.
  { intros r s _. apply initTables_sink. }
  assert (forall r, is_Some (xOf (labels h) r) -> r ∈ (∅ : gset string)) as Hall0.
  { intros r [q Hq]. unfold xOf in Hq.
    destruct (labels h !! r) as [l|] eqn:El; [|done].
    specialize (Hx r l El). simpl in Hx. congruence. }
  destruct (placeBlocks_sound layering options L0 rk Hidem Hrank fuel (nodeIds g)
              (initTables g) h tb h1 ∅ eq_refl
              (PlacedInv_empty layering options L0 _ _) Hfr0 Hall0 Hrun)
    as (C & _ & HP & Hst & Hroots).
  destruct (sameStatic_lookup L0 (labels h1) w wl Hst Hwl) as (wl0 & Hwl0 & Hst0).
  pose proof (set_x_None_fields _ _ Hst0) as (_ & Hord & _ & _ & Hroot0 & _).
  rewrite (predOf_static _ _ _ Hst0) in Hp.
  rewrite (sameStatic_rootOf _ _ _ Hst) in Hu.
  assert (rootOf L0 w = Some v) as Hrw by (unfold rootOf; rewrite Hwl0; congruence).
  assert (rootOf L0 v = Some v) as Hrv by (by apply (Hidem w)).
  assert (onWalk L0 v w) as Hwalk.
  { destruct (Hvalid w (Hrn _ _ Hrw)) as (r & Hr1 & _ & Hback & _ & _ & (j & Hj & Hjr) & _).
    assert (r = v) as -> by congruence.
    exists (length (blockMembers g L0 w) - j)%nat.
    replace (length (blockMembers g L0 w))
      with (j + (length (blockMembers g L0 w) - j))%nat in Hback at 1 by lia.
    rewrite alignIter_add in Hback. by rewrite Hjr in Hback. }
  assert (v ∈ C) as HvC by (apply Hroots; [by apply (Hrn v v)|done]).
  destruct (pi_done _ _ _ _ _ _ HP v w HvC Hwalk wl0 p u Hwl0 ltac:(lia) Hp Hu)
    as [_ Hsame].
  destruct (Hsame Hsink) as (xv & xu & d & Hxv & Hxu & Hd & Hle).
  exists xv, xu, d. repeat split; try done.
  apply sepOf_sep. destruct (sepOf options (labels h1) w u) as [d'|] eqn:Ed.
  - apply (sameStatic_sepOf _ _ _ _ _ _ Hst) in Ed. congruence.
  - exfalso. unfold sepOf in Ed, Hd. rewrite Hwl in Ed.
    unfold xOf in Hxu. destruct (labels h1 !! u) as [ul|]; [|done].
    rewrite Hwl0 in Hd. destruct (L0 !! u) as [ul0|]; [|done].
    destruct (options !! "nodesep"); [|done]. by destruct (options !! "edgesep").
Qed.

(** ** The example graphs have valid blocks *)

Lemma Staircase_validBlocks : validBlocks Staircase.g Staircase.alignedNodes.
Proof.
  destruct (verticalAlignment_layered Staircase.g Staircase.layering ∅
              Staircase.preds Staircase.heap) as (h' & evs & Hrun & _ & Hcyc).
  - apply (bool_decide_unpack _). vm_compute. exact I.
  - vm_compute. reflexivity.
  - apply (bool_decide_unpack _). vm_compute. exact I.
  - apply (bool_decide_unpack _). vm_compute. exact I.
  - apply (bool_decide_unpack _). vm_compute. exact I.
  - vm_compute in Hrun. injection Hrun as <-.
    intros v Hv. exact (proj1 (Hcyc v Hv)).
Qed.

Lemma Cascade_validBlocks : validBlocks Cascade.g Cascade.alignedNodes.
Proof.
  destruct (verticalAlignment_layered Cascade.g Cascade.layering ∅
              Cascade.preds Cascade.heap) as (h' & evs & Hrun & _ & Hcyc).
  - apply (bool_decide_unpack _). vm_compute. exact I.
  - vm_compute. reflexivity.
  - apply (bool_decide_unpack _). vm_compute. exact I.
  - apply (bool_decide_unpack _). vm_compute. exact I.
  - apply (bool_decide_unpack _). vm_compute. exact I.
  - vm_compute in Hrun. injection Hrun as <-.
    intros v Hv. exact (proj1 (Hcyc v Hv)).
Qed.

Lemma Staircase_blocksRanked :
  blocksRanked Staircase.rk Staircase.layering Staircase.alignedNodes.
Proof.
  apply map_Forall_to_list. vm_compute.
  repeat (constructor; [intros _; try exact I; vm_compute; lia|]). constructor.
Qed.

(** ** Blocks with different sinks *)

(** On the cascade graph, whose blocks are [r], [a1 - a2], [t], [v1 - v2]
    and [s], the block [v1 - v2] has sink [t] and its left neighbour [s] in
    the last layer is its own sink.  Placement records the shift 0 for [s]
    against the unshifted [v1 - v2], and later the shift -50 for [t]; the
    final loop moves [v2] to 0 and leaves [s] at 0, although they should be
    50 apart. *)
Lemma cross_sink_pair_not_separated : ~ compactionSeparates_claim.
Proof.
  intros Hclaim.
  destruct (horizontalCompaction 100 Cascade.g Cascade.layering None Cascade.aligned)
    as [[r h']|e] eqn:E; [|vm_compute in E; discriminate E].
  assert (separated Cascade.layering (defaults (default ∅ None)) (labels h')) as Hsep.
  { apply (Hclaim 100%nat Cascade.g Cascade.layering None Cascade.aligned r h').
    - vm_compute. reflexivity.
    - apply (bool_decide_unpack _). vm_compute. exact I.
    - apply Cascade_validBlocks.
    - exact E. }
  destruct (labels h' !! "v2") as [wl|] eqn:Ewl.
  2: { vm_compute in E. injection E as <- <-. vm_compute in Ewl. discriminate Ewl. }
  pose proof (Hsep "v2" wl "s" Ewl) as Hv2.
  vm_compute in E. injection E as <- <-.
  vm_compute in Ewl. injection Ewl as <-.
  destruct Hv2 as (xw & xu & d & Hxw & Hxu & Hd & Hle).
  - simpl. lia.
  - vm_compute. reflexivity.
  - vm_compute in Hxw, Hxu, Hd.
    injection Hxw as <-. injection Hxu as <-. injection Hd as <-.
    vm_compute in Hle. by apply Hle.
Qed.

(** X1: take a graph whose [x] fields are undefined, whose blocks
    are valid and can be ranked from left to right, and a run of the block
    placement of [horizontalCompaction] (its second loop, before the final
    loop adds the shifts) that returns.  Then for every node [w] with a left
    neighbour [p] in its layer, if the block of [w] (root [v]) and the block
    of [p] (root [u]) have the same sink, the block coordinates satisfy
    [x(v) >= x(u) + sep(w, u)]. *)
Theorem placement_separates_same_sink
    (rk : string -> nat) (fuel : nat) (g : Graph) (layering : list (list string))
    (options : Options) (h h1 : Heap) (tb : Tables) :
  dom (labels h) = list_to_set (nodeIds g) ->
  map_Forall (fun _ l => x l = None) (labels h) ->
  validBlocks g (labels h) ->
  blocksRanked rk layering (labels h) ->
  placeBlocks fuel g layering options (initTables g) h = Ok (tb, h1) ->
  forall w wl p u v,
    labels h1 !! w = Some wl -> 0 < order wl ->
    predOf layering wl = Some p -> rootOf (labels h1) p = Some u ->
    root wl = Some v ->
    sink tb !! v = sink tb !! u ->
    exists xv xu d,
      xOf (labels h1) v = Some xv /\ xOf (labels h1) u = Some xu /\
      sep options w u h1 = Ok (d, h1) /\ (xu + d <= xv)%Q.
Proof. apply placeBlocks_separates. Qed.

Lemma placement_separates_same_sink_witness :
  match placeBlocks 100 Staircase.g Staircase.layering (defaults ∅)
                    (initTables Staircase.g) Staircase.aligned with
  | Ok (tb, h1) =>
      exists xv xu d,
        xOf (labels h1) "y" = Some xv /\ xOf (labels h1) "s" = Some xu /\
        sep (defaults ∅) "y" "s" h1 = Ok (d, h1) /\ (xu + d <= xv)%Q
  | Err _ => False
  end.
Proof.
  destruct (placeBlocks 100 Staircase.g Staircase.layering (defaults ∅)
              (initTables Staircase.g) Staircase.aligned) as [[tb h1]|e] eqn:E;
    [|vm_compute in E; discriminate E].
  destruct (labels h1 !! "y") as [wl|] eqn:Ewl.
  - apply (placement_separates_same_sink Staircase.rk 100 Staircase.g
             Staircase.layering (defaults ∅) Staircase.aligned h1 tb
             ltac:(vm_compute; reflexivity)
             ltac:(apply (bool_decide_unpack _); vm_compute; exact I)
             Staircase_validBlocks Staircase_blocksRanked E
             "y" wl "s2" "s" "y" Ewl);
      vm_compute in E; injection E as <- <-;
      vm_compute in Ewl; injection Ewl as <-;
      vm_compute; (reflexivity || lia).
  - vm_compute in E. injection E as <- <-. vm_compute in Ewl. discriminate Ewl.
Defined.

(** * Further properties *)

(** ** The conflict set as an unordered relation *)

Lemma canon_eq_iff a b u s :
  canon a b = canon u s <-> (a = u /\ b = s) \/ (a = s /\ b = u).
Proof.
  split; [apply canon_eq_cases|].
  intros [[-> ->]|[-> ->]]; [done|apply canon_sym].
Qed.

Lemma hasType1Conflict_add_iff c u s a b :
  hasType1Conflict (addType1Conflict c u s) a b = true <->
  hasType1Conflict c a b = true \/ canon a b = canon u s.
Proof.
  split; [apply hasType1Conflict_add|].
  rewrite !hasType1Conflict_canon, addType1Conflict_canon.
  destruct (canon a b) as [a1 b1], (canon u s) as [u1 s1]; simpl.
  destruct (decide (u1 = a1)) as [->|Hne].
  - rewrite lookup_insert_eq. intros [H|[= ->]]; apply bool_decide_eq_true.
    + destruct (c !! a1) as [set|]; [|done]. apply bool_decide_eq_true in H.
      apply elem_of_union. by right.
    + apply elem_of_union. left. by apply elem_of_singleton.
  - rewrite lookup_insert_ne by done. intros [H|[= -> ->]]; done.
Qed.

(** X2: after [addType1Conflict(conflicts, u, s)] a lookup of [(a, b)]
    succeeds exactly when it succeeded before or [{a, b}] is the pair
    [{u, s}], in either order; in particular the pair just added is found,
    and no other answer changes. *)
Theorem conflict_lookup_after_add (c : Conflicts) (u s a b : string) :
  hasType1Conflict (addType1Conflict c u s) a b = true <->
  hasType1Conflict c a b = true \/ (a = u /\ b = s) \/ (a = s /\ b = u).
Proof. rewrite hasType1Conflict_add_iff. by rewrite canon_eq_iff. Qed.

(** X3: the conflict set built by a sequence of [addType1Conflict] calls
    contains a pair exactly when one of the calls added it, in either
    order. *)
Theorem conflict_lookup_of_calls (calls : list (string * string)) (a b : string) :
  hasType1Conflict (buildConflicts calls) a b = true <->
  exists u s, (u, s) ∈ calls /\ ((a = u /\ b = s) \/ (a = s /\ b = u)).
Proof.
  unfold buildConflicts.
  assert (forall c0,
    hasType1Conflict (foldl (fun c p => addType1Conflict c p.1 p.2) c0 calls) a b = true <->
    hasType1Conflict c0 a b = true \/
    exists u s, (u, s) ∈ calls /\ ((a = u /\ b = s) \/ (a = s /\ b = u))) as Hgen.
  { induction calls as [|[u s] calls IH]; intros c0; simpl.
    - split; [auto|]. intros [?|(u & s & Hin & _)]; [done|].
      by apply not_elem_of_nil in Hin.
    - rewrite IH, hasType1Conflict_add_iff, canon_eq_iff. split.
      + intros [[?|?]|(u' & s' & Hin & ?)]; [by left| |].
        * right. exists u, s. split; [by left|done].
        * right. exists u', s'. split; [by right|done].
      + intros [?|(u' & s' & Hin & ?)]; [by left; left|].
        apply elem_of_cons in Hin as [[= -> ->]|Hin]; [by left; right|].
        right. eauto. }
  rewrite Hgen, hasType1Conflict_empty. split; [intros [?|?]; done|by right].
Qed.

(** X4: [addType1Conflict] does not depend on the order of its two ids,
    adding a pair twice is adding it once, and two additions can be
    swapped. *)
Theorem addType1Conflict_unordered (c : Conflicts) (v w v' w' : string) :
  addType1Conflict c v w = addType1Conflict c w v /\
  addType1Conflict (addType1Conflict c v w) v w = addType1Conflict c v w /\
  addType1Conflict (addType1Conflict c v w) v' w' =
  addType1Conflict (addType1Conflict c v' w') v w.
Proof.
  split; [|split].
  - rewrite !addType1Conflict_canon. by rewrite (canon_sym v w).
  - rewrite !addType1Conflict_canon. destruct (canon v w) as [a b]; simpl.
    rewrite lookup_insert_eq. simpl. rewrite insert_insert_eq. f_equal.
    rewrite (assoc_L (∪)). by rewrite (idemp_L (∪)).
  - rewrite !addType1Conflict_canon.
    destruct (canon v w) as [a b], (canon v' w') as [a' b']; simpl.
    destruct (decide (a = a')) as [->|Hne].
    + rewrite !lookup_insert_eq. simpl. rewrite !insert_insert_eq. f_equal.
      rewrite !(assoc_L (∪)). by rewrite (comm_L (∪) {[b']} {[b]}).
    + rewrite !lookup_insert_ne by done. by apply insert_insert_ne.
Qed.

(** ** The other end of an inner segment *)

Lemma findM_dummy_Ok us : forall h r h',
  findM (fun u => let* uLabel := getNode u in ret (dummy uLabel)) us h = Ok (r, h') ->
  h' = h /\ firstDummy (labels h) us r.
Proof.
  induction us as [|u us IH]; intros h r h' H; simpl in H.
  - injection H as <- <-. split; [done|]. constructor.
  - apply bind_Ok in H as (b & h1 & Hb & H).
    apply bind_Ok in Hb as (ul & h2 & Hg & Hb).
    apply getNode_Ok in Hg as (-> & Hul). injection Hb as <- <-.
    destruct (dummy ul) eqn:Ed.
    + injection H as <- <-. split; [done|]. exists [], us, ul. simpl.
      split; [done|]. split; [constructor|done].
    + apply IH in H as (-> & Hr). split; [done|].
      assert (notDummyAt (labels h) u) as Hu by (by exists ul).
      destruct r as [w|]; simpl in *.
      * destruct Hr as (pre & post & wl & -> & Hpre & Hw & Hd).
        exists (u :: pre), post, wl. split; [done|]. split; [by constructor|done].
      * by constructor.
Qed.

(** X5: a call of [findOtherInnerSegmentNode(g, v)] that returns changes
    nothing; for a node that is not a dummy node it returns [undefined]
    without looking at the predecessors; for a dummy node it returns the
    first predecessor that is a dummy node, and [undefined] when there is
    none.  It throws when [v] has no label. *)
Theorem findOtherInnerSegmentNode_spec (g : Graph) (v : string) (h : Heap) :
  match findOtherInnerSegmentNode g v h with
  | Ok (r, h') =>
      h' = h /\
      exists vLabel, labels h !! v = Some vLabel /\
        if dummy vLabel then firstDummy (labels h) (predecessors g v) r
        else r = None
  | Err e => e = TypeError
  end.
Proof.
  destruct (findOtherInnerSegmentNode g v h) as [[r h']|e] eqn:H.
  - unfold findOtherInnerSegmentNode in H.
    apply bind_Ok in H as (vl & h1 & Hg & H).
    apply getNode_Ok in Hg as (-> & Hvl).
    destruct (dummy vl) eqn:Ed.
    + apply findM_dummy_Ok in H as (-> & Hr). split; [done|].
      exists vl. by rewrite Ed.
    + injection H as <- <-. split; [done|]. exists vl. by rewrite Ed.
  - unfold findOtherInnerSegmentNode, bind, getNode in H.
    destruct (labels h !! v) as [vl|]; [|by injection H as <-].
    destruct (dummy vl); [|done].
    assert (forall us h0 e0,
      findM (fun u => let* uLabel := getNode u in ret (dummy uLabel)) us h0 = Err e0 ->
      e0 = TypeError) as Hgen.
    { clear. induction us as [|u us IH]; intros h0 e0 H; simpl in H; [done|].
      unfold bind, getNode, ret in H. destruct (labels h0 !! u) as [ul|].
      - destruct (dummy ul); [done|]. by apply (IH h0).
      - by injection H as <-. }
    by apply (Hgen _ _ _ H).
Qed.

(** ** Recorded conflicts are edges *)

(** X6: every pair in the conflict set that [collectType1Conflicts] returns
    is an edge of the graph: one of the two nodes is a predecessor of the
    other. *)
Theorem collected_conflicts_are_edges
    (g : Graph) (layering : list (list string)) (h h' : Heap) (c : Conflicts)
    (a b : string) :
  collectType1Conflicts g layering h = Ok (c, h') ->
  hasType1Conflict c a b = true ->
  a ∈ predecessors g b \/ b ∈ predecessors g a.
Proof.
  intros H Hhas.
  destruct (collectType1Conflicts_inv g layering h h c h' eq_refl H)
    as (_ & evs & _ & Hok & ->).
  apply hasType1Conflict_foldl in Hhas as [Hhas|([u s] & Hin & Hc)];
    [by rewrite hasType1Conflict_empty in Hhas|].
  apply elem_of_conflictCalls in Hin as (uPos & k0 & k1 & Hin).
  rewrite Forall_forall in Hok. apply Hok in Hin as (Hedge & _).
  simpl in Hc. apply canon_eq_cases in Hc as [[-> ->]|[-> ->]]; auto.
Qed.

Lemma collected_conflicts_are_edges_witness :
  match collectType1Conflicts Crossing.g Crossing.layering Crossing.heap with
  | Ok (c, _) =>
      hasType1Conflict c "a" "q" = true /\
      ("a" ∈ predecessors Crossing.g "q" \/ "q" ∈ predecessors Crossing.g "a")
  | Err _ => False
  end.
Proof.
  destruct (collectType1Conflicts Crossing.g Crossing.layering Crossing.heap)
    as [[c h']|e] eqn:E.
  - assert (hasType1Conflict c "a" "q" = true) as Hhas.
    { vm_compute in E. injection E as <- <-. vm_compute. reflexivity. }
    split; [exact Hhas|].
    exact (collected_conflicts_are_edges _ _ _ _ _ _ _ E Hhas).
  - vm_compute in E. discriminate E.
Defined.

(** ** Conflict detection returns on labelled nodes *)

Lemma getNode_labelled v h l : labels h !! v = Some l -> getNode v h = Ok (l, h).
Proof. intros H. unfold getNode. by rewrite H. Qed.

Lemma findM_dummy_total us h :
  Forall (fun u => is_Some (labels h !! u)) us ->
  exists r, findM (fun u => let* uLabel := getNode u in ret (dummy uLabel)) us h
            = Ok (r, h) /\ forall w, r = Some w -> w ∈ us.
Proof.
  induction us as [|u us IH]; intros Hus; simpl.
  - exists None. split; [done|]. by intros w.
  - apply Forall_cons in Hus as [[ul Hul] Hus].
    unfold bind at 1 2. rewrite (getNode_labelled _ _ _ Hul). simpl.
    destruct (dummy ul).
    + exists (Some u). split; [done|]. intros w [= ->]. by left.
    + destruct (IH Hus) as (r & Hr & Hin). exists r. split; [done|].
      intros w Hw. right. by apply Hin.
Qed.

Lemma truthy_Some w w' : truthy w = Some w' -> w = Some w'.
Proof.
  unfold truthy. destruct w as [s|]; [|done].
  destruct (String.eqb s ""); [done|]. by intros [= ->].
Qed.

Lemma scanPredecessor_total k0 k1 scanNode c u h :
  is_Some (labels h !! u) -> is_Some (labels h !! scanNode) ->
  exists c' h', scanPredecessor k0 k1 scanNode c u h = Ok (c', h') /\
                labels h' = labels h.
Proof.
  intros [ul Hul] [sl Hsl]. unfold scanPredecessor.
  unfold bind at 1. rewrite (getNode_labelled _ _ _ Hul).
  destruct ((order ul <? k0) || (k1 <? order ul)); [|by eexists _, _].
  destruct (dummy ul).
  - unfold bind at 1 2. rewrite (getNode_labelled _ _ _ Hsl). simpl.
    destruct (dummy sl); by eexists _, _.
  - by eexists _, _.
Qed.

Lemma scanNodes_total g L k0 k1 nodes : forall c h,
  labels h = L -> scanReady g L nodes ->
  exists c' h', scanNodes g k0 k1 c nodes h = Ok (c', h') /\ labels h' = L.
Proof.
  intros c h HL Hready. unfold scanNodes.
  apply (total_foldM (fun _ h => labels h = L)); [|done].
  intros c1 scanNode Hin h1 HL1.
  unfold scanReady in Hready. rewrite Forall_forall in Hready.
  destruct (Hready scanNode Hin) as [Hs Hpreds].
  apply (total_foldM (fun _ h => labels h = L)); [|done].
  intros c2 u Hu h2 HL2. rewrite Forall_forall in Hpreds.
  destruct (scanPredecessor_total k0 k1 scanNode c2 u h2) as (c' & h' & Hrun & HL');
    [rewrite HL2; by apply Hpreds|by rewrite HL2|].
  exists c', h'. split; [done|]. congruence.
Qed.

Lemma scanReady_slice g L from to layer :
  scanReady g L layer -> scanReady g L (slice from to layer).
Proof.
  unfold scanReady, slice. rewrite !Forall_forall. intros H v Hv.
  apply H. by apply (subseteq_drop from), (subseteq_take (to - from)).
Qed.

Lemma visitNode_total g L n layer st iv h :
  labels h = L -> scanReady g L layer -> iv.2 ∈ layer ->
  exists st' h', visitNode g n layer st iv h = Ok (st', h') /\ labels h' = L.
Proof.
  intros HL Hready Hin. destruct iv as [i v]. simpl in Hin. unfold visitNode.
  pose proof Hready as Hall. unfold scanReady in Hall. rewrite Forall_forall in Hall.
  destruct (Hall v Hin) as [[vl Hvl] Hpreds]. rewrite <- HL in Hvl, Hpreds.
  assert (exists r, findOtherInnerSegmentNode g v h = Ok (r, h) /\
                    forall w, r = Some w -> w ∈ predecessors g v) as (r & Hr & Hrin).
  { unfold findOtherInnerSegmentNode. unfold bind at 1.
    rewrite (getNode_labelled _ _ _ Hvl). destruct (dummy vl).
    - by apply findM_dummy_total.
    - exists None. split; [done|]. by intros w. }
  rewrite (bind_eq _ _ _ _ _ Hr).
  assert (exists k1, windowEnd n r h = Ok (k1, h)) as [k1 Hk1].
  { unfold windowEnd. destruct (truthy r) as [w'|] eqn:Et; [|by eexists].
    apply truthy_Some in Et. rewrite Forall_forall in Hpreds.
    destruct (Hpreds w' (Hrin w' Et)) as [wl Hwl].
    unfold bind. rewrite (getNode_labelled _ _ _ Hwl). by eexists. }
  rewrite (bind_eq _ _ _ _ _ Hk1).
  destruct (_ || _); [|by eexists _, _].
  destruct (scanNodes_total g L (st_k0 st) k1 (slice (st_scanPos st) (i + 1) layer)
              (st_conflicts st) h HL (scanReady_slice _ _ _ _ _ Hready))
    as (c' & h' & Hrun & HL').
  rewrite (bind_eq _ _ _ _ _ Hrun). by eexists _, _.
Qed.

Lemma visitLayer_total g L c prevLayer layer h :
  labels h = L -> scanReady g L layer ->
  exists c' h', visitLayer g c prevLayer layer h = Ok (c', h') /\ labels h' = L.
Proof.
  intros HL Hready. unfold visitLayer.
  destruct (total_foldM (fun _ h => labels h = L)
              (visitNode g (Z.of_nat (length prevLayer)) layer) (indexed layer))
    with (s := mkScan 0 0%nat c) (h := h) as (st & h' & Hrun & HL'); [|done|].
  - intros st iv Hiv h1 HL1. apply visitNode_total; [done|done|].
    unfold indexed in Hiv. apply elem_of_lookup_imap in Hiv as (i & v & -> & Hv).
    simpl. by eapply list_elem_of_lookup_2.
  - rewrite (bind_eq _ _ _ _ _ Hrun). by eexists _, _.
Qed.

(** X7: when every node of the layers after the first and every
    predecessor of such a node has a label, [collectType1Conflicts] returns
    (no [TypeError]); the nodes of the first layer are looked up only as
    predecessors. *)
Theorem collectType1Conflicts_returns
    (g : Graph) (layering : list (list string)) (h : Heap) :
  Forall (scanReady g (labels h)) (tail layering) ->
  exists c h', collectType1Conflicts g layering h = Ok (c, h').
Proof.
  intros Hready. unfold collectType1Conflicts.
  destruct layering as [|first rest]; [by eexists _, _|]. simpl in Hready.
  destruct (total_foldM (fun _ h' => labels h' = labels h)
              (fun (acc : list string * Conflicts) layer =>
                 let* c := visitLayer g acc.2 acc.1 layer in ret (layer, c)) rest)
    with (s := (first, (∅ : Conflicts))) (h := h) as (r & h' & Hrun & _); [|done|].
  - intros acc layer Hin h1 HL1. rewrite Forall_forall in Hready.
    destruct (visitLayer_total g (labels h) acc.2 acc.1 layer h1 HL1 (Hready layer Hin))
      as (c' & h' & Hrun & HL').
    rewrite (bind_eq _ _ _ _ _ Hrun). by eexists _, _.
  - rewrite (bind_eq _ _ _ _ _ Hrun). by eexists _, _.
Qed.

Lemma collectType1Conflicts_returns_witness :
  exists c h',
    collectType1Conflicts Crossing.g Crossing.layering Crossing.heap = Ok (c, h').
Proof.
  apply (collectType1Conflicts_returns Crossing.g Crossing.layering Crossing.heap).
  apply (bool_decide_unpack _). vm_compute. exact I.
Defined.

(** ** Without dummy nodes there are no conflicts *)

Lemma scanPredecessor_quiet L T n scanNode c u :
  orderWithin L n u ->
  hoare (fun h => labels h = L /\ trace h = T)
        (scanPredecessor 0 (Z.of_nat n) scanNode c u)
        (fun c' h => c' = c /\ labels h = L /\ trace h = T).
Proof.
  intros Hu h c' h' [HL HT] H. unfold scanPredecessor in H.
  apply bind_Ok in H as (ul & h1 & Hg & H).
  apply getNode_Ok in Hg as (-> & Hul).
  unfold orderWithin in Hu. rewrite <- HL, Hul in Hu.
  replace ((order ul <? 0) || (Z.of_nat n <? order ul)) with false in H.
  - by injection H as <- <-.
  - symmetry. apply orb_false_iff. split; [apply Z.ltb_ge|apply Z.ltb_ge]; lia.
Qed.

Lemma scanNodes_quiet g L T n c nodes :
  Forall (fun v => Forall (orderWithin L n) (predecessors g v)) nodes ->
  hoare (fun h => labels h = L /\ trace h = T)
        (scanNodes g 0 (Z.of_nat n) c nodes)
        (fun c' h => c' = c /\ labels h = L /\ trace h = T).
Proof.
  intros Hnodes. unfold scanNodes.
  eapply hoare_conseq;
    [apply (hoare_foldM (fun c' h => c' = c /\ labels h = L /\ trace h = T))
    |intros h [? ?]; by repeat split
    |intros c' h H; exact H].
  intros c1 scanNode Hin. rewrite Forall_forall in Hnodes.
  pose proof (Hnodes scanNode Hin) as Hpreds.
  eapply hoare_conseq;
    [apply (hoare_foldM (fun c' h => c' = c /\ labels h = L /\ trace h = T))
    |intros h H; exact H
    |intros c' h H; exact H].
  intros c2 u Hu. rewrite Forall_forall in Hpreds.
  intros h c' h' (-> & HL & HT) H.
  by apply (scanPredecessor_quiet L T n scanNode c u (Hpreds u Hu) h c' h').
Qed.

Lemma findOther_not_dummy g v h r h' :
  map_Forall (fun _ l => dummy l = false) (labels h) ->
  findOtherInnerSegmentNode g v h = Ok (r, h') -> r = None /\ h' = h.
Proof.
  intros Hnd H. unfold findOtherInnerSegmentNode in H.
  apply bind_Ok in H as (vl & h1 & Hg & H).
  apply getNode_Ok in Hg as (-> & Hvl).
  rewrite (Hnd v vl Hvl) in H. by injection H as <- <-.
Qed.

Lemma indexed_snoc {A} (l : list A) x :
  indexed (l ++ [x]) = indexed l ++ [(length l, x)].
Proof.
  unfold indexed. rewrite imap_app. simpl. by rewrite Nat.add_0_r.
Qed.

Lemma visitLayer_quiet g L T c prevLayer layer :
  map_Forall (fun _ l => dummy l = false) L -> NoDup layer ->
  Forall (fun v => Forall (orderWithin L (length prevLayer)) (predecessors g v)) layer ->
  hoare (fun h => labels h = L /\ trace h = T)
        (visitLayer g c prevLayer layer)
        (fun c' h => c' = c /\ labels h = L /\ trace h = T).
Proof.
  intros Hnd Hnodup Hpreds h c' h' [HL HT] H. unfold visitLayer in H.
  apply bind_Ok in H as (st & h1 & Hfold & H). injection H as <- <-.
  destruct (last layer) as [lastv|] eqn:Elast.
  2: { apply last_None in Elast. subst layer. simpl in Hfold.
       by injection Hfold as <- <-. }
  pose proof Elast as Hsplit. apply last_Some in Hsplit as [init ->].
  rewrite indexed_snoc, foldM_app in Hfold.
  apply bind_Ok in Hfold as (st0 & h0 & Hinit & Hlast).
  assert (st0 = mkScan 0 0%nat c /\ labels h0 = L /\ trace h0 = T) as (-> & HL0 & HT0).
  { pose proof (hoare_foldM
      (fun st h => st = mkScan 0 0%nat c /\ labels h = L /\ trace h = T)
      (visitNode g (Z.of_nat (length prevLayer)) (init ++ [lastv])) (indexed init))
      as Hloop.
    apply (Hloop) with (s := mkScan 0 0%nat c) (h := h); [|done|done].
    intros sta [i v] Hiv h2 st2 h2' (-> & HL2 & HT2) Hstep.
    unfold indexed in Hiv. apply elem_of_lookup_imap in Hiv as (i' & v' & [= -> ->] & Hv).
    unfold visitNode in Hstep.
    apply bind_Ok in Hstep as (r & h3 & Hfind & Hstep).
    apply findOther_not_dummy in Hfind as [-> ->]; [|by rewrite HL2].
    apply bind_Ok in Hstep as (k1 & h3 & Hk1 & Hstep). injection Hk1 as <- <-.
    simpl in Hstep. rewrite Elast in Hstep.
    rewrite bool_decide_eq_false_2 in Hstep; [by injection Hstep as <- <-|].
    intros [= ->]. apply NoDup_app in Hnodup as (_ & Hdis & _).
    apply (Hdis lastv); [by eapply list_elem_of_lookup_2|by left]. }
  simpl in Hlast. apply bind_Ok in Hlast as (st1 & h1' & Hstep & Hret).
  injection Hret as <- <-. unfold visitNode in Hstep.
  apply bind_Ok in Hstep as (r & h3 & Hfind & Hstep).
  apply findOther_not_dummy in Hfind as [-> ->]; [|by rewrite HL0].
  apply bind_Ok in Hstep as (k1 & h3 & Hk1 & Hstep). injection Hk1 as <- <-.
  simpl in Hstep. rewrite Elast in Hstep.
  rewrite bool_decide_eq_true_2 in Hstep by done.
  apply bind_Ok in Hstep as (c1 & h4 & Hscan & Hstep). injection Hstep as <- <-.
  simpl. eapply (scanNodes_quiet g L T (length prevLayer) c); [|by split|exact Hscan].
  rewrite Forall_forall in Hpreds. apply Forall_forall. intros v Hv.
  apply Hpreds. unfold slice in Hv.
  by apply (subseteq_drop 0), (subseteq_take (length init + 1 - 0)).
Qed.

(** X8: on a graph without dummy nodes, with layers that list no node
    twice and predecessors whose order is an index into the previous layer,
    [collectType1Conflicts] records nothing: the returned conflict set is
    empty. *)
Theorem no_dummy_no_conflicts
    (g : Graph) (layering : list (list string)) (h h' : Heap) (c : Conflicts) :
  map_Forall (fun _ l => dummy l = false) (labels h) ->
  Forall NoDup layering ->
  predsIndexed g (labels h) (default [] (head layering)) (tail layering) ->
  collectType1Conflicts g layering h = Ok (c, h') ->
  c = ∅ /\ trace h' = trace h.
Proof.
  intros Hnd Hnodup Hidx H. unfold collectType1Conflicts in H.
  destruct layering as [|first rest]; [by injection H as <- <-|].
  simpl in Hidx. apply Forall_cons in Hnodup as [_ Hnodup].
  apply bind_Ok in H as (r & h1 & Hfold & H). injection H as <- <-.
  assert (forall layers acc h0 r0 h1,
            Forall NoDup layers ->
            predsIndexed g (labels h) acc.1 layers ->
            acc.2 = ∅ -> labels h0 = labels h -> trace h0 = trace h ->
            foldM (fun (acc : list string * Conflicts) layer =>
                     let* c := visitLayer g acc.2 acc.1 layer in ret (layer, c))
                  acc layers h0 = Ok (r0, h1) ->
            r0.2 = ∅ /\ trace h1 = trace h) as Hgen.
  { clear - Hnd. induction layers as [|layer layers IH];
      intros acc h0 r0 h1 Hnodup Hidx Hacc HL HT Hrun; simpl in Hrun.
    - by injection Hrun as <- <-.
    - simpl in Hidx. destruct Hidx as [Hidx Hidx'].
      apply Forall_cons in Hnodup as [Hnd1 Hnodup].
      apply bind_Ok in Hrun as (acc1 & h2 & Hstep & Hrun).
      apply bind_Ok in Hstep as (c1 & h3 & Hvisit & Hret). injection Hret as <- <-.
      destruct (visitLayer_quiet g (labels h) (trace h) acc.2 acc.1 layer Hnd Hnd1 Hidx
                  h0 c1 h3 (conj HL HT) Hvisit) as (-> & HL3 & HT3).
      by apply (IH (layer, acc.2) h3 r0 h1). }
  by apply (Hgen rest (first, ∅) h r h1).
Qed.

Lemma no_dummy_no_conflicts_witness :
  match collectType1Conflicts Staircase.g Staircase.layering Staircase.heap with
  | Ok (c, h') => c = ∅ /\ trace h' = trace Staircase.heap
  | Err _ => False
  end.
Proof.
  destruct (collectType1Conflicts Staircase.g Staircase.layering Staircase.heap)
    as [[c h']|e] eqn:E.
  - apply (no_dummy_no_conflicts Staircase.g Staircase.layering Staircase.heap h' c);
      [apply (bool_decide_unpack _); vm_compute; exact I ..|exact E].
  - vm_compute in E. discriminate E.
Defined.

(** ** Alignment writes only [root] and [align] *)

Lemma blocksOnly_ret {A} (a : A) : blocksOnly (ret a).
Proof. by intros h a' h' [= _ <-]. Qed.

Lemma blocksOnly_bind {A B} (m : M A) (f : A -> M B) :
  blocksOnly m -> (forall a, blocksOnly (f a)) -> blocksOnly (bind m f).
Proof.
  intros Hm Hf h b h' H. apply bind_Ok in H as (a & h1 & H1 & H2).
  apply Hm in H1. apply Hf in H2. congruence.
Qed.

Lemma blocksOnly_getNode v : blocksOnly (getNode v).
Proof. intros h a h' H. by apply getNode_Ok in H as [-> _]. Qed.

Lemma blocksOnly_modifyNode v upd :
  (forall l, set_root None (set_align None (upd l)) = set_root None (set_align None l)) ->
  blocksOnly (modifyNode v upd).
Proof.
  intros Hupd h a h' H. apply modifyNode_Ok in H as (l & Hl & ->). simpl.
  unfold clearBlocks. rewrite fmap_insert, Hupd.
  apply insert_id. by rewrite lookup_fmap, Hl.
Qed.

Lemma blocksOnly_foldM {A S} (f : S -> A -> M S) (xs : list A) :
  (forall s a, blocksOnly (f s a)) -> forall s, blocksOnly (foldM f s xs).
Proof.
  intros Hf. induction xs as [|a xs IH]; intros s; simpl.
  - apply blocksOnly_ret.
  - apply blocksOnly_bind; [apply Hf|]. intros s'. apply IH.
Qed.

Lemma blocksOnly_forEach {A} (f : A -> M unit) (xs : list A) :
  (forall a, blocksOnly (f a)) -> blocksOnly (forEach xs f).
Proof.
  intros Hf. induction xs as [|a xs IH]; simpl.
  - apply blocksOnly_ret.
  - apply blocksOnly_bind; [apply Hf|]. intros _. apply IH.
Qed.

Lemma blocksOnly_alignCandidate conflicts v ws p i :
  blocksOnly (alignCandidate conflicts v ws p i).
Proof.
  unfold alignCandidate. apply blocksOnly_bind; [apply blocksOnly_getNode|].
  intros vl. destruct (bool_decide _); [|apply blocksOnly_ret].
  destruct (ws !! i) as [w|]; [|by intros h a h'].
  apply blocksOnly_bind; [apply blocksOnly_getNode|]. intros wl.
  destruct (_ && _); [|apply blocksOnly_ret].
  apply blocksOnly_bind; [by intros h a h' [= _ <-]|]. intros before.
  apply blocksOnly_bind; [by intros h a h' [= _ <-]|]. intros _.
  apply blocksOnly_bind; [by apply blocksOnly_modifyNode; intros []|]. intros _.
  apply blocksOnly_bind; [by apply blocksOnly_modifyNode; intros []|]. intros _.
  apply blocksOnly_ret.
Qed.

Lemma blocksOnly_verticalAlignment g layering conflicts neighborFn :
  blocksOnly (verticalAlignment g layering conflicts neighborFn).
Proof.
  unfold verticalAlignment. apply blocksOnly_bind.
  - unfold initBlocks. apply blocksOnly_forEach. intros v.
    by apply blocksOnly_modifyNode; intros [].
  - intros _. apply blocksOnly_forEach. intros layer. unfold alignLayer.
    apply blocksOnly_bind; [|intros; apply blocksOnly_ret].
    apply blocksOnly_foldM. intros p v. unfold alignNode.
    destruct (0 <? _)%nat; [|apply blocksOnly_ret].
    apply blocksOnly_foldM. intros p' i. apply blocksOnly_alignCandidate.
Qed.

Lemma clearBlocks_lookup L L' v :
  clearBlocks L' = clearBlocks L ->
  match L !! v, L' !! v with
  | Some l, Some l' =>
      rank l' = rank l /\ order l' = order l /\ dummy l' = dummy l /\
      width l' = width l /\ x l' = x l
  | None, None => True
  | _, _ => False
  end.
Proof.
  intros H. apply (f_equal (fun m => m !! v)) in H.
  unfold clearBlocks in H. rewrite !lookup_fmap in H.
  destruct (L !! v) as [l|], (L' !! v) as [l'|]; simpl in H; try done.
  destruct l, l'. unfold set_root, set_align in H. simpl in *.
  by injection H as -> -> -> -> ->.
Qed.

(** X9: a call of [verticalAlignment] that returns has written [root] and
    [align] only: the graph has the same nodes, and every node has its
    [rank], [order], [dummy], [width] and [x] as before. *)
Theorem verticalAlignment_writes_blocks_only
    (g : Graph) (layering : list (list string)) (conflicts : Conflicts)
    (neighborFn : string -> list string) (h h' : Heap) :
  verticalAlignment g layering conflicts neighborFn h = Ok (tt, h') ->
  forall v,
    match labels h !! v, labels h' !! v with
    | Some l, Some l' =>
        rank l' = rank l /\ order l' = order l /\ dummy l' = dummy l /\
        width l' = width l /\ x l' = x l
    | None, None => True
    | _, _ => False
    end.
Proof.
  intros H v. apply clearBlocks_lookup.
  by apply (blocksOnly_verticalAlignment g layering conflicts neighborFn h tt h').
Qed.

Lemma verticalAlignment_writes_blocks_only_witness :
  match verticalAlignment Crossing.g Crossing.layering ∅ Crossing.preds Crossing.heap with
  | Ok (_, h') =>
      match labels Crossing.heap !! "d", labels h' !! "d" with
      | Some l, Some l' =>
          rank l' = rank l /\ order l' = order l /\ dummy l' = dummy l /\
          width l' = width l /\ x l' = x l
      | None, None => True
      | _, _ => False
      end
  | Err _ => False
  end.
Proof.
  destruct (verticalAlignment Crossing.g Crossing.layering ∅ Crossing.preds
              Crossing.heap) as [[[] h']|e] eqn:E.
  - exact (verticalAlignment_writes_blocks_only _ _ _ _ _ _ E "d").
  - vm_compute in E. discriminate E.
Defined.

(** ** Alignment joins a node with a median neighbour only *)

Lemma medianIndices_cases len i :
  i ∈ medianIndices len -> i = ((len - 1) / 2)%nat \/ i = (len / 2)%nat.
Proof.
  unfold medianIndices. intros Hi. apply elem_of_seq in Hi.
  pose proof (Nat.div_mod_eq len 2). pose proof (Nat.div_mod_eq (len - 1) 2).
  pose proof (Nat.mod_upper_bound len 2). pose proof (Nat.mod_upper_bound (len - 1) 2).
  lia.
Qed.

Lemma medianInv_refl neighborFn h : medianInv neighborFn h h.
Proof. exists []. by rewrite app_nil_r. Qed.

Lemma medianInv_alignCandidate conflicts neighborFn h0 v p i :
  i ∈ medianIndices (length (neighborFn v)) ->
  hoare (medianInv neighborFn h0)
        (alignCandidate conflicts v (neighborFn v) p i)
        (fun _ => medianInv neighborFn h0).
Proof.
  intros Hi h p' h' (evs & Htr & Hok) H. unfold alignCandidate in H.
  apply bind_Ok in H as (vl & h1 & Hv & H). apply getNode_Ok in Hv as [-> _].
  destruct (bool_decide _); [|injection H as _ <-; by exists evs].
  destruct (neighborFn v !! i) as [w|] eqn:Hw; [|done].
  apply bind_Ok in H as (wl & h1 & Hwl & H). apply getNode_Ok in Hwl as [-> _].
  destruct (_ && _); [|injection H as _ <-; by exists evs].
  apply bind_Ok in H as (before & h1 & Hb & H). injection Hb as <- <-.
  apply bind_Ok in H as ([] & h1 & He & H). injection He as <-.
  apply bind_Ok in H as ([] & h2 & H1 & H). apply modifyNode_Ok in H1 as (l1 & _ & ->).
  apply bind_Ok in H as ([] & h3 & H2 & H). apply modifyNode_Ok in H2 as (l2 & _ & ->).
  injection H as _ <-. simpl.
  exists (evs ++ [EvMerge v w p (labels h)]). split.
  - by rewrite Htr, app_assoc.
  - apply Forall_app. split; [done|]. apply Forall_singleton.
    unfold medianMerge.
    destruct (medianIndices_cases _ _ Hi) as [Heq | Heq]; rewrite <- Heq; auto.
Qed.

Lemma medianInv_alignLayer conflicts neighborFn h0 layer :
  hoare (medianInv neighborFn h0) (alignLayer conflicts neighborFn layer)
        (fun _ => medianInv neighborFn h0).
Proof.
  unfold alignLayer. eapply hoare_bind; [|intros p h u h' HI [= _ <-]; exact HI].
  apply (hoare_foldM (fun _ => medianInv neighborFn h0)).
  intros p v _. unfold alignNode.
  destruct (0 <? _)%nat; [|by intros h a h' HI [= _ <-]].
  apply (hoare_foldM (fun _ => medianInv neighborFn h0)).
  intros p' i Hi. by apply medianInv_alignCandidate.
Qed.

(** X10: the block structure that [verticalAlignment] leaves is the result
    of replaying its logged merges on the singleton blocks of its first
    loop, and every merge joins a node [v] with the neighbour at index
    [floor((len - 1) / 2)] or [ceil((len - 1) / 2)] of [neighborFn(v)]. *)
Theorem verticalAlignment_merges_medians
    (g : Graph) (layering : list (list string)) (conflicts : Conflicts)
    (neighborFn : string -> list string) (h h' : Heap) :
  verticalAlignment g layering conflicts neighborFn h = Ok (tt, h') ->
  exists h1 evs,
    initBlocks g h = Ok (tt, h1) /\
    trace h' = trace h ++ evs /\
    Replay (labels h1) evs (labels h') /\
    Forall (medianMerge neighborFn) evs.
Proof.
  intros H. unfold verticalAlignment in H.
  apply bind_Ok in H as ([] & h1 & Hinit & H).
  pose proof (hoare_forEach (alignInv conflicts h1)
                (alignLayer conflicts neighborFn) layering
                (fun layer _ => alignLayer_inv conflicts h1 neighborFn layer)
                h1 tt h' (alignInv_refl conflicts h1) H)
    as (evs & Htr & _ & Hrep).
  pose proof (hoare_forEach (medianInv neighborFn h1)
                (alignLayer conflicts neighborFn) layering
                (fun layer _ => medianInv_alignLayer conflicts neighborFn h1 layer)
                h1 tt h' (medianInv_refl neighborFn h1) H)
    as (evs' & Htr' & Hmed).
  assert (evs' = evs) as -> by (apply (app_inv_head (trace h1)); congruence).
  exists h1, evs. rewrite <- (initBlocks_trace g h h1 Hinit). done.
Qed.

Lemma verticalAlignment_merges_medians_witness :
  match verticalAlignment Staircase.g Staircase.layering ∅ Staircase.preds
                          Staircase.heap with
  | Ok (_, h') =>
      exists h1 evs,
        initBlocks Staircase.g Staircase.heap = Ok (tt, h1) /\
        trace h' = trace Staircase.heap ++ evs /\
        Replay (labels h1) evs (labels h') /\
        Forall (medianMerge Staircase.preds) evs
  | Err _ => False
  end.
Proof.
  destruct (verticalAlignment Staircase.g Staircase.layering ∅ Staircase.preds
              Staircase.heap) as [[[] h']|e] eqn:E.
  - exact (verticalAlignment_merges_medians _ _ _ _ _ _ E).
  - vm_compute in E. discriminate E.
Defined.

(** ** Alignment starts from scratch *)

Lemma resetBlocks_lookup ids : forall L n,
  resetBlocks ids L !! n =
  if decide (n ∈ ids)
  then (fun l => set_align (Some n) (set_root (Some n) l)) <$> L !! n
  else L !! n.
Proof.
  induction ids as [|v ids IH]; intros L n.
  - destruct (decide (n ∈ [])) as [Hin|]; [|reflexivity]. by apply elem_of_nil in Hin.
  - change (resetBlocks (v :: ids) L) with
      (resetBlocks ids (match L !! v with
                        | Some l => <[v := set_align (Some v) (set_root (Some v) l)]> L
                        | None => L
                        end)).
    rewrite IH. destruct (decide (n = v)) as [->|Hne].
    + rewrite (decide_True (P := v ∈ v :: ids)) by left.
      destruct (L !! v) as [l|] eqn:Hl.
      * rewrite lookup_insert_eq. by case_decide.
      * rewrite Hl. by case_decide.
    + assert (match L !! v with
              | Some l => <[v := set_align (Some v) (set_root (Some v) l)]> L
              | None => L
              end !! n = L !! n) as ->.
      { destruct (L !! v); [by rewrite lookup_insert_ne|done]. }
      destruct (decide (n ∈ ids)) as [Hin|Hin].
      * rewrite decide_True; [done|by right].
      * rewrite decide_False; [done|]. intros [?|?]%elem_of_cons; done.
Qed.

Lemma initBlocks_Ok g : forall h h1,
  initBlocks g h = Ok (tt, h1) ->
  h1 = mkHeap (resetBlocks (nodeIds g) (labels h)) (trace h) /\
  forall v, v ∈ nodeIds g -> is_Some (labels h !! v).
Proof.
  unfold initBlocks. induction (nodeIds g) as [|v ids IH]; intros h h1 H; simpl in H.
  - injection H as <-. split; [by destruct h|]. by intros v Hv%elem_of_nil.
  - apply bind_Ok in H as ([] & h2 & Hm & H).
    apply modifyNode_Ok in Hm as (l & Hl & ->).
    apply IH in H as [-> Hdom]. simpl in *. split.
    + unfold resetBlocks. simpl. by rewrite Hl.
    + intros n [->|Hn]%elem_of_cons; [by eexists|].
      destruct (Hdom n Hn) as [l' Hl'].
      destruct (decide (n = v)) as [->|Hne]; [by eexists|].
      rewrite lookup_insert_ne in Hl' by done. by eexists.
Qed.

Lemma initBlocks_run g : forall h,
  (forall v, v ∈ nodeIds g -> is_Some (labels h !! v)) ->
  initBlocks g h = Ok (tt, mkHeap (resetBlocks (nodeIds g) (labels h)) (trace h)).
Proof.
  unfold initBlocks. induction (nodeIds g) as [|v ids IH]; intros h Hdom; simpl.
  - by destruct h.
  - destruct (Hdom v) as [l Hl]; [by left|].
    rewrite (bind_eq _ _ h tt
               (mkHeap (<[v := set_align (Some v) (set_root (Some v) l)]> (labels h))
                       (trace h))) by (unfold modifyNode; by rewrite Hl).
    rewrite IH.
    + simpl. unfold resetBlocks. simpl. by rewrite Hl.
    + intros n Hn. simpl. destruct (decide (n = v)) as [->|Hne].
      * rewrite lookup_insert_eq. by eexists.
      * rewrite lookup_insert_ne by done. apply Hdom. by right.
Qed.

Lemma resetBlocks_clearBlocks ids L L2 :
  clearBlocks L2 = clearBlocks L ->
  (forall v, is_Some (L !! v) -> v ∈ ids) ->
  resetBlocks ids L2 = resetBlocks ids L.
Proof.
  intros Hclear Hdom. apply map_eq. intros n. rewrite !resetBlocks_lookup.
  pose proof (clearBlocks_lookup L L2 n Hclear) as Hn.
  destruct (L !! n) as [l|] eqn:Hl, (L2 !! n) as [l2|] eqn:Hl2; try done.
  case_decide as Hnin; [|destruct Hnin; apply Hdom; by eexists].
  simpl. destruct l, l2. unfold set_align, set_root. simpl in *.
  by destruct Hn as (-> & -> & -> & -> & ->).
Qed.

(** X11: [verticalAlignment] takes nothing from the [root] and [align] it
    finds.  Run on two graphs whose labels differ in these two fields only,
    it returns on both or on neither, and with the same labels. *)
Theorem verticalAlignment_ignores_old_blocks
    (g : Graph) (layering : list (list string)) (conflicts : Conflicts)
    (neighborFn : string -> list string) (h h2 h' : Heap) :
  (forall v, is_Some (labels h !! v) -> v ∈ nodeIds g) ->
  clearBlocks (labels h2) = clearBlocks (labels h) ->
  trace h2 = trace h ->
  verticalAlignment g layering conflicts neighborFn h = Ok (tt, h') ->
  verticalAlignment g layering conflicts neighborFn h2 = Ok (tt, h').
Proof.
  intros Hdom Hclear Htr H. unfold verticalAlignment in *.
  apply bind_Ok in H as ([] & h1 & Hinit & H).
  apply initBlocks_Ok in Hinit as [-> Hall].
  rewrite (bind_eq _ _ h2 tt
             (mkHeap (resetBlocks (nodeIds g) (labels h2)) (trace h2))).
  - by rewrite Htr, (resetBlocks_clearBlocks _ _ _ Hclear Hdom).
  - apply initBlocks_run. intros v Hv. destruct (Hall v Hv) as [l Hl].
    pose proof (clearBlocks_lookup (labels h) (labels h2) v Hclear) as Hn.
    rewrite Hl in Hn. destruct (labels h2 !! v); [by eexists|done].
Qed.

Lemma verticalAlignment_ignores_old_blocks_witness :
  match verticalAlignment Staircase.g Staircase.layering ∅ Staircase.preds
                          Staircase.heap with
  | Ok (_, h') =>
      verticalAlignment Staircase.g Staircase.layering ∅ Staircase.preds
                        (mkHeap (labels h') (trace Staircase.heap)) = Ok (tt, h')
  | Err _ => False
  end.
Proof.
  destruct (verticalAlignment Staircase.g Staircase.layering ∅ Staircase.preds
              Staircase.heap) as [[[] h']|e] eqn:E.
  - apply (verticalAlignment_ignores_old_blocks _ _ _ _ Staircase.heap _ h');
      [| | reflexivity | exact E].
    + intros v [l Hl]. revert v l Hl.
      change (map_Forall (fun v _ => v ∈ nodeIds Staircase.g) (labels Staircase.heap)).
      apply (bool_decide_unpack _). vm_compute. exact I.
    + vm_compute in E. injection E as <-. vm_compute. reflexivity.
  - vm_compute in E. discriminate E.
Defined.

(** ** Compaction writes only [x] *)

Lemma clearX_lookup L L' v :
  clearX L' = clearX L ->
  match L !! v, L' !! v with
  | Some l, Some l' =>
      rank l' = rank l /\ order l' = order l /\ dummy l' = dummy l /\
      width l' = width l /\ root l' = root l /\ align l' = align l
  | None, None => True
  | _, _ => False
  end.
Proof.
  intros H. apply (f_equal (fun m => m !! v)) in H.
  unfold clearX in H. rewrite !lookup_fmap in H.
  destruct (L !! v) as [l|], (L' !! v) as [l'|]; simpl in H; try done.
  destruct l, l'. unfold set_x in H. simpl in *.
  by injection H as -> -> -> -> -> ->.
Qed.

Lemma rootOf_clearX L L' v : clearX L' = clearX L -> rootOf L' v = rootOf L v.
Proof.
  intros H. pose proof (clearX_lookup L L' v H) as Hv. unfold rootOf.
  destruct (L !! v), (L' !! v); try done. by destruct Hv as (_ & _ & _ & _ & -> & _).
Qed.

(** X12: a call of [horizontalCompaction] that returns has written [x]
    only: the graph has the same nodes, and every node has its [rank],
    [order], [dummy], [width], [root] and [align] as before. *)
Theorem horizontalCompaction_writes_x_only
    (fuel : nat) (g : Graph) (layering : list (list string))
    (options r : option Options) (h h' : Heap) :
  horizontalCompaction fuel g layering options h = Ok (r, h') ->
  forall v,
    match labels h !! v, labels h' !! v with
    | Some l, Some l' =>
        rank l' = rank l /\ order l' = order l /\ dummy l' = dummy l /\
        width l' = width l /\ root l' = root l /\ align l' = align l
    | None, None => True
    | _, _ => False
    end.
Proof.
  intros H v. apply clearX_lookup.
  by destruct (xOnly_horizontalCompaction fuel g layering options h r h' H).
Qed.

Lemma horizontalCompaction_writes_x_only_witness :
  match horizontalCompaction 20 Staircase.g Staircase.layering None Staircase.aligned with
  | Ok (_, h') =>
      match labels Staircase.aligned !! "v2", labels h' !! "v2" with
      | Some l, Some l' =>
          rank l' = rank l /\ order l' = order l /\ dummy l' = dummy l /\
          width l' = width l /\ root l' = root l /\ align l' = align l
      | None, None => True
      | _, _ => False
      end
  | Err _ => False
  end.
Proof.
  destruct (horizontalCompaction 20 Staircase.g Staircase.layering None
              Staircase.aligned) as [[r h']|e] eqn:E.
  - exact (horizontalCompaction_writes_x_only _ _ _ _ _ _ _ E "v2").
  - vm_compute in E. discriminate E.
Defined.

(** ** Compaction gives every node a coordinate *)

Lemma xGrows_readOnly {A} (m : M A) : readOnly m -> xGrows m.
Proof. intros Hm h a h' H. by apply Hm in H as ->. Qed.

Lemma xGrows_ret {A} (a : A) : xGrows (ret a).
Proof. apply xGrows_readOnly, readOnly_ret. Qed.

Lemma xGrows_throw {A} e : xGrows (@throw A e).
Proof. by intros h a h'. Qed.

Lemma xGrows_getNode v : xGrows (getNode v).
Proof. apply xGrows_readOnly, readOnly_getNode. Qed.

Lemma xGrows_bind {A B} (m : M A) (f : A -> M B) :
  xGrows m -> (forall a, xGrows (f a)) -> xGrows (bind m f).
Proof.
  intros Hm Hf h b h' H n Hn. apply bind_Ok in H as (a & h1 & H1 & H2).
  eapply Hf; [done|]. by eapply Hm.
Qed.

Lemma xGrows_modifyNode v q : xGrows (modifyNode v (set_x (Some q))).
Proof.
  intros h a h' H n Hn. apply modifyNode_Ok in H as (l & Hl & ->). simpl.
  destruct (decide (n = v)) as [->|Hne].
  - rewrite xOf_insert_eq. by eexists.
  - by rewrite xOf_insert_ne.
Qed.

Lemma xGrows_foldM {A S} (f : S -> A -> M S) (xs : list A) :
  (forall s a, xGrows (f s a)) -> forall s, xGrows (foldM f s xs).
Proof.
  intros Hf. induction xs as [|a xs IH]; intros s; simpl.
  - apply xGrows_ret.
  - apply xGrows_bind; [apply Hf|]. intros s'. apply IH.
Qed.

Create HintDb xgrows.
#[local] Hint Resolve xGrows_ret xGrows_throw xGrows_getNode xGrows_modifyNode : xgrows.

Ltac xgrows :=
  repeat first
    [ progress auto with xgrows
    | apply xGrows_bind; [|intros ?]
    | match goal with
      | |- xGrows (if ?b then _ else _) => destruct b
      | |- xGrows (match ?o with Some _ => _ | None => _ end) => destruct o
      end ].

Lemma xGrows_placeBlock layering options : forall fuel,
  (forall tb v, xGrows (placeBlock fuel layering options tb v)) /\
  (forall tb v w, xGrows (walkBlock fuel layering options tb v w)).
Proof.
  induction fuel as [|fuel [IHp IHw]]; (split; [intros tb v|intros tb v w]); simpl;
    try apply xGrows_throw.
  - xgrows.
  - unfold pos, getAlign, pred, getRoot, sep, optionNum, getXNum. xgrows.
Qed.

Lemma placeBlock_placed fuel layering options tb v h tb' h' :
  placeBlock fuel layering options tb v h = Ok (tb', h') ->
  is_Some (xOf (labels h') v).
Proof.
  destruct fuel as [|fuel]; simpl; [done|]. intros H.
  apply bind_Ok in H as (l & h1 & Hl & H). apply getNode_Ok in Hl as [-> Hl].
  destruct (x l) as [q|] eqn:Hx.
  - injection H as _ <-. unfold xOf. rewrite Hl, Hx. by eexists.
  - apply bind_Ok in H as ([] & h2 & Hm & H).
    apply modifyNode_Ok in Hm as (l' & _ & ->).
    eapply (proj2 (xGrows_placeBlock layering options fuel)); [exact H|].
    simpl. rewrite xOf_insert_eq. by eexists.
Qed.

Lemma placeBlocks_placed fuel layering options ids : forall tb h tb' h',
  foldM (fun tb v =>
           let* label := getNode v in
           if bool_decide (root label = Some v)
           then placeBlock fuel layering options tb v
           else ret tb) tb ids h = Ok (tb', h') ->
  forall v, v ∈ ids -> rootOf (labels h) v = Some v -> is_Some (xOf (labels h') v).
Proof.
  induction ids as [|a ids IH]; intros tb h tb' h' H v Hv Hroot.
  - by apply elem_of_nil in Hv.
  - simpl in H. apply bind_Ok in H as (tb1 & h1 & Ha & H).
    assert (clearX (labels h1) = clearX (labels h)) as Hstatic.
    { assert (xOnly (let* label := getNode a in
                     if bool_decide (root label = Some a)
                     then placeBlock fuel layering options tb a
                     else ret tb)) as Hx.
      { apply xOnly_bind; [apply xOnly_getNode|]. intros l.
        destruct (bool_decide _); [apply xOnly_placeBlock | apply xOnly_ret]. }
      by destruct (Hx h tb1 h1 Ha). }
    destruct (decide (v ∈ ids)) as [Hin|Hnin].
    + eapply IH; [exact H|done|]. by rewrite (rootOf_clearX _ _ v Hstatic).
    + apply elem_of_cons in Hv as [->|?]; [|done].
      assert (xGrows (foldM (fun tb v =>
                let* label := getNode v in
                if bool_decide (root label = Some v)
                then placeBlock fuel layering options tb v
                else ret tb) tb1 ids)) as Hgrow.
      { apply xGrows_foldM. intros s b. apply xGrows_bind; [apply xGrows_getNode|].
        intros l. destruct (bool_decide _); [apply xGrows_placeBlock | apply xGrows_ret]. }
      eapply Hgrow; [exact H|].
      apply bind_Ok in Ha as (l & h2 & Hl & Ha). apply getNode_Ok in Hl as [-> Hl].
      unfold rootOf in Hroot. rewrite Hl in Hroot.
      rewrite bool_decide_eq_true_2 in Ha by done.
      by eapply placeBlock_placed.
Qed.

Lemma assignX_placed g L0 tb v h h' :
  rootsInGraph g L0 -> rootsPlaced g L0 h -> v ∈ nodeIds g ->
  assignX tb v h = Ok (tt, h') ->
  rootsPlaced g L0 h' /\ is_Some (xOf (labels h') v) /\
  forall n, is_Some (xOf (labels h) n) -> is_Some (xOf (labels h') n).
Proof.
  intros Hroots [Hstatic Hplaced] Hv H.
  destruct (Hroots v Hv) as (r & Hr & Hrin & Hrr).
  unfold assignX in H.
  apply bind_Ok in H as (r' & h1 & Hr' & H). apply getRoot_Ok in Hr' as (-> & Hr').
  assert (r' = r) as -> by (rewrite <- Hstatic in Hr; congruence).
  assert (exists l, labels h !! v = Some l) as [l Hl].
  { unfold rootOf in Hr'. destruct (labels h !! v); [by eexists|done]. }
  apply bind_Ok in H as (xr & h1 & Hxr & H). unfold getX in Hxr.
  apply bind_Ok in Hxr as (rl & h2 & Hrl & Hxr). apply getNode_Ok in Hrl as [-> Hrl].
  injection Hxr as <- <-.
  destruct (Hplaced r Hrin Hrr) as [q Hq].
  assert (x rl = Some q) as Hxq by (unfold xOf in Hq; by rewrite Hrl in Hq).
  rewrite Hxq in H.
  apply bind_Ok in H as ([] & h1 & Hm & H). apply modifyNode_Ok in Hm as (l' & Hl' & ->).
  assert (l' = l) as -> by congruence.
  assert (forall h2 : Heap,
            labels h2 = <[v := set_x (Some q) l]> (labels h) \/
            (exists q', labels h2 = <[v := set_x (Some q') (set_x (Some q) l)]>
                                      (<[v := set_x (Some q) l]> (labels h))) ->
            rootsPlaced g L0 h2 /\ is_Some (xOf (labels h2) v) /\
            forall n, is_Some (xOf (labels h) n) -> is_Some (xOf (labels h2) n)) as Hfin.
  { intros h2 Hh2.
    assert (exists q', labels h2 = <[v := set_x (Some q') l]> (labels h)) as [q' Hq'].
    { destruct Hh2 as [->|[q' ->]]; [by eexists|]. exists q'. by rewrite insert_insert_eq. }
    unfold rootsPlaced. rewrite Hq'. split; [split|split].
    - intros n. rewrite <- Hstatic. unfold rootOf.
      destruct (decide (n = v)) as [->|Hne].
      + by rewrite lookup_insert_eq, Hl.
      + by rewrite lookup_insert_ne.
    - intros n Hn Hnn. destruct (decide (n = v)) as [->|Hne].
      + rewrite xOf_insert_eq. by eexists.
      + rewrite xOf_insert_ne by done. by apply Hplaced.
    - rewrite xOf_insert_eq. by eexists.
    - intros n Hn. destruct (decide (n = v)) as [->|Hne].
      + rewrite xOf_insert_eq. by eexists.
      + by rewrite xOf_insert_ne. }
  destruct (sink tb !! r) as [s|]; [|injection H as <-; apply Hfin; by left].
  destruct (shift tb !! s) as [[d|]|]; try (injection H as <-; apply Hfin; by left).
  apply bind_Ok in H as (xv & h1 & Hxv & H). apply getXNum_Ok in Hxv as (-> & _).
  apply modifyNode_Ok in H as (l2 & Hl2 & ->). simpl in Hl2.
  rewrite lookup_insert_eq in Hl2. injection Hl2 as <-.
  apply Hfin. right. by eexists.
Qed.

Lemma assignAll_placed g L0 tb ids : forall h h',
  rootsInGraph g L0 -> rootsPlaced g L0 h -> (forall v, v ∈ ids -> v ∈ nodeIds g) ->
  forEach ids (assignX tb) h = Ok (tt, h') ->
  rootsPlaced g L0 h' /\
  (forall v, v ∈ ids -> is_Some (xOf (labels h') v)) /\
  forall n, is_Some (xOf (labels h) n) -> is_Some (xOf (labels h') n).
Proof.
  induction ids as [|a ids IH]; intros h h' Hroots HJ Hsub H; simpl in H.
  - injection H as <-. split; [done|]. split; [|done]. by intros v Hv%elem_of_nil.
  - apply bind_Ok in H as ([] & h1 & Ha & H).
    destruct (assignX_placed g L0 tb a h h1 Hroots HJ) as (HJ1 & Hxa & Hmono1);
      [apply Hsub; by left|done|].
    destruct (IH h1 h' Hroots HJ1) as (HJ' & Hall & Hmono); [|done|].
    { intros v Hv. apply Hsub. by right. }
    split; [done|]. split.
    + intros v [->|Hv]%elem_of_cons; [by apply Hmono|by apply Hall].
    + intros n Hn. by apply Hmono, Hmono1.
Qed.

(** X13: when the root of every node of the graph is a node of the graph
    that is its own root, a call of [horizontalCompaction] that returns
    leaves every node of the graph with a number in [x]. *)
Theorem horizontalCompaction_assigns_every_node
    (fuel : nat) (g : Graph) (layering : list (list string))
    (options r : option Options) (h h' : Heap) :
  rootsInGraph g (labels h) ->
  horizontalCompaction fuel g layering options h = Ok (r, h') ->
  forall v, v ∈ nodeIds g -> is_Some (xOf (labels h') v).
Proof.
  intros Hroots H. unfold horizontalCompaction in H.
  apply bind_Ok in H as (tb & h1 & Hplace & H).
  apply bind_Ok in H as ([] & h2 & Hassign & H). injection H as _ <-.
  assert (rootsPlaced g (labels h) h1) as HJ.
  { split.
    - intros n. apply rootOf_clearX.
      assert (xOnly (placeBlocks fuel g layering (defaults (default ∅ options))
                       (initTables g))) as Hx.
      { unfold placeBlocks. apply xOnly_foldM. intros tb0 v.
        apply xOnly_bind; [apply xOnly_getNode|]. intros l.
        destruct (bool_decide _); [apply xOnly_placeBlock | apply xOnly_ret]. }
      by destruct (Hx h tb h1 Hplace).
    - intros r0 Hr0 Hrr. by eapply placeBlocks_placed. }
  by destruct (assignAll_placed g (labels h) tb (nodeIds g) h1 h2 Hroots HJ) as (_ & Hall & _).
Qed.

Lemma horizontalCompaction_assigns_every_node_witness :
  match horizontalCompaction 20 Cascade.g Cascade.layering None Cascade.aligned with
  | Ok (_, h') => forall v, v ∈ nodeIds Cascade.g -> is_Some (xOf (labels h') v)
  | Err _ => False
  end.
Proof.
  destruct (horizontalCompaction 20 Cascade.g Cascade.layering None Cascade.aligned)
    as [[r h']|e] eqn:E.
  - apply (horizontalCompaction_assigns_every_node _ _ _ _ _ _ _) with (2 := E).
    intros v Hv.
    assert (forallb (fun v =>
              match rootOf (labels Cascade.aligned) v with
              | Some r => bool_decide (r ∈ nodeIds Cascade.g) &&
                          bool_decide (rootOf (labels Cascade.aligned) r = Some r)
              | None => false
              end) (nodeIds Cascade.g) = true) as Hall by (vm_compute; reflexivity).
    rewrite forallb_forall in Hall. apply list_elem_of_In in Hv.
    specialize (Hall v Hv).
    destruct (rootOf (labels Cascade.aligned) v) as [r0|]; [|discriminate Hall].
    apply andb_prop in Hall as [H1 H2].
    exists r0. split; [reflexivity|].
    split; [exact (bool_decide_eq_true_1 _ H1) | exact (bool_decide_eq_true_1 _ H2)].
  - vm_compute in E. discriminate E.
Defined.

(** ** Compaction does not move a node that has a coordinate *)

Lemma initTables_noShift g : noShift (initTables g).
Proof.
  unfold initTables.
  assert (forall ids tb, noShift tb ->
            noShift (foldl (fun tb v => mkTables (<[v := PosInf]> (shift tb))
                                                 (<[v := v]> (sink tb))) tb ids)) as Hgen.
  { induction ids as [|v ids IH]; intros tb Htb; simpl; [done|].
    apply IH. intros s d. simpl. destruct (decide (v = s)) as [->|Hne].
    - by rewrite lookup_insert_eq.
    - rewrite lookup_insert_ne by done. apply Htb. }
  apply Hgen. intros s d. simpl. by rewrite lookup_empty.
Qed.

Lemma placeBlocks_skip fuel layering options ids : forall tb h,
  (0 < fuel)%nat ->
  (forall v, v ∈ ids -> is_Some (xOf (labels h) v)) ->
  foldM (fun tb v =>
           let* label := getNode v in
           if bool_decide (root label = Some v)
           then placeBlock fuel layering options tb v
           else ret tb) tb ids h = Ok (tb, h).
Proof.
  intros tb h Hfuel. destruct fuel as [|fuel]; [lia|].
  induction ids as [|a ids IH]; intros Hx; [done|].
  destruct (Hx a) as [q Hq]; [by left|]. unfold xOf in Hq.
  destruct (labels h !! a) as [l|] eqn:Hl; [|done].
  cbn [foldM].
  rewrite (bind_eq _ _ h tb h).
  - apply IH. intros v Hv. apply Hx. by right.
  - rewrite (bind_eq _ _ h l h) by (unfold getNode; by rewrite Hl).
    destruct (bool_decide _); [|done].
    cbn [placeBlock].
    rewrite (bind_eq _ _ h l h) by (unfold getNode; by rewrite Hl).
    by rewrite Hq.
Qed.

Lemma assignX_kept L0 tb v r h :
  noShift tb -> rootsKept L0 h ->
  rootOf L0 v = Some r -> rootOf L0 r = Some r ->
  exists h', assignX tb v h = Ok (tt, h') /\ rootsKept L0 h' /\
             xOf (labels h') v = xOf L0 r /\
             forall n, n <> v -> xOf (labels h') n = xOf (labels h) n.
Proof.
  intros Hns [Hstatic Hkept] Hv Hr.
  assert (exists l, labels h !! v = Some l /\ root l = Some r) as (l & Hl & Hlr).
  { rewrite <- Hstatic in Hv. unfold rootOf in Hv.
    destruct (labels h !! v) as [l|]; [by exists l|done]. }
  assert (exists rl, labels h !! r = Some rl /\ x rl = xOf L0 r) as (rl & Hrl & Hxr).
  { pose proof (Hkept r Hr) as Hx. rewrite <- Hstatic in Hr. unfold rootOf in Hr.
    unfold xOf in Hx at 1.
    destruct (labels h !! r) as [rl|]; [by exists rl|done]. }
  set (h1 := mkHeap (<[v := set_x (xOf L0 r) l]> (labels h)) (trace h)).
  assert (rootsKept L0 h1 /\ xOf (labels h1) v = xOf L0 r /\
          forall n, n <> v -> xOf (labels h1) n = xOf (labels h) n) as Hpost.
  { unfold rootsKept, h1. simpl. split; [split|split].
    - intros n. rewrite <- Hstatic. unfold rootOf.
      destruct (decide (n = v)) as [->|Hne].
      + by rewrite lookup_insert_eq, Hl.
      + by rewrite lookup_insert_ne.
    - intros n Hn. destruct (decide (n = v)) as [->|Hne].
      + rewrite xOf_insert_eq. simpl. congruence.
      + rewrite xOf_insert_ne by done. by apply Hkept.
    - by rewrite xOf_insert_eq.
    - intros n Hne. by rewrite xOf_insert_ne. }
  exists h1. split; [|exact Hpost].
  unfold assignX.
  rewrite (bind_eq _ _ h r h).
  2:{ unfold getRoot. rewrite (bind_eq _ _ h l h) by (unfold getNode; by rewrite Hl).
      by rewrite Hlr. }
  rewrite (bind_eq _ _ h (xOf L0 r) h).
  2:{ unfold getX. rewrite (bind_eq _ _ h rl h) by (unfold getNode; by rewrite Hrl).
      by rewrite Hxr. }
  rewrite (bind_eq _ _ h tt h1) by (unfold modifyNode; by rewrite Hl).
  destruct (sink tb !! r) as [s|]; [|done].
  pose proof (Hns s) as Hs.
  destruct (shift tb !! s) as [[d|]|]; [by destruct (Hs d)|done|done].
Qed.

Lemma assignAll_kept L0 tb ids : forall h,
  noShift tb -> rootsKept L0 h ->
  (forall v, v ∈ ids -> exists r, rootOf L0 v = Some r /\ rootOf L0 r = Some r) ->
  exists h', forEach ids (assignX tb) h = Ok (tt, h') /\ rootsKept L0 h' /\
             (forall v r, v ∈ ids -> rootOf L0 v = Some r ->
                          xOf (labels h') v = xOf L0 r) /\
             forall n, n ∉ ids -> xOf (labels h') n = xOf (labels h) n.
Proof.
  induction ids as [|a ids IH]; intros h Hns HK Hroots.
  - exists h. split; [done|]. split; [done|]. split; [|done].
    by intros v r Hv%elem_of_nil.
  - destruct (Hroots a) as (ra & Hra & Hrr); [by left|].
    destruct (assignX_kept L0 tb a ra h Hns HK Hra Hrr) as (h1 & Ha & HK1 & Hxa & Hfr1).
    destruct (IH h1 Hns HK1) as (h' & Hrest & HK' & Hall & Hfr).
    { intros v Hv. apply Hroots. by right. }
    exists h'. split; [|split; [done|split]].
    + cbn [forEach]. by rewrite (bind_eq _ _ h tt h1).
    + intros v r Hv Hr. destruct (decide (v ∈ ids)) as [Hin|Hnin]; [by apply Hall|].
      apply elem_of_cons in Hv as [->|?]; [|done].
      rewrite Hfr by done. congruence.
    + intros n Hn. rewrite Hfr by (intros ?; apply Hn; by right).
      apply Hfr1. intros ->. apply Hn. by left.
Qed.

(** X14: [horizontalCompaction] places no block whose root has an [x]
    already.  Called with every node of the graph carrying an [x], and the
    root of every node its own root, it returns and gives every node the
    [x] that its root had before the call, whatever the layering and the
    options are. *)
Theorem horizontalCompaction_keeps_placed_roots
    (fuel : nat) (g : Graph) (layering : list (list string))
    (options : option Options) (h : Heap) :
  (0 < fuel)%nat ->
  (forall v, v ∈ nodeIds g -> is_Some (xOf (labels h) v)) ->
  (forall v, v ∈ nodeIds g ->
     exists r, rootOf (labels h) v = Some r /\ rootOf (labels h) r = Some r) ->
  exists r1 h',
    horizontalCompaction fuel g layering options h = Ok (r1, h') /\
    forall v r, v ∈ nodeIds g -> rootOf (labels h) v = Some r ->
                xOf (labels h') v = xOf (labels h) r.
Proof.
  intros Hfuel Hx Hroots.
  destruct (assignAll_kept (labels h) (initTables g) (nodeIds g) h
              (initTables_noShift g)) as (h' & Hrun & _ & Hall & _).
  { by split. }
  { exact Hroots. }
  eexists _, h'. split; [|exact Hall].
  unfold horizontalCompaction.
  rewrite (bind_eq _ _ h (initTables g) h)
    by (by apply placeBlocks_skip).
  by rewrite (bind_eq _ _ h tt h').
Qed.
